(** * A shallow embedding of [advanced-vector/vector.h]

    [RawMemory<T>] owns a block of raw slots, [Vector<T>] owns a
    [RawMemory<T>] and the lifetime of the elements of its live prefix.

    The element type [T] is a parameter.  Everything the container asks of it
    goes through one of its special members, and each such call is an
    [event]: it is appended to a [history], and an oracle [throws], a function
    of the history so far, decides whether the call throws.  A history-driven
    oracle covers every deterministic element type ("throws on the fourth
    copy") and [operator new] running out of memory.

    Conventions of the model:
    - [size_t] is 64 bits wide and [int] 32 bits, the widths of the common
      platforms: a [size_t] product is taken modulo [2^64] ([to_size_t]), and
      the difference [pos - begin()] that [Emplace] and [Erase] store in an
      [int] is narrowed modulo [2^32] ([to_int]);
    - a pointer is the offset of its slot from the start of its block, and
      the sum of a pointer and a negative [int] that leaves the block to the
      front is undefined ([pointer_add]);
    - [operator new(n * sizeof(T))] returns a block with room for as many
      elements as the bytes it is asked for hold ([room]);
    - the size and the capacity a vector holds are the natural numbers they
      stand for, and a difference of sizes or positions is taken where the
      code has made sure it is not negative;
    - an element operation that throws leaves its operands as they were;
    - destructors and [operator delete] do not throw;
    - a [std::uninitialized_*_n] algorithm that rolls back destroys the
      elements it has constructed in index order, as the common standard
      libraries do;
    - the arguments of [Emplace], [Insert] and [PushBack] are values of their
      own, not references to elements of the vector they are given to;
    - behaviour the C++ standard leaves undefined (reading a raw slot,
      constructing outside the block, releasing a pointer [operator new] did
      not return) is the outcome [Undefined], which records the state in which
      it was met. *)

From stdpp Require Import base list.

(** ** Machine integers *)

(** The value of a [size_t] expression whose mathematical value is [z]. *)
Definition to_size_t (z : Z) : nat := Z.to_nat (z mod 2 ^ 64).

(** The [int] that the conversion of the pointer difference [z] gives. *)
Definition to_int (z : Z) : Z := ((z + 2 ^ 31) mod 2 ^ 32 - 2 ^ 31)%Z.

(** ** The element type *)

(** What the container uses of [T]: its value-initialised value [T()], the
    state a move leaves in its source, the two type traits the relocation
    code branches on, and [sizeof(T)]. *)
Class ElementType (T : Type) := {
  value_initialized : T;
  moved_from : T → T;
  is_nothrow_move_constructible : bool;
  is_copy_constructible : bool;
  sizeof : positive
}.

(** ** Calls and histories *)

(** Calls into the element type and into the allocator. *)
Inductive event (T : Type) :=
| OperatorNew (n : nat)          (* operator new(n * sizeof(T)) *)
| OperatorDelete                 (* operator delete(p) *)
| ValueConstruct                 (* T() *)
| Construct (x : T)              (* T(args...), building the value x *)
| CopyConstruct (x : T)          (* T(const T&) *)
| MoveConstruct (x : T)          (* T(T&&) *)
| CopyAssign (dst src : T)       (* dst = src *)
| MoveAssign (dst src : T)       (* dst = std::move(src) *)
| Destroy (x : T).               (* ~T() *)

Arguments OperatorNew {T} n.
Arguments OperatorDelete {T}.
Arguments ValueConstruct {T}.
Arguments Construct {T} x.
Arguments CopyConstruct {T} x.
Arguments MoveConstruct {T} x.
Arguments CopyAssign {T} dst src.
Arguments MoveAssign {T} dst src.
Arguments Destroy {T} x.

(** An entry of a history: a call that completed, or one that threw. *)
Inductive entry (T : Type) :=
| Did (e : event T)
| Threw (e : event T).

Arguments Did {T} e.
Arguments Threw {T} e.

(** ** Element types and environments of the scenarios

    The elements of the scenarios hold a number. *)

(** [int]: a move is a copy, and the move constructor cannot throw. *)
Definition int_elements : ElementType nat :=
  {| value_initialized := 0;
     moved_from := λ x, x;
     is_nothrow_move_constructible := true;
     is_copy_constructible := true;
     sizeof := 4 |}.

(** A copyable class whose move constructor is not [noexcept]. *)
Definition copyable_elements : ElementType nat :=
  {| value_initialized := 0;
     moved_from := λ x, x;
     is_nothrow_move_constructible := false;
     is_copy_constructible := true;
     sizeof := 4 |}.

(** A class without a copy constructor whose move constructor is not
    [noexcept]; a moved-from object holds [0]. *)
Definition move_only_elements : ElementType nat :=
  {| value_initialized := 0;
     moved_from := λ _, 0;
     is_nothrow_move_constructible := false;
     is_copy_constructible := false;
     sizeof := 4 |}.

(** The environment in which nothing throws. *)
Definition never : list (entry nat) → event nat → bool := λ _ _, false.

(** The copy constructions completed in a history. *)
Definition copies (h : list (entry nat)) : nat :=
  sum_list ((λ e, match e with Did (CopyConstruct _) => 1 | _ => 0 end) <$> h).

(** The fourth copy construction throws. *)
Definition fourth_copy_throws : list (entry nat) → event nat → bool := λ h e,
  match e with
  | CopyConstruct _ => copies h =? 3
  | _ => false
  end.

(** A history of three copy constructions. *)
Definition three_copies : list (entry nat) :=
  [Did (CopyConstruct 1); Did (CopyConstruct 2); Did (CopyConstruct 3)].

(** The constructor [T(args...)] throws. *)
Definition construction_throws : list (entry nat) → event nat → bool := λ _ e,
  match e with
  | Construct _ => true
  | _ => false
  end.

(** The move constructions completed in a history. *)
Definition move_constructions (h : list (entry nat)) : nat :=
  sum_list ((λ e, match e with Did (MoveConstruct _) => 1 | _ => 0 end) <$> h).

(** The second move construction throws. *)
Definition second_move_throws : list (entry nat) → event nat → bool := λ h e,
  match e with
  | MoveConstruct _ => move_constructions h =? 1
  | _ => false
  end.

(** The move assignments completed in a history. *)
Definition move_assignments (h : list (entry nat)) : nat :=
  sum_list ((λ e, match e with Did (MoveAssign _ _) => 1 | _ => 0 end) <$> h).

(** The second move assignment throws. *)
Definition second_move_assignment_throws : list (entry nat) → event nat → bool :=
  λ h e,
  match e with
  | MoveAssign _ _ => move_assignments h =? 1
  | _ => false
  end.

(** The second copy construction throws. *)
Definition second_copy_throws : list (entry nat) → event nat → bool := λ h e,
  match e with
  | CopyConstruct _ => copies h =? 1
  | _ => false
  end.

(** The copy assignments completed in a history. *)
Definition copy_assignments (h : list (entry nat)) : nat :=
  sum_list ((λ e, match e with Did (CopyAssign _ _) => 1 | _ => 0 end) <$> h).

(** The second copy assignment throws. *)
Definition second_copy_assignment_throws : list (entry nat) → event nat → bool :=
  λ h e,
  match e with
  | CopyAssign _ _ => copy_assignments h =? 1
  | _ => false
  end.

(** Sizes beyond the machine integers: [2^31] and [2^32] elements, and a
    number [n] of elements of four bytes each with [n * 4 = 2^64 + 4]. *)
Definition two_to_31 : nat := Z.to_nat (2 ^ 31).
Definition two_to_32 : nat := Z.to_nat (2 ^ 32).
Definition beyond_size_t : nat := Z.to_nat (2 ^ 62 + 1).

(** The value-initialising constructor [T()] throws. *)
Definition value_construction_throws : list (entry nat) → event nat → bool := λ _ e,
  match e with
  | ValueConstruct => true
  | _ => false
  end.

Section AdvancedVector.

Context {T : Type} `{!ElementType T}.

(** A slot of a block: raw memory, or a constructed element. *)
Inductive slot :=
| Raw
| Live (x : T).

Abbreviation history := (list (entry T)).
Abbreviation event := (event T).

(** The environment: does the call [e], made after [h], throw? *)
Variable throws : history → event → bool.

(** Calls that cannot throw: destructors, [operator delete], and the move
    constructor of a type with [is_nothrow_move_constructible_v<T>]. *)
Definition noexcept (e : event) : bool :=
  match e with
  | OperatorDelete | Destroy _ => true
  | MoveConstruct _ => is_nothrow_move_constructible
  | _ => false
  end.

Definition completes (h : history) (e : event) : bool :=
  noexcept e || negb (throws h e).

(** Some call that may throw does throw, somewhere. *)
Definition raised : Prop :=
  ∃ h e, noexcept e = false ∧ throws h e = true.

(** ** Outcomes and the monad of member functions *)

Inductive result (S A : Type) :=
| Returned (a : A) (s : S) (h : history)
| Thrown (s : S) (h : history)
| Undefined (s : S) (h : history).

Arguments Returned {S A} a s h.
Arguments Thrown {S A} s h.
Arguments Undefined {S A} s h.

Definition M (S A : Type) : Type := S → history → result S A.

#[local] Instance M_ret {S} : MRet (M S) := λ A a s h, Returned a s h.

#[local] Instance M_bind {S} : MBind (M S) := λ A B f m s h,
  match m s h with
  | Returned a s' h' => f a s' h'
  | Thrown s' h' => Thrown s' h'
  | Undefined s' h' => Undefined s' h'
  end.

(** The empty statement. *)
Definition skip {S} : M S unit := mret tt.

(** [throw;] *)
Definition rethrow {S A} : M S A := λ s h, Thrown s h.

Definition undefined {S A} : M S A := λ s h, Undefined s h.

(** [try { body } catch (...) { handler }] *)
Definition try_catch {S A} (body handler : M S A) : M S A := λ s h,
  match body s h with
  | Thrown s' h' => handler s' h'
  | r => r
  end.

(** Run [m] on the part [get s] of a larger state and store the part back;
    the part may be out of reach (a dangling pointer). *)
Definition zoom {S S' A} (get : S' → option S) (put : S' → S → S') (m : M S A) : M S' A :=
  λ s h,
  match get s with
  | Some p =>
      match m p h with
      | Returned a p' h' => Returned a (put s p') h'
      | Thrown p' h' => Thrown (put s p') h'
      | Undefined p' h' => Undefined (put s p') h'
      end
  | None => Undefined s h
  end.

(** A local object [l] of a block scope: its destructor [exit] runs when
    control leaves the scope, by return or by exception. *)
Definition scope {S L A} (l : L) (body : M (S * L) A) (exit : L → M S unit) : M S A :=
  λ s h,
  match body (s, l) h with
  | Returned a (s', l') h' => (exit l' ;; mret a) s' h'
  | Thrown (s', l') h' => (exit l' ;; rethrow) s' h'
  | Undefined (s', _) h' => Undefined s' h'
  end.

(** One call [e] whose effect on the state is [upd]. *)
Definition call {S} (e : event) (upd : S → S) : M S unit := λ s h,
  if completes h e then Returned tt (upd s) (h ++ [Did e])
  else Thrown s (h ++ [Threw e]).

(** ** Element operations on the slots of a block *)

(** [new (p) T(...)] with the constructor call [e] building [x]. *)
Definition construct_at (e : event) (x : T) (p : nat) : M (list slot) unit := λ cs,
  match cs !! p with
  | Some Raw => call e <[p := Live x]> cs
  | _ => undefined cs
  end.

(** [std::destroy_at(p)] *)
Definition destroy_at (p : nat) : M (list slot) unit := λ cs,
  match cs !! p with
  | Some (Live x) => call (Destroy x) <[p := Raw]> cs
  | _ => undefined cs
  end.

(** [std::destroy_n(first, n)] *)
Fixpoint destroy_n (first n : nat) : M (list slot) unit :=
  match n with
  | 0 => mret tt
  | S n' => destroy_at first ;; destroy_n (S first) n'
  end.

(** Move-assignment of slot [s] to slot [d] of one block: [d[0] = std::move(s[0])]. *)
Definition move_assign_at (d s : nat) : M (list slot) unit := λ cs,
  match cs !! d, cs !! s with
  | Some (Live y), Some (Live x) =>
      call (MoveAssign y x) (λ cs, <[d := Live x]> (<[s := Live (moved_from x)]> cs)) cs
  | _, _ => undefined cs
  end.

(** Move-construction of slot [d] from slot [s] of one block: [new (d) T(std::move(s[0]))]. *)
Definition move_construct_at (d s : nat) : M (list slot) unit := λ cs,
  match cs !! d, cs !! s with
  | Some Raw, Some (Live x) =>
      call (MoveConstruct x) (λ cs, <[d := Live x]> (<[s := Live (moved_from x)]> cs)) cs
  | _, _ => undefined cs
  end.

(** [std::uninitialized_*_n]: construct [n] slots, the [k]-th by
    [construct k]; when a construction throws, [destroy k] destroys the [k]
    slots constructed so far and the exception is rethrown. *)
Fixpoint uninitialized_loop {St} (construct destroy : nat → M St unit) (k n : nat) : M St unit :=
  match n with
  | 0 => mret tt
  | S n' =>
      try_catch (construct k) (destroy k ;; rethrow) ;;
      uninitialized_loop construct destroy (S k) n'
  end.

(** [std::uninitialized_value_construct_n(first, n)] *)
Definition uninitialized_value_construct_n (first n : nat) : M (list slot) unit :=
  uninitialized_loop
    (λ k, construct_at ValueConstruct value_initialized (first + k))
    (destroy_n first) 0 n.

(** [std::move(first, last, d_first)], front to back. *)
Fixpoint move_loop (first d_first n : nat) : M (list slot) unit :=
  match n with
  | 0 => mret tt
  | S n' => move_assign_at d_first first ;; move_loop (S first) (S d_first) n'
  end.

Definition std_move (first last d_first : nat) : M (list slot) unit :=
  if decide (first ≤ last) then move_loop first d_first (last - first) else undefined.

(** [std::move_backward(first, last, d_last)], back to front. *)
Fixpoint move_backward_loop (last d_last n : nat) : M (list slot) unit :=
  match n with
  | 0 => mret tt
  | S n' =>
      move_assign_at (d_last - 1) (last - 1) ;;
      move_backward_loop (last - 1) (d_last - 1) n'
  end.

Definition move_backward (first last d_last : nat) : M (list slot) unit :=
  if decide (first ≤ last) then move_backward_loop last d_last (last - first) else undefined.

(** *** From a source block to a destination block

    The state is the pair (source slots, destination slots). *)

Definition on_dst {A} (m : M (list slot) A) : M (list slot * list slot) A :=
  zoom (λ sd, Some sd.2) (λ sd d, (sd.1, d)) m.

(** [new (d) T(s[0])], copying. *)
Definition copy_construct_from (d s : nat) : M (list slot * list slot) unit := λ sd,
  match sd.1 !! s with
  | Some (Live x) => on_dst (construct_at (CopyConstruct x) x d) sd
  | _ => undefined sd
  end.

(** [new (d) T(std::move(s[0]))] *)
Definition move_construct_from (d s : nat) : M (list slot * list slot) unit := λ sd,
  match sd.2 !! d, sd.1 !! s with
  | Some Raw, Some (Live x) =>
      call (MoveConstruct x)
        (λ sd, (<[s := Live (moved_from x)]> sd.1, <[d := Live x]> sd.2)) sd
  | _, _ => undefined sd
  end.

(** [d[0] = s[0]], copying. *)
Definition copy_assign_from (d s : nat) : M (list slot * list slot) unit := λ sd,
  match sd.2 !! d, sd.1 !! s with
  | Some (Live y), Some (Live x) =>
      call (CopyAssign y x) (λ sd, (sd.1, <[d := Live x]> sd.2)) sd
  | _, _ => undefined sd
  end.

(** [std::uninitialized_copy_n(first, n, d_first)] *)
Definition uninitialized_copy_n (first n d_first : nat) : M (list slot * list slot) unit :=
  uninitialized_loop
    (λ k, copy_construct_from (d_first + k) (first + k))
    (λ k, on_dst (destroy_n d_first k)) 0 n.

(** [std::uninitialized_move_n(first, n, d_first)] *)
Definition uninitialized_move_n (first n d_first : nat) : M (list slot * list slot) unit :=
  uninitialized_loop
    (λ k, move_construct_from (d_first + k) (first + k))
    (λ k, on_dst (destroy_n d_first k)) 0 n.

(** [std::copy_n(first, n, d_first)] *)
Fixpoint copy_n (first n d_first : nat) : M (list slot * list slot) unit :=
  match n with
  | 0 => mret tt
  | S n' => copy_assign_from d_first first ;; copy_n (S first) n' (S d_first)
  end.

(** ** RawMemory *)

(** The value of [buffer_]: null, the block it points to, or a pointer to a
    block that has been released. *)
Inductive pointer :=
| nullptr
| block (cells : list slot)
| dangling.

Record RawMemory := { buffer_ : pointer; capacity_ : nat }.

(** The number of elements that the block of [operator new(n * sizeof(T))]
    has room for: the product is a [size_t]. *)
Definition room (n : nat) : nat :=
  Z.to_nat ((Z.of_nat n * Z.pos sizeof) `mod` 2 ^ 64 / Z.pos sizeof).

(** [Allocate(n)] *)
Definition Allocate {S} (n : nat) : M S pointer :=
  if decide (n ≠ 0) then call (OperatorNew n) id ;; mret (block (replicate (room n) Raw))
  else mret nullptr.

(** [Deallocate(buf)]: [operator delete(buf)] on the start of a block or on a
    null pointer. *)
Definition Deallocate {S} (buf : pointer) : M S unit :=
  match buf with
  | dangling => undefined
  | _ => call OperatorDelete id
  end.

(** [RawMemory(capacity)] *)
Definition RawMemory_new {S} (capacity : nat) : M S RawMemory :=
  buf ← Allocate capacity;
  mret {| buffer_ := buf; capacity_ := capacity |}.

(** [~RawMemory()] *)
Definition RawMemory_delete {S} (m : RawMemory) : M S unit :=
  Deallocate (buffer_ m).

(** [RawMemory::Swap] *)
Definition RawMemory_Swap (m other : RawMemory) : RawMemory * RawMemory :=
  ({| buffer_ := buffer_ other; capacity_ := capacity_ other |},
   {| buffer_ := buffer_ m; capacity_ := capacity_ m |}).

Definition RawMemory_Capacity (m : RawMemory) : nat := capacity_ m.

(** The slots [GetAddress()] gives access to. *)
Definition cells (m : RawMemory) : option (list slot) :=
  match buffer_ m with
  | nullptr => Some []
  | block cs => Some cs
  | dangling => None
  end.

Definition set_cells (m : RawMemory) (cs : list slot) : RawMemory :=
  match buffer_ m with
  | block _ => {| buffer_ := block cs; capacity_ := capacity_ m |}
  | _ => m
  end.

(** [operator delete(GetAddress() + offset)]: defined on a null pointer and
    on the start of a block, which it releases. *)
Definition operator_delete_at (offset : nat) : M RawMemory unit := λ m,
  match buffer_ m, offset with
  | nullptr, 0 => call OperatorDelete id m
  | block _, 0 =>
      call OperatorDelete (λ m, {| buffer_ := dangling; capacity_ := capacity_ m |}) m
  | _, _ => undefined m
  end.

(** ** Vector *)

Record Vector := { data_ : RawMemory; size_ : nat }.

Definition Size (v : Vector) : nat := size_ v.
Definition Capacity (v : Vector) : nat := RawMemory_Capacity (data_ v).

(** The slots of a block of [c] slots whose live prefix holds [xs]. *)
Definition slots (xs : list T) (c : nat) : list slot :=
  (Live <$> xs) ++ replicate (c - length xs) Raw.

(** The [RawMemory] whose block of [c] slots holds [cs]; an empty block is
    the null pointer, as [Allocate] has it. *)
Definition memory_of (cs : list slot) (c : nat) : RawMemory :=
  {| buffer_ := if decide (c = 0) then nullptr else block cs; capacity_ := c |}.

(** The vector that holds the elements [xs] in a block of [c] slots. *)
Definition vector_of (xs : list T) (c : nat) : Vector :=
  {| data_ := memory_of (slots xs c) c; size_ := length xs |}.

(** The constructor call [T(std::forward<Args>(args)...)] of [Emplace]:
    from arbitrary arguments, or, as [Insert] and [PushBack] use it, from a
    [const T&] or a [T&&]. *)
Inductive initializer :=
| from_args (x : T)
| from_copy (x : T)
| from_move (x : T).

Definition value_of (i : initializer) : T :=
  match i with from_args x | from_copy x | from_move x => x end.

Definition event_of (i : initializer) : event :=
  match i with
  | from_args x => Construct x
  | from_copy x => CopyConstruct x
  | from_move x => MoveConstruct x
  end.

(** *** Access paths *)

(** An algorithm on the slots of [data_]. *)
Definition on_data {A} (m : M (list slot) A) : M Vector A :=
  zoom (λ v, cells (data_ v))
       (λ v cs, {| data_ := set_cells (data_ v) cs; size_ := size_ v |}) m.

(** An algorithm from the slots of [other] (read only) to those of [data_]. *)
Definition from_other {A} (other : Vector) (m : M (list slot * list slot) A) : M Vector A :=
  zoom (λ v, src ← cells (data_ other); dst ← cells (data_ v); Some (src, dst))
       (λ v sd, {| data_ := set_cells (data_ v) sd.2; size_ := size_ v |}) m.

(** Inside a member function with a local [RawMemory<T> new_data]: the state
    is ([*this], [new_data]). *)
Definition on_this {A} (m : M (list slot) A) : M (Vector * RawMemory) A :=
  zoom (λ vn, Some vn.1) (λ vn v, (v, vn.2)) (on_data m).

Definition on_new_data {A} (m : M (list slot) A) : M (Vector * RawMemory) A :=
  zoom (λ vn, cells vn.2) (λ vn cs, (vn.1, set_cells vn.2 cs)) m.

(** An algorithm from the slots of [data_] to those of [new_data]. *)
Definition to_new_data {A} (m : M (list slot * list slot) A) : M (Vector * RawMemory) A :=
  zoom (λ vn, src ← cells (data_ vn.1); dst ← cells vn.2; Some (src, dst))
       (λ vn sd, ({| data_ := set_cells (data_ vn.1) sd.1; size_ := size_ vn.1 |},
                  set_cells vn.2 sd.2)) m.

(** [data_.Swap(new_data)] *)
Definition swap_new_data : M (Vector * RawMemory) unit := λ vn h,
  let '(d, n) := RawMemory_Swap (data_ vn.1) vn.2 in
  Returned tt ({| data_ := d; size_ := size_ vn.1 |}, n) h.

Definition set_size (n : nat) : M Vector unit := λ v h,
  Returned tt {| data_ := data_ v; size_ := n |} h.

(** [++size_] *)
Definition increment_size : M Vector unit := λ v, set_size (size_ v + 1) v.

(** [--size_] *)
Definition decrement_size : M Vector unit := λ v, set_size (size_ v - 1) v.

(** [p + position], for a pointer [p] to the start of a block and an [int]:
    the offset of the pointer it gives, which is not one before the block. *)
Definition pointer_add {S} (position : Z) : M S nat :=
  if decide (0 ≤ position)%Z then mret (Z.to_nat position) else undefined.

(** Reading through a pointer [begin() + p] to a live element. *)
Definition dereference (p : nat) : M Vector T := λ v h,
  match cells (data_ v) ≫= (.!! p) with
  | Some (Live x) => Returned x v h
  | _ => Undefined v h
  end.

(** *** Construction and destruction *)

(** [Vector() = default] *)
Definition Vector_default : Vector :=
  {| data_ := {| buffer_ := nullptr; capacity_ := 0 |}; size_ := 0 |}.

(** The body of a constructor, run on the members already initialised: when
    it throws, the member [data_] is destroyed and no vector exists. *)
Definition constructing {S} (members : Vector) (body : M Vector unit) : M S Vector :=
  λ s h,
  match body members h with
  | Returned _ v h' => Returned v s h'
  | Thrown v h' => (RawMemory_delete (data_ v) ;; rethrow) s h'
  | Undefined _ h' => Undefined s h'
  end.

(** [explicit Vector(size_t size)] *)
Definition Vector_sized {S} (size : nat) : M S Vector :=
  data ← RawMemory_new size;
  constructing {| data_ := data; size_ := size |}
    (on_data (uninitialized_value_construct_n 0 size)).

(** [Vector(const Vector& other)] *)
Definition Vector_copy {S} (other : Vector) : M S Vector :=
  data ← RawMemory_new (size_ other);
  constructing {| data_ := data; size_ := size_ other |}
    (from_other other (uninitialized_copy_n 0 (size_ other) 0)).

(** [Vector(Vector&& other) noexcept]: the new vector and what is left of
    [other]. *)
Definition Vector_move (other : Vector) : Vector * Vector :=
  ({| data_ := {| buffer_ := buffer_ (data_ other); capacity_ := capacity_ (data_ other) |};
      size_ := size_ other |},
   {| data_ := {| buffer_ := nullptr; capacity_ := 0 |}; size_ := 0 |}).

(** [~Vector()], followed by the destructor of the member [data_]. *)
Definition Vector_delete {S} (v : Vector) : M S unit := λ s h,
  match on_data (destroy_n 0 (size_ v)) v h with
  | Returned _ v' h' => RawMemory_delete (data_ v') s h'
  | _ => Undefined s h
  end.

(** [Vector::Swap] *)
Definition Swap (v other : Vector) : Vector * Vector :=
  let '(d, o) := RawMemory_Swap (data_ v) (data_ other) in
  ({| data_ := d; size_ := size_ other |}, {| data_ := o; size_ := size_ v |}).

(** *** Assignment *)

(** The right-hand side of an assignment: [*this] itself or another vector. *)
Inductive operand :=
| self
| other_vector (rhs : Vector).

(** [Vector& operator=(const Vector& rhs)] *)
Definition copy_assign (rhs : operand) : M Vector unit := λ v,
  match rhs with
  | self => skip v
  | other_vector rhs =>
      if decide (size_ rhs ≤ Capacity v) then
        let copy_size := size_ v `min` size_ rhs in
        (from_other rhs (copy_n 0 copy_size 0) ;;
         (if decide (size_ rhs < size_ v) then
            on_data (destroy_n (size_ rhs) (size_ v - size_ rhs))
          else if decide (size_ v < size_ rhs) then
            from_other rhs
              (uninitialized_copy_n (size_ v) (size_ rhs - size_ v) (size_ v))
          else skip) ;;
         set_size (size_ rhs)) v
      else
        (rhs_copy ← Vector_copy rhs;
         scope rhs_copy
           (λ vc h, let '(a, b) := Swap vc.1 vc.2 in Returned tt (a, b) h)
           Vector_delete) v
  end.

(** [Vector& operator=(Vector&& rhs) noexcept]: [*this] and [rhs] afterwards. *)
Definition move_assign (v rhs : Vector) : Vector * Vector := Swap v rhs.

(** *** Capacity *)

(** [void Reserve(size_t new_capacity)] *)
Definition Reserve (new_capacity : nat) : M Vector unit := λ v,
  if decide (new_capacity ≤ Capacity v) then skip v
  else
    (new_data ← RawMemory_new new_capacity;
     scope new_data
       ((if is_nothrow_move_constructible || negb is_copy_constructible then
           to_new_data (uninitialized_move_n 0 (size_ v) 0)
         else
           to_new_data (uninitialized_copy_n 0 (size_ v) 0)) ;;
        on_this (destroy_n 0 (size_ v)) ;;
        swap_new_data)
       RawMemory_delete) v.

(** [void Resize(size_t new_size)] *)
Definition Resize (new_size : nat) : M Vector unit := λ v,
  ((if decide (new_size < size_ v) then
      on_data (destroy_n new_size (size_ v - new_size))
    else
      (if decide (Capacity v < new_size) then
         let new_capacity := to_size_t (Z.of_nat (Capacity v) * 2) `max` new_size in
         Reserve new_capacity
       else skip) ;;
      on_data (uninitialized_value_construct_n (size_ v) (new_size - size_ v))) ;;
   set_size new_size) v.

(** [void PopBack() noexcept] *)
Definition PopBack : M Vector unit := λ v,
  if decide (size_ v ≠ 0) then
    (on_data (destroy_at (size_ v - 1)) ;;
     decrement_size) v
  else skip v.

(** *** Positional insertion and removal

    An iterator is the offset of its slot from [begin()]. *)

(** Inside the scope of the local [T value]: the state is ([*this], [value]). *)
Definition on_vector {A} (m : M Vector A) : M (Vector * T) A :=
  zoom (λ vx, Some vx.1) (λ vx v, (v, vx.2)) m.

(** [T value(std::forward<Args>(args)...)] *)
Definition construct_local {S} (i : initializer) : M S T :=
  call (event_of i) id ;; mret (value_of i).

(** The destructor of the local [value]. *)
Definition destroy_local {S} (x : T) : M S unit := call (Destroy x) id.

(** [d[0] = std::forward<T>(value)], from the local [value]. *)
Definition move_assign_from_local (d : nat) : M (list slot * T) unit := λ cx,
  match cx.1 !! d with
  | Some (Live y) =>
      call (MoveAssign y cx.2) (λ cx, (<[d := Live cx.2]> cx.1, moved_from cx.2)) cx
  | _ => undefined cx
  end.

Definition assign_local_to_data (d : nat) : M (Vector * T) unit :=
  zoom (λ vx, cs ← cells (data_ vx.1); Some (cs, vx.2))
       (λ vx cx, ({| data_ := set_cells (data_ vx.1) cx.1; size_ := size_ vx.1 |}, cx.2))
       (move_assign_from_local d).

(** The body of the [try] block of [EmplaceWithoutRelocation]. *)
Definition EmplaceWithoutRelocation_try (pos : nat) (i : initializer) : M Vector unit := λ v,
  if decide (pos ≠ size_ v) then
    let position := to_int (Z.of_nat pos) in
    (value ← construct_local i;
     scope value
       (on_vector (on_data (move_construct_at (size_ v) (size_ v - 1))) ;;
        first ← pointer_add position;
        on_vector (on_data (move_backward first (size_ v - 1) (size_ v))) ;;
        d ← pointer_add position;
        assign_local_to_data d)
       destroy_local) v
  else
    on_data (construct_at (event_of i) (value_of i) (size_ v)) v.

(** Its handler: [operator delete (end()); throw;] *)
Definition EmplaceWithoutRelocation_catch : M Vector unit := λ v,
  (zoom (λ v, Some (data_ v)) (λ v d, {| data_ := d; size_ := size_ v |})
        (operator_delete_at (size_ v)) ;;
   rethrow) v.

Definition EmplaceWithoutRelocation (pos : nat) (i : initializer) : M Vector unit :=
  try_catch (EmplaceWithoutRelocation_try pos i) EmplaceWithoutRelocation_catch.

(** [new_data.GetAddress() + position] comes first: from there on
    [position] is not negative, and [d] is its value, which is at most [pos]
    and so at most [size_]. *)
Definition EmplaceWithRelocation (pos : nat) (i : initializer) : M Vector unit := λ v,
  let position := to_int (Z.of_nat pos) in
  (new_data ← RawMemory_new
                (if decide (size_ v = 0) then 1 else to_size_t (Z.of_nat (size_ v) * 2));
   scope new_data
     (d ← pointer_add position;
      on_new_data (construct_at (event_of i) (value_of i) d) ;;
      (if is_nothrow_move_constructible || negb is_copy_constructible then
         to_new_data (uninitialized_move_n 0 d 0) ;;
         to_new_data (uninitialized_move_n d (size_ v - d) (d + 1))
       else
         to_new_data (uninitialized_copy_n 0 d 0) ;;
         to_new_data (uninitialized_copy_n d (size_ v - d) (d + 1))) ;;
      on_this (destroy_n 0 (size_ v)) ;;
      swap_new_data)
     RawMemory_delete) v.

(** [iterator Emplace(const_iterator pos, Args&&... args)] *)
Definition Emplace (pos : nat) (i : initializer) : M Vector nat := λ v,
  if decide (pos ≤ size_ v) then
    let position := to_int (Z.of_nat pos) in
    ((if decide (size_ v < Capacity v) then EmplaceWithoutRelocation pos i
      else EmplaceWithRelocation pos i) ;;
     increment_size ;;
     pointer_add position) v
  else undefined v.

(** [iterator Erase(const_iterator pos)] *)
Definition Erase (pos : nat) : M Vector nat := λ v,
  if decide (pos ≤ size_ v) then
    let position := to_int (Z.of_nat pos) in
    (first ← pointer_add position;
     on_data (std_move (first + 1) (size_ v) first) ;;
     on_data (destroy_at (size_ v - 1)) ;;
     decrement_size ;;
     pointer_add position) v
  else undefined v.

(** [iterator Insert(const_iterator pos, const T& value)] *)
Definition Insert (pos : nat) (value : T) : M Vector nat :=
  Emplace pos (from_copy value).

(** [iterator Insert(const_iterator pos, T&& value)] *)
Definition Insert_rvalue (pos : nat) (value : T) : M Vector nat :=
  Emplace pos (from_move value).

(** [T& operator[](size_t index) noexcept] *)
Definition subscript (index : nat) (v : Vector) : option T :=
  if decide (index < size_ v) then
    cs ← cells (data_ v);
    match cs !! index with Some (Live x) => Some x | _ => None end
  else None.

(** [T& EmplaceBack(Args&&... args)]: the element the returned reference
    denotes. *)
Definition EmplaceBack (i : initializer) : M Vector T := λ v,
  (p ← Emplace (size_ v) i;
   dereference p) v.

(** [void PushBack(Type&& value)], with [Type&&] a [const T&] or a [T&&]. *)
Definition PushBack (i : initializer) : M Vector unit :=
  EmplaceBack i ;; mret tt.

(** The elements a traversal from [begin()] to [end()] visits. *)
Definition elements (v : Vector) : list T :=
  omap (λ index, subscript index v) (seq 0 (size_ v)).

(** * Vocabulary of the specification *)

(** [outcome r P E]: [r] is defined; a return satisfies [P], an exception
    leaves a state that satisfies [E]. *)
Definition outcome {S A} (r : result S A)
    (P : A → S → history → Prop) (E : S → history → Prop) : Prop :=
  match r with
  | Returned a s h => P a s h
  | Thrown s h => E s h
  | Undefined _ _ => False
  end.

(** A vector in the middle of a member function: [size_] need not be the
    number of live slots. *)
Definition vector_with (cs : list slot) (c k : nat) : Vector :=
  {| data_ := memory_of cs c; size_ := k |}.

(** The relocation of a range into [new_data], by move or by copy. *)
Definition relocate_n (by_move : bool) (first n d_first : nat) : M (Vector * RawMemory) unit :=
  if by_move then to_new_data (uninitialized_move_n first n d_first)
  else to_new_data (uninitialized_copy_n first n d_first).

(** The capacity [EmplaceWithRelocation] grows a vector of [k] elements to,
    when [k * 2] does not wrap. *)
Definition grown (k : nat) : nat := if decide (k = 0) then 1 else k * 2.

(** A position that an [int] holds. *)
Definition int_position (pos : nat) : Prop := (Z.of_nat pos < 2 ^ 31)%Z.

(** A block of [n] elements takes less than [2^64] bytes: the size that
    [Allocate(n)] asks [operator new] for is [n * sizeof(T)]. *)
Definition allocatable (n : nat) : Prop := (Z.of_nat n * Z.pos sizeof < 2 ^ 64)%Z.

(** What [std::move_backward] leaves in the first slot of the range it
    shifts: the slot it was given when the range is empty, else the
    moved-from first element. *)
Definition vacated (y : T) (xs : list T) : T :=
  match xs with
  | [] => y
  | x :: _ => moved_from x
  end.

(** [returns_or_raised r P]: [r] is a return that satisfies [P], unless some
    call has thrown; the outcome may then be undefined. *)
Definition returns_or_raised {S A} (r : result S A) (P : A → S → history → Prop) : Prop :=
  match r with
  | Returned a s h => P a s h
  | _ => raised
  end.

(** What [std::move] leaves in the slot after the range it shifts to the
    front: the moved-from last element, or the slot it was given when the
    range is empty. *)
Fixpoint left_behind (y : T) (xs : list T) : T :=
  match xs with
  | [] => y
  | x :: xs' => left_behind (moved_from x) xs'
  end.

(** The move-assignments that shift [xs] one slot to the front, onto a slot
    that holds [y]. *)
Fixpoint shift_events (y : T) (xs : list T) : history :=
  match xs with
  | [] => []
  | x :: xs' => Did (MoveAssign y x) :: shift_events (moved_from x) xs'
  end.

(** The copy-assignments of [xs] over [ys]. *)
Definition assign_events (ys xs : list T) : history :=
  Did <$> zip_with CopyAssign ys xs.

(** The invariant of the data model: the size is at most the capacity. *)
Definition invariant (v : Vector) : Prop := size_ v ≤ Capacity v.

(** [settles r P E]: a return satisfies [P]; the state of any other outcome
    satisfies [E]. *)
Definition settles {S A} (r : result S A) (P : A → S → Prop) (E : S → Prop) : Prop :=
  match r with
  | Returned a s _ => P a s
  | Thrown s _ | Undefined s _ => E s
  end.

(** [every_state r Q]: the state of [r] satisfies [Q], whatever the outcome. *)
Definition every_state {S A} (r : result S A) (Q : S → Prop) : Prop :=
  settles r (λ _, Q) Q.

(** The two counters of a vector. *)
Definition counters (v : Vector) : nat * nat := (size_ v, Capacity v).

(** With a local [new_data]: the counters of [*this] and the capacity of
    [new_data]. *)
Definition counters_with (vn : Vector * RawMemory) : nat * nat * nat :=
  (counters vn.1, capacity_ vn.2).

(** The number of slots of the block of [m]. *)
Definition block_length (m : RawMemory) : nat := from_option length 0 (cells m).

(** A member function keeps the invariant: from a vector that satisfies it,
    the vector of every outcome satisfies it. *)
Definition keeps_invariant {A} (m : M Vector A) : Prop :=
  ∀ v h, invariant v → every_state (m v h) invariant.

(** * Client code and vocabulary of the further properties *)

(** [for (auto&& x : args) v.PushBack(std::forward<decltype(x)>(x));] *)
Fixpoint PushBack_each (args : list initializer) : M Vector unit :=
  match args with
  | [] => skip
  | i :: args' => PushBack i ;; PushBack_each args'
  end.

(** A vector without elements whose [buffer_] still holds the address of a
    block of [c] slots that has been released. *)
Definition released (c : nat) : Vector :=
  {| data_ := {| buffer_ := dangling; capacity_ := c |}; size_ := 0 |}.

(** The calls of a [std::uninitialized_*_n] over [xs] whose construction
    of the [j]-th element, from [x], throws: [j] constructions, the one that
    throws, and the destructors of the [j] elements constructed. *)
Definition rolled_back (construct : T → event) (xs : list T) (j : nat) (x : T) : history :=
  (Did ∘ construct <$> take j xs) ++ [Threw (construct x)] ++ (Did ∘ Destroy <$> take j xs).

(** A member function never lowers the capacity: from any vector, the
    capacity of the vector of every outcome is at least the one before. *)
Definition never_shrinks {A} (m : M Vector A) : Prop :=
  ∀ v h, every_state (m v h) (λ v', Capacity v ≤ Capacity v').

(** The constructor call that relocates the element [x]. *)
Definition relocation (by_move : bool) (x : T) : event :=
  if by_move then MoveConstruct x else CopyConstruct x.

(** The elements [xs] after the relocation of the first [j] of them: moved
    from when the relocation moves, untouched when it copies. *)
Definition relocated_from (by_move : bool) (j : nat) (xs : list T) : list T :=
  if by_move then (moved_from <$> take j xs) ++ drop j xs else xs.

(** The outcome of an insertion of [value] at position [pos] of the
    sequence [xs], held in a block of [c] slots: it returns [pos], which
    denotes the new element, and leaves one element more, with the elements
    after the position one slot further; it returns unless a call throws. *)
Definition inserted (xs : list T) (c pos : nat) (value : T) (r : result Vector nat) : Prop :=
  match r with
  | Returned p v' _ =>
      p = pos ∧
      v' = vector_of (take pos xs ++ value :: drop pos xs)
             (if decide (length xs < c) then c else grown (length xs)) ∧
      elements v' = take pos xs ++ value :: drop pos xs ∧
      Size v' = length xs + 1 ∧
      subscript p v' = Some value
  | Thrown _ _ | Undefined _ _ => raised
  end.

(** The capacity that doubling from an empty block reaches for [n]
    elements: the least power of two that holds them. *)
Definition doubled (n : nat) : nat := if decide (n = 0) then 0 else 2 ^ Nat.log2_up n.

(** * Verification *)

(** ** Sizes and positions within range *)

Lemma to_int_position pos : int_position pos → to_int (Z.of_nat pos) = Z.of_nat pos.
Proof.
  unfold int_position, to_int. intros Hp. rewrite Z.mod_small by lia. lia.
Qed.

Lemma pointer_add_position {S} pos :
  int_position pos → pointer_add (S := S) (to_int (Z.of_nat pos)) = mret pos.
Proof.
  intros Hp. rewrite to_int_position by done. unfold pointer_add.
  rewrite decide_True by lia. by rewrite Nat2Z.id.
Qed.

Lemma to_size_t_small z : (0 ≤ z < 2 ^ 64)%Z → to_size_t z = Z.to_nat z.
Proof. intros Hz. unfold to_size_t. by rewrite Z.mod_small. Qed.

Lemma allocatable_size_t n : allocatable n → (Z.of_nat n < 2 ^ 64)%Z.
Proof. unfold allocatable. nia. Qed.

Lemma allocatable_le m n : m ≤ n → allocatable n → allocatable m.
Proof. unfold allocatable. nia. Qed.

Lemma room_allocatable n : allocatable n → room n = n.
Proof.
  unfold allocatable, room. intros Hn.
  rewrite Z.mod_small by lia. rewrite Z.div_mul by lia. apply Nat2Z.id.
Qed.

Lemma room_le n : room n ≤ n.
Proof.
  unfold room.
  assert (0 ≤ (Z.of_nat n * Z.pos sizeof) `mod` 2 ^ 64 ≤ Z.of_nat n * Z.pos sizeof)%Z
    as Hm by (split; [apply Z.mod_pos_bound|apply Z.mod_le]; lia).
  assert ((Z.of_nat n * Z.pos sizeof) `mod` 2 ^ 64 / Z.pos sizeof ≤ Z.of_nat n)%Z; [|lia].
  apply Z.div_le_upper_bound; lia.
Qed.

(** Within range, a position is its own [int], and the products are the
    mathematical ones. *)
Lemma EmplaceWithoutRelocation_try_position pos i v :
  int_position pos →
  EmplaceWithoutRelocation_try pos i v
  = if decide (pos ≠ size_ v) then
      (value ← construct_local i;
       scope value
         (on_vector (on_data (move_construct_at (size_ v) (size_ v - 1))) ;;
          on_vector (on_data (move_backward pos (size_ v - 1) (size_ v))) ;;
          assign_local_to_data pos)
         destroy_local) v
    else
      on_data (construct_at (event_of i) (value_of i) (size_ v)) v.
Proof.
  intros Hp. unfold EmplaceWithoutRelocation_try.
  by rewrite pointer_add_position.
Qed.

Lemma Emplace_position pos i v :
  int_position pos →
  Emplace pos i v
  = if decide (pos ≤ size_ v) then
      ((if decide (size_ v < Capacity v) then EmplaceWithoutRelocation pos i
        else EmplaceWithRelocation pos i) ;;
       increment_size ;;
       mret pos) v
    else undefined v.
Proof. intros Hp. unfold Emplace. by rewrite pointer_add_position. Qed.

Lemma Erase_position pos v :
  int_position pos →
  Erase pos v
  = if decide (pos ≤ size_ v) then
      (on_data (std_move (pos + 1) (size_ v) pos) ;;
       on_data (destroy_at (size_ v - 1)) ;;
       decrement_size ;;
       mret pos) v
    else undefined v.
Proof. intros Hp. unfold Erase. by rewrite pointer_add_position. Qed.

(** ** Reasoning about outcomes *)

Lemma outcome_mono {S A} (r : result S A) (P P' : A → S → history → Prop)
    (E E' : S → history → Prop) :
  outcome r P E →
  (∀ a s h, P a s h → P' a s h) →
  (∀ s h, E s h → E' s h) →
  outcome r P' E'.
Proof. destruct r; simpl; auto. Qed.

Lemma outcome_bind {S A B} (m : M S A) (f : A → M S B) s h
    (P : A → S → history → Prop) (Q : B → S → history → Prop)
    (E : S → history → Prop) :
  outcome (m s h) P E →
  (∀ a s' h', P a s' h' → outcome (f a s' h') Q E) →
  outcome ((m ≫= f) s h) Q E.
Proof.
  intros Hm Hf. unfold mbind, M_bind.
  destruct (m s h) as [a s' h'|s' h'|s' h']; simpl in *; auto.
Qed.

Lemma outcome_ret {S A} (a : A) (s : S) h
    (P : A → S → history → Prop) (E : S → history → Prop) :
  P a s h → outcome ((mret a : M S A) s h) P E.
Proof. done. Qed.

Lemma outcome_Returned {S A} (r : result S A) a s h :
  r = Returned a s h →
  outcome r (λ a' s' h', a' = a ∧ s' = s ∧ h' = h) (λ _ _, False).
Proof. by intros ->. Qed.

Lemma outcome_zoom {S S' A} (get : S' → option S) (put : S' → S → S')
    (m : M S A) s p h
    (P : A → S → history → Prop) (E : S → history → Prop) :
  get s = Some p →
  outcome (m p h) P E →
  outcome (zoom get put m s h)
    (λ a s' h', ∃ p', s' = put s p' ∧ P a p' h')
    (λ s' h', ∃ p', s' = put s p' ∧ E p' h').
Proof.
  intros Hget Hm. unfold zoom. rewrite Hget.
  destruct (m p h); simpl in *; eauto.
Qed.

Lemma outcome_call {S} (e : event) (upd : S → S) s h :
  outcome (call e upd s h)
    (λ _ s' h', s' = upd s ∧ h' = h ++ [Did e])
    (λ s' h', s' = s ∧ h' = h ++ [Threw e] ∧ noexcept e = false ∧ raised).
Proof.
  unfold call, completes.
  destruct (noexcept e) eqn:Hn, (throws h e) eqn:Ht; simpl; auto.
  repeat split. by exists h, e.
Qed.

Lemma outcome_try_catch {S A} (body handler : M S A) s h
    (P : A → S → history → Prop) (E F : S → history → Prop) :
  outcome (body s h) P E →
  (∀ s' h', E s' h' → outcome (handler s' h') P F) →
  outcome (try_catch body handler s h) P F.
Proof.
  intros Hb Hh. unfold try_catch.
  destruct (body s h); simpl in *; auto.
Qed.

Lemma outcome_uninitialized_loop {St} (construct destroy : nat → M St unit)
    (I : nat → St → history → Prop) (E : St → history → Prop) n k s h :
  (∀ j s h, k ≤ j < k + n → I j s h →
     outcome (try_catch (construct j) (destroy j ;; rethrow) s h)
       (λ _ s' h', I (S j) s' h') E) →
  I k s h →
  outcome (uninitialized_loop construct destroy k n s h)
    (λ _ s' h', I (k + n) s' h') E.
Proof.
  revert k s h. induction n as [|n IH]; intros k s h Hstep HI; simpl.
  - by rewrite Nat.add_0_r.
  - eapply outcome_bind.
    + apply Hstep; [lia|done].
    + intros [] s' h' HI'. simpl in HI'.
      replace (k + S n) with (S k + n) by lia.
      apply IH; [|done]. intros j s0 h0 Hj. apply Hstep. lia.
Qed.

Lemma outcome_scope {S L A} (l : L) (body : M (S * L) A) (exit : L → M S unit) s h
    (P : A → S * L → history → Prop) (E : S * L → history → Prop)
    (Q : A → S → history → Prop) (F : S → history → Prop) :
  outcome (body (s, l) h) P E →
  (∀ a s' l' h', P a (s', l') h' →
     outcome (exit l' s' h') (λ _ s'' h'', Q a s'' h'') F) →
  (∀ s' l' h', E (s', l') h' →
     outcome (exit l' s' h') (λ _ s'' h'', F s'' h'') F) →
  outcome (scope l body exit s h) Q F.
Proof.
  intros Hb HP HE. unfold scope.
  destruct (body (s, l) h) as [a [s' l'] h'|[s' l'] h'|[s' l'] h']; simpl in *.
  - apply HP in Hb. unfold mbind, M_bind.
    destruct (exit l' s' h'); simpl in *; auto.
  - apply HE in Hb. unfold mbind, M_bind.
    destruct (exit l' s' h'); simpl in *; auto.
  - done.
Qed.

(** ** Slots *)

Lemma length_slots xs c : length xs ≤ c → length (slots xs c) = c.
Proof.
  intros. unfold slots. rewrite length_app, length_fmap, length_replicate. lia.
Qed.

Lemma insert_middle {A} (l1 l2 : list A) (x y : A) :
  <[length l1 := y]> (l1 ++ x :: l2) = l1 ++ y :: l2.
Proof.
  rewrite insert_app_r_alt by lia. by rewrite Nat.sub_diag.
Qed.

(** Histories and blocks are compared up to the bracketing of [++]. *)
Ltac reassociate :=
  repeat first [rewrite <- app_assoc | rewrite <- app_comm_cons];
  try done.

Lemma snoc_middle {A} (l1 l2 : list A) (x : A) :
  l1 ++ x :: l2 = (l1 ++ [x]) ++ l2.
Proof. by rewrite <- app_assoc. Qed.

(** [destroy_n] over a run of live slots. *)
Lemma destroy_n_live pre xs post h :
  destroy_n (length pre) (length xs) (pre ++ (Live <$> xs) ++ post) h
  = Returned tt (pre ++ replicate (length xs) Raw ++ post)
      (h ++ (Did ∘ Destroy <$> xs)).
Proof.
  revert pre h. induction xs as [|x xs IH]; intros pre h; simpl.
  - by rewrite app_nil_r.
  - unfold mbind, M_bind, destroy_at.
    rewrite list_lookup_middle by done.
    unfold call, completes. simpl.
    rewrite insert_middle, snoc_middle.
    replace (S (length pre)) with (length (pre ++ [Raw]))
      by (rewrite length_app; simpl; lia).
    rewrite IH. f_equal.
    + by rewrite <- app_assoc.
    + by rewrite <- app_assoc.
Qed.

Lemma destroy_n_prefix xs post h :
  destroy_n 0 (length xs) ((Live <$> xs) ++ post) h
  = Returned tt (replicate (length xs) Raw ++ post) (h ++ (Did ∘ Destroy <$> xs)).
Proof. apply (destroy_n_live []). Qed.

(** A destination range under construction: [ys] already built, [m] slots to
    go. *)
Lemma under_construction_lookup dpre (ys : list T) m dpost i :
  i = length dpre + length ys →
  (dpre ++ (Live <$> ys) ++ replicate (S m) Raw ++ dpost) !! i = Some Raw.
Proof.
  intros ->.
  rewrite lookup_app_r by lia.
  rewrite lookup_app_r by (rewrite length_fmap; lia).
  rewrite length_fmap.
  by replace (length dpre + length ys - length dpre - length ys) with 0 by lia.
Qed.

Lemma under_construction_insert dpre (ys : list T) m dpost z i :
  i = length dpre + length ys →
  <[i := Live z]> (dpre ++ (Live <$> ys) ++ replicate (S m) Raw ++ dpost)
  = dpre ++ (Live <$> (ys ++ [z])) ++ replicate m Raw ++ dpost.
Proof.
  intros ->.
  rewrite insert_app_r_alt by lia.
  rewrite insert_app_r_alt by (rewrite length_fmap; lia).
  rewrite length_fmap.
  replace (length dpre + length ys - length dpre - length ys) with 0 by lia.
  simpl. by rewrite fmap_app, <- app_assoc.
Qed.

Lemma under_construction_rollback dpre (ys : list T) m dpost h first k :
  first = length dpre → k = length ys →
  destroy_n first k (dpre ++ (Live <$> ys) ++ replicate m Raw ++ dpost) h
  = Returned tt (dpre ++ replicate (k + m) Raw ++ dpost)
      (h ++ (Did ∘ Destroy <$> ys)).
Proof.
  intros -> ->. rewrite destroy_n_live. by rewrite replicate_add, <- app_assoc.
Qed.

(** [std::uninitialized_value_construct_n] over raw slots: all of them are
    constructed, or none is. *)
Lemma outcome_uninitialized_value_construct_n pre n post h first :
  first = length pre →
  outcome
    (uninitialized_value_construct_n first n (pre ++ replicate n Raw ++ post) h)
    (λ _ cs' h',
       cs' = pre ++ replicate n (Live value_initialized) ++ post ∧
       h' = h ++ replicate n (Did ValueConstruct))
    (λ cs' _, cs' = pre ++ replicate n Raw ++ post ∧ raised).
Proof.
  intros ->. unfold uninitialized_value_construct_n.
  set (zs := replicate n value_initialized).
  assert (length zs = n) as Hzs by apply length_replicate.
  eapply outcome_mono.
  - apply (outcome_uninitialized_loop _ _
      (λ j cs' h',
         cs' = pre ++ (Live <$> take j zs) ++ replicate (n - j) Raw ++ post ∧
         h' = h ++ replicate j (Did ValueConstruct))
      (λ cs' _, cs' = pre ++ replicate n Raw ++ post ∧ raised)).
    + intros j cs' h' Hj (-> & ->).
      replace (n - j) with (S (n - S j)) by lia.
      eapply outcome_try_catch.
      * unfold construct_at.
        rewrite under_construction_lookup by (rewrite length_take; lia).
        eapply outcome_mono; [apply outcome_call| |intros ? ? HE; exact HE].
        cbv beta. intros [] cs'' h'' (-> & ->).
        rewrite under_construction_insert by (rewrite length_take; lia).
        split.
        -- rewrite (take_S_r zs j value_initialized); [done|].
           apply lookup_replicate_2. lia.
        -- by rewrite <- app_assoc, <- replicate_S_end.
      * intros cs'' h'' (-> & -> & _ & Hr).
        unfold mbind, M_bind.
        rewrite under_construction_rollback by (rewrite ?length_take; lia).
        simpl. split; [|done]. do 2 f_equal. f_equal. lia.
    + simpl. split; [|by rewrite app_nil_r]. by rewrite Nat.sub_0_r.
  - cbv beta. intros [] cs' h' (-> & ->).
    rewrite Nat.add_0_l, Nat.sub_diag, take_ge by lia.
    unfold zs. by rewrite fmap_replicate.
  - done.
Qed.

(** A run of live slots inside a block. *)
Lemma lookup_run pre (ys : list T) post i j y :
  i = length pre + j → ys !! j = Some y →
  (pre ++ (Live <$> ys) ++ post) !! i = Some (Live y).
Proof.
  intros -> Hy.
  rewrite lookup_app_r by lia.
  replace (length pre + j - length pre) with j by lia.
  rewrite lookup_app_l by (rewrite length_fmap; by eapply lookup_lt_Some).
  by rewrite list_lookup_fmap, Hy.
Qed.

Lemma insert_run pre (ys : list T) post i j z :
  i = length pre + j → j < length ys →
  <[i := Live z]> (pre ++ (Live <$> ys) ++ post)
  = pre ++ (Live <$> <[j := z]> ys) ++ post.
Proof.
  intros -> Hj.
  rewrite insert_app_r_alt by lia.
  replace (length pre + j - length pre) with j by lia.
  rewrite insert_app_l by (by rewrite length_fmap).
  by rewrite list_fmap_insert.
Qed.

(** Moving out of the [j]-th element of a range whose first [j] elements
    are already moved-from. *)
Lemma moved_prefix_lookup (f : T → T) (xs : list T) j x :
  xs !! j = Some x → ((f <$> take j xs) ++ drop j xs) !! j = Some x.
Proof.
  intros Hx. pose proof (lookup_lt_Some _ _ _ Hx).
  rewrite lookup_app_r by (rewrite length_fmap, length_take; lia).
  rewrite length_fmap, length_take, lookup_drop.
  by replace (j + (j - j `min` length xs)) with j by lia.
Qed.

Lemma moved_prefix_insert (f : T → T) (xs : list T) j x :
  xs !! j = Some x →
  <[j := f x]> ((f <$> take j xs) ++ drop j xs)
  = (f <$> take (S j) xs) ++ drop (S j) xs.
Proof.
  intros Hx. pose proof (lookup_lt_Some _ _ _ Hx).
  rewrite insert_app_r_alt by (rewrite length_fmap, length_take; lia).
  rewrite length_fmap, length_take.
  replace (j - j `min` length xs) with 0 by lia.
  rewrite (drop_S _ _ _ Hx). simpl.
  rewrite (take_S_r _ _ _ Hx), fmap_app. simpl.
  by rewrite <- app_assoc.
Qed.

Lemma length_moved_prefix (f : T → T) (xs : list T) j :
  length ((f <$> take j xs) ++ drop j xs) = length xs.
Proof.
  rewrite length_app, length_fmap, length_take, length_drop. lia.
Qed.

(** [std::uninitialized_copy_n] into raw slots: every element is copied, or
    the destination is raw again; the source is not touched. *)
Lemma outcome_uninitialized_copy_n spre xs spost dpre dpost h first n d_first src dst :
  first = length spre → n = length xs → d_first = length dpre →
  src = spre ++ (Live <$> xs) ++ spost →
  dst = dpre ++ replicate n Raw ++ dpost →
  outcome (uninitialized_copy_n first n d_first (src, dst) h)
    (λ _ sd h',
       sd = (src, dpre ++ (Live <$> xs) ++ dpost) ∧
       h' = h ++ (Did ∘ CopyConstruct <$> xs))
    (λ sd _, sd = (src, dst) ∧ raised).
Proof.
  intros -> -> -> -> ->. unfold uninitialized_copy_n.
  eapply outcome_mono.
  - apply (outcome_uninitialized_loop _ _
      (λ j sd h',
         sd = (spre ++ (Live <$> xs) ++ spost,
               dpre ++ (Live <$> take j xs)
                    ++ replicate (length xs - j) Raw ++ dpost) ∧
         h' = h ++ (Did ∘ CopyConstruct <$> take j xs))
      (λ sd _,
         sd = (spre ++ (Live <$> xs) ++ spost,
               dpre ++ replicate (length xs) Raw ++ dpost) ∧ raised)).
    + intros j sd h' Hj (-> & ->).
      destruct (lookup_lt_is_Some_2 xs j) as [x Hx]; [lia|].
      replace (length xs - j) with (S (length xs - S j)) by lia.
      eapply outcome_try_catch.
      * unfold copy_construct_from. cbn [fst snd].
        rewrite (lookup_run _ _ _ _ j x) by done.
        eapply outcome_mono;
          [eapply outcome_zoom; [cbn [snd]; reflexivity|]| |intros ? ? HE; exact HE].
        -- unfold construct_at.
           rewrite under_construction_lookup by (rewrite length_take; lia).
           apply outcome_call.
        -- cbv beta. intros [] sd h' (cs' & -> & -> & ->). cbn [fst snd].
           rewrite under_construction_insert by (rewrite length_take; lia).
           rewrite (take_S_r _ _ _ Hx). split; [done|].
           by rewrite fmap_app, <- app_assoc.
      * cbv beta. intros sd h' (cs' & -> & -> & -> & _ & Hr). cbn [fst snd].
        unfold mbind, M_bind, on_dst, zoom. cbn [fst snd].
        rewrite under_construction_rollback by (rewrite ?length_take; lia).
        simpl. split; [|done]. repeat f_equal. lia.
    + simpl. split; [|by rewrite app_nil_r]. by rewrite Nat.sub_0_r.
  - cbv beta. intros [] sd h' (-> & ->).
    rewrite Nat.add_0_l, Nat.sub_diag, take_ge by lia. done.
  - done.
Qed.

(** [std::uninitialized_move_n] into raw slots: every element is moved, or
    the destination is raw again and a prefix of the source is moved-from,
    which takes a move constructor that may throw. *)
Lemma outcome_uninitialized_move_n spre xs spost dpre dpost h first n d_first src dst :
  first = length spre → n = length xs → d_first = length dpre →
  src = spre ++ (Live <$> xs) ++ spost →
  dst = dpre ++ replicate n Raw ++ dpost →
  outcome (uninitialized_move_n first n d_first (src, dst) h)
    (λ _ sd h',
       sd = (spre ++ (Live <$> (moved_from <$> xs)) ++ spost,
             dpre ++ (Live <$> xs) ++ dpost) ∧
       h' = h ++ (Did ∘ MoveConstruct <$> xs))
    (λ sd _,
       (∃ j, sd = (spre ++ (Live <$> (moved_from <$> take j xs) ++ drop j xs) ++ spost,
                   dst)) ∧
       is_nothrow_move_constructible = false ∧ raised).
Proof.
  intros -> -> -> -> ->. unfold uninitialized_move_n.
  eapply outcome_mono.
  - apply (outcome_uninitialized_loop _ _
      (λ j sd h',
         sd = (spre ++ (Live <$> (moved_from <$> take j xs) ++ drop j xs) ++ spost,
               dpre ++ (Live <$> take j xs)
                    ++ replicate (length xs - j) Raw ++ dpost) ∧
         h' = h ++ (Did ∘ MoveConstruct <$> take j xs))
      (λ sd _,
         (∃ j, sd = (spre ++ (Live <$> (moved_from <$> take j xs) ++ drop j xs) ++ spost,
                     dpre ++ replicate (length xs) Raw ++ dpost)) ∧
         is_nothrow_move_constructible = false ∧ raised)).
    + intros j sd h' Hj (-> & ->).
      destruct (lookup_lt_is_Some_2 xs j) as [x Hx]; [lia|].
      replace (length xs - j) with (S (length xs - S j)) by lia.
      eapply outcome_try_catch.
      * unfold move_construct_from. cbn [fst snd].
        rewrite under_construction_lookup by (rewrite length_take; lia).
        rewrite (lookup_run _ _ _ _ j x); [|done|by apply moved_prefix_lookup].
        eapply outcome_mono; [apply outcome_call| |intros ? ? HE; exact HE].
        cbv beta. intros [] sd h' (-> & ->). cbn [fst snd].
        rewrite under_construction_insert by (rewrite length_take; lia).
        rewrite (insert_run _ _ _ _ j) by (rewrite ?length_moved_prefix; lia).
        rewrite (moved_prefix_insert _ _ _ _ Hx).
        rewrite (take_S_r _ _ _ Hx). split; [done|].
        by rewrite fmap_app, <- app_assoc.
      * cbv beta. intros sd h' (-> & -> & Hn & Hr).
        unfold mbind, M_bind, on_dst, zoom. cbn [fst snd].
        rewrite under_construction_rollback by (rewrite ?length_take; lia).
        simpl. split; [|done]. exists j. repeat f_equal. lia.
    + simpl. split; [|by rewrite app_nil_r]. by rewrite Nat.sub_0_r, drop_0.
  - cbv beta. intros [] sd h' (-> & ->).
    rewrite Nat.add_0_l, Nat.sub_diag, take_ge, drop_ge by lia.
    by rewrite app_nil_r.
  - done.
Qed.

(** ** Well-formed memory and vectors *)

Lemma cells_memory_of cs c : length cs = c → cells (memory_of cs c) = Some cs.
Proof.
  intros <-. unfold cells, memory_of. simpl.
  destruct (decide (length cs = 0)) as [Hz|]; [|done].
  by apply nil_length_inv in Hz as ->.
Qed.

Lemma set_cells_memory_of cs cs' c :
  set_cells (memory_of cs c) cs' = memory_of cs' c.
Proof.
  unfold set_cells, memory_of. simpl. by destruct (decide (c = 0)).
Qed.

Lemma replicate_split (n c : nat) :
  n ≤ c → replicate c Raw = [] ++ replicate n Raw ++ replicate (c - n) Raw.
Proof.
  intros. simpl. rewrite <- replicate_add. f_equal. lia.
Qed.

(** [RawMemory(capacity)]: a block of raw slots, unless [operator new]
    throws. *)
Lemma outcome_RawMemory_new {S} (capacity : nat) (s : S) h :
  allocatable capacity →
  outcome (RawMemory_new capacity s h)
    (λ m s' h',
       m = memory_of (replicate capacity Raw) capacity ∧ s' = s ∧
       h' = h ++ (if decide (capacity = 0) then [] else [Did (OperatorNew capacity)]))
    (λ s' _, s' = s ∧ raised).
Proof.
  intros Ha. unfold RawMemory_new, Allocate, memory_of.
  rewrite room_allocatable by done.
  destruct (decide (capacity = 0)) as [Hc|Hc].
  - rewrite decide_False by lia. simpl. by rewrite app_nil_r.
  - rewrite decide_True by done.
    unfold mbind, M_bind, call.
    destruct (completes h (OperatorNew capacity)) eqn:Hcall; simpl.
    + done.
    + split; [done|]. exists h, (OperatorNew capacity).
      unfold completes in Hcall. simpl in Hcall.
      destruct (throws h (OperatorNew capacity)); done.
Qed.

(** [~RawMemory()] on a block or a null pointer. *)
Lemma RawMemory_delete_memory_of {S} cs c (s : S) h :
  RawMemory_delete (memory_of cs c) s h = Returned tt s (h ++ [Did OperatorDelete]).
Proof.
  unfold RawMemory_delete, Deallocate, memory_of. simpl.
  by destruct (decide (c = 0)).
Qed.

Lemma vector_of_with xs c : vector_of xs c = vector_with (slots xs c) c (length xs).
Proof. done. Qed.

Lemma outcome_on_data {A} (m : M (list slot) A) cs c k h
    (P : A → list slot → history → Prop) (E : list slot → history → Prop) :
  length cs = c →
  outcome (m cs h) P E →
  outcome (on_data m (vector_with cs c k) h)
    (λ a v' h', ∃ cs', v' = vector_with cs' c k ∧ P a cs' h')
    (λ v' h', ∃ cs', v' = vector_with cs' c k ∧ E cs' h').
Proof.
  intros Hc Hm. unfold on_data.
  eapply outcome_mono.
  - eapply outcome_zoom; [|exact Hm]. by apply cells_memory_of.
  - cbv beta. intros a v' h' (cs' & -> & HP). exists cs'. split; [|done].
    unfold vector_with. simpl. by rewrite set_cells_memory_of.
  - cbv beta. intros v' h' (cs' & -> & HE). exists cs'. split; [|done].
    unfold vector_with. simpl. by rewrite set_cells_memory_of.
Qed.

Lemma outcome_on_this {A} (m : M (list slot) A) cs c k (nd : RawMemory) h
    (P : A → list slot → history → Prop) (E : list slot → history → Prop) :
  length cs = c →
  outcome (m cs h) P E →
  outcome (on_this m (vector_with cs c k, nd) h)
    (λ a vn h', ∃ cs', vn = (vector_with cs' c k, nd) ∧ P a cs' h')
    (λ vn h', ∃ cs', vn = (vector_with cs' c k, nd) ∧ E cs' h').
Proof.
  intros Hc Hm. unfold on_this.
  eapply outcome_mono.
  - eapply outcome_zoom; [done|]. by apply outcome_on_data.
  - cbv beta. intros a vn h' (v' & -> & cs' & -> & HP). by exists cs'.
  - cbv beta. intros vn h' (v' & -> & cs' & -> & HE). by exists cs'.
Qed.

Lemma outcome_on_new_data {A} (m : M (list slot) A) (v : Vector) cs n h
    (P : A → list slot → history → Prop) (E : list slot → history → Prop) :
  length cs = n →
  outcome (m cs h) P E →
  outcome (on_new_data m (v, memory_of cs n) h)
    (λ a vn h', ∃ cs', vn = (v, memory_of cs' n) ∧ P a cs' h')
    (λ vn h', ∃ cs', vn = (v, memory_of cs' n) ∧ E cs' h').
Proof.
  intros Hc Hm. unfold on_new_data.
  eapply outcome_mono.
  - eapply outcome_zoom; [|exact Hm]. by apply cells_memory_of.
  - cbv beta. intros a vn h' (cs' & -> & HP). exists cs'. split; [|done].
    simpl. by rewrite set_cells_memory_of.
  - cbv beta. intros vn h' (cs' & -> & HE). exists cs'. split; [|done].
    simpl. by rewrite set_cells_memory_of.
Qed.

Lemma outcome_to_new_data {A} (m : M (list slot * list slot) A) scs c k dcs n h
    (P : A → list slot * list slot → history → Prop)
    (E : list slot * list slot → history → Prop) :
  length scs = c → length dcs = n →
  outcome (m (scs, dcs) h) P E →
  outcome (to_new_data m (vector_with scs c k, memory_of dcs n) h)
    (λ a vn h', ∃ scs' dcs',
       vn = (vector_with scs' c k, memory_of dcs' n) ∧ P a (scs', dcs') h')
    (λ vn h', ∃ scs' dcs',
       vn = (vector_with scs' c k, memory_of dcs' n) ∧ E (scs', dcs') h').
Proof.
  intros Hc Hn Hm. unfold to_new_data.
  eapply outcome_mono.
  - eapply outcome_zoom; [|exact Hm]. simpl.
    by rewrite !cells_memory_of.
  - cbv beta. intros a vn h' ([scs' dcs'] & -> & HP). exists scs', dcs'.
    split; [|done]. unfold vector_with. simpl. by rewrite !set_cells_memory_of.
  - cbv beta. intros vn h' ([scs' dcs'] & -> & HE). exists scs', dcs'.
    split; [|done]. unfold vector_with. simpl. by rewrite !set_cells_memory_of.
Qed.

Lemma outcome_from_other {A} (m : M (list slot * list slot) A) scs d j dcs c k h
    (P : A → list slot * list slot → history → Prop)
    (E : list slot * list slot → history → Prop) :
  length scs = d → length dcs = c →
  outcome (m (scs, dcs) h) P E →
  outcome (from_other (vector_with scs d j) m (vector_with dcs c k) h)
    (λ a v' h', ∃ scs' dcs', v' = vector_with dcs' c k ∧ P a (scs', dcs') h')
    (λ v' h', ∃ scs' dcs', v' = vector_with dcs' c k ∧ E (scs', dcs') h').
Proof.
  intros Hd Hc Hm. unfold from_other.
  eapply outcome_mono.
  - eapply outcome_zoom; [|exact Hm]. simpl.
    by rewrite !cells_memory_of.
  - cbv beta. intros a v' h' ([scs' dcs'] & -> & HP). exists scs', dcs'.
    split; [|done]. unfold vector_with. simpl. by rewrite !set_cells_memory_of.
  - cbv beta. intros v' h' ([scs' dcs'] & -> & HE). exists scs', dcs'.
    split; [|done]. unfold vector_with. simpl. by rewrite !set_cells_memory_of.
Qed.

Lemma Capacity_vector_with cs c k : Capacity (vector_with cs c k) = c.
Proof. done. Qed.

Lemma size_vector_with cs c k : size_ (vector_with cs c k) = k.
Proof. done. Qed.

Lemma data_vector_with cs c k : data_ (vector_with cs c k) = memory_of cs c.
Proof. done. Qed.

Lemma swap_new_data_with cs c k ncs n h :
  swap_new_data (vector_with cs c k, memory_of ncs n) h
  = Returned tt (vector_with ncs n k, memory_of cs c) h.
Proof. done. Qed.

Lemma replicate_add_sub (k c : nat) :
  k ≤ c → replicate k Raw ++ replicate (c - k) Raw = replicate c Raw.
Proof. intros. rewrite <- replicate_add. f_equal. lia. Qed.

Lemma outcome_Reserve_grow xs c n h :
  length xs ≤ c → c < n → allocatable n →
  outcome (Reserve n (vector_of xs c) h)
    (λ _ v' h',
       v' = vector_of xs n ∧
       h' = h ++ [Did (OperatorNew n)] ++
            (if is_nothrow_move_constructible || negb is_copy_constructible then
               (Did ∘ MoveConstruct <$> xs) ++ (Did ∘ Destroy <$> (moved_from <$> xs))
             else
               (Did ∘ CopyConstruct <$> xs) ++ (Did ∘ Destroy <$> xs)) ++
            [Did OperatorDelete])
    (λ v' _,
       raised ∧
       (v' = vector_of xs c ∨
        is_nothrow_move_constructible || negb is_copy_constructible = true ∧
        is_nothrow_move_constructible = false ∧
        ∃ j, v' = vector_of ((moved_from <$> take j xs) ++ drop j xs) c)).
Proof.
  intros Hxs Hn Ha. rewrite vector_of_with. unfold Reserve.
  rewrite Capacity_vector_with, size_vector_with.
  rewrite decide_False by lia.
  eapply outcome_bind.
  { eapply outcome_mono; [by apply outcome_RawMemory_new|intros ? ? ? HP; exact HP|].
    cbv beta. intros v' _ (-> & Hr). split; [done|]. by left. }
  cbv beta. intros new_data v' h' (-> & -> & ->).
  rewrite decide_False by lia.
  set (v := vector_with (slots xs c) c (length xs)).
  set (h1 := h ++ [Did (OperatorNew n)]).
  eapply (outcome_scope _ _ _ _ _
    (λ _ vn h',
       vn = (vector_with (slots xs n) n (length xs), memory_of (replicate c Raw) c) ∧
       h' = h1 ++
            (if is_nothrow_move_constructible || negb is_copy_constructible then
               (Did ∘ MoveConstruct <$> xs) ++ (Did ∘ Destroy <$> (moved_from <$> xs))
             else
               (Did ∘ CopyConstruct <$> xs) ++ (Did ∘ Destroy <$> xs)))
    (λ vn _,
       raised ∧ (∃ cs, vn.2 = memory_of cs n) ∧
       (vn.1 = v ∨
        is_nothrow_move_constructible || negb is_copy_constructible = true ∧
        is_nothrow_move_constructible = false ∧
        ∃ j, vn.1 = vector_of ((moved_from <$> take j xs) ++ drop j xs) c))).
  - destruct (is_nothrow_move_constructible || negb is_copy_constructible) eqn:Hcond.
    + eapply outcome_bind.
      { eapply outcome_mono; [|intros ? ? ? HP; exact HP|].
        - apply outcome_to_new_data;
            [by apply length_slots|by apply length_replicate|].
          apply (outcome_uninitialized_move_n [] xs (replicate (c - length xs) Raw)
                   [] (replicate (n - length xs) Raw)); try done.
          apply replicate_split. lia.
        - cbv beta. intros vn _ (scs & dcs & -> & (j & Hj) & Hnt & Hr).
          simplify_eq. split; [done|]. split; [by eexists|]. right.
          split; [done|]. split; [done|]. exists j. simpl.
          rewrite vector_of_with. unfold slots. simpl.
          by rewrite length_moved_prefix. }
      cbv beta. intros [] vn h' (scs & dcs & -> & Heq & ->). simplify_eq.
      eapply outcome_bind.
      { eapply outcome_mono; [|intros ? ? ? HP; exact HP|].
        - apply outcome_on_this.
          + simpl. rewrite length_app, length_fmap, length_fmap, length_replicate. lia.
          + apply outcome_Returned.
            rewrite <- (length_fmap moved_from xs) at 1.
            apply (destroy_n_live []).
        - simpl. by intros ? ? (? & ? & []). }
      cbv beta. intros [] vn h' (cs' & -> & _ & -> & ->).
      rewrite swap_new_data_with. simpl. split.
      * by rewrite length_fmap, replicate_add_sub.
      * by rewrite <- !app_assoc.
    + eapply outcome_bind.
      { eapply outcome_mono; [|intros ? ? ? HP; exact HP|].
        - apply outcome_to_new_data;
            [by apply length_slots|by apply length_replicate|].
          apply (outcome_uninitialized_copy_n [] xs (replicate (c - length xs) Raw)
                   [] (replicate (n - length xs) Raw)); try done.
          apply replicate_split. lia.
        - cbv beta. intros vn _ (scs & dcs & -> & Heq & Hr).
          simplify_eq. split; [done|]. split; [by eexists|]. by left. }
      cbv beta. intros [] vn h' (scs & dcs & -> & Heq & ->). simplify_eq.
      eapply outcome_bind.
      { eapply outcome_mono; [|intros ? ? ? HP; exact HP|].
        - apply outcome_on_this.
          + by apply length_slots.
          + apply outcome_Returned. apply (destroy_n_live []).
        - simpl. by intros ? ? (? & ? & []). }
      cbv beta. intros [] vn h' (cs' & -> & _ & -> & ->).
      rewrite swap_new_data_with. simpl. split.
      * by rewrite replicate_add_sub.
      * by rewrite <- !app_assoc.
  - cbv beta. intros [] v' nd h' (Heq & ->). simplify_eq.
    rewrite RawMemory_delete_memory_of. simpl. split; [done|].
    unfold h1. by rewrite <- !app_assoc.
  - cbv beta. intros v' nd h' (Hr & (cs & Hnd) & Hv). simpl in *. subst nd.
    rewrite RawMemory_delete_memory_of. simpl. done.
Qed.

Lemma residue_app (b : bool) (ys zs : list T) :
  (if b then moved_from <$> ys else ys) ++ (if b then moved_from <$> zs else zs)
  = if b then moved_from <$> ys ++ zs else ys ++ zs.
Proof. destruct b; by rewrite ?fmap_app. Qed.

Lemma length_residue (b : bool) (ys : list T) :
  length (if b then moved_from <$> ys else ys) = length ys.
Proof. destruct b; by rewrite ?length_fmap. Qed.

Lemma outcome_relocate_n b spre ys spost dpre dpost c k n h first cnt d_first src dst :
  first = length spre → cnt = length ys → d_first = length dpre →
  src = spre ++ (Live <$> ys) ++ spost →
  dst = dpre ++ replicate cnt Raw ++ dpost →
  length src = c → length dst = n →
  outcome (relocate_n b first cnt d_first (vector_with src c k, memory_of dst n) h)
    (λ _ vn h',
       vn = (vector_with
               (spre ++ (Live <$> (if b then moved_from <$> ys else ys)) ++ spost) c k,
             memory_of (dpre ++ (Live <$> ys) ++ dpost) n) ∧
       h' = h ++ (Did ∘ (if b then MoveConstruct else CopyConstruct) <$> ys))
    (λ vn _,
       raised ∧ (∃ cs, vn.2 = memory_of cs n) ∧
       (b = false → vn.1 = vector_with src c k)).
Proof.
  intros Hf Hc Hd Hsrc Hdst Hls Hld. destruct b; unfold relocate_n.
  - eapply outcome_mono.
    + apply outcome_to_new_data; [done..|].
      by apply (outcome_uninitialized_move_n spre ys spost dpre dpost).
    + cbv beta. intros [] vn h' (scs & dcs & -> & Heq & ->). by simplify_eq.
    + cbv beta. intros vn _ (scs & dcs & -> & _ & _ & Hr).
      split; [done|]. split; [by eexists|done].
  - eapply outcome_mono.
    + apply outcome_to_new_data; [done..|].
      by apply (outcome_uninitialized_copy_n spre ys spost dpre dpost).
    + cbv beta. intros [] vn h' (scs & dcs & -> & Heq & ->). by simplify_eq.
    + cbv beta. intros vn _ (scs & dcs & -> & Heq & Hr). simplify_eq.
      split; [done|]. split; [by eexists|done].
Qed.

Lemma EmplaceWithRelocation_unfold pos i v :
  int_position pos → (Z.of_nat (size_ v) * 2 < 2 ^ 64)%Z →
  EmplaceWithRelocation pos i v
  = (new_data ← RawMemory_new (if decide (size_ v = 0) then 1 else size_ v * 2);
     scope new_data
       (on_new_data (construct_at (event_of i) (value_of i) pos) ;;
        (relocate_n (is_nothrow_move_constructible || negb is_copy_constructible)
           0 pos 0 ;;
         relocate_n (is_nothrow_move_constructible || negb is_copy_constructible)
           pos (size_ v - pos) (pos + 1)) ;;
        on_this (destroy_n 0 (size_ v)) ;;
        swap_new_data)
       RawMemory_delete) v.
Proof.
  intros Hp Hk. unfold EmplaceWithRelocation, relocate_n.
  rewrite pointer_add_position by done.
  rewrite !to_size_t_small by lia.
  replace (Z.to_nat (Z.of_nat (size_ v) * 2)) with (size_ v * 2) by lia.
  by destruct (is_nothrow_move_constructible || negb is_copy_constructible).
Qed.

Lemma allocatable_grown k : allocatable (grown k) → (Z.of_nat k * 2 < 2 ^ 64)%Z.
Proof.
  intros Ha%allocatable_size_t. unfold grown in Ha. destruct (decide (k = 0)); lia.
Qed.

Lemma grown_gt k : k < grown k.
Proof. unfold grown. destruct (decide (k = 0)); lia. Qed.

Lemma outcome_EmplaceWithRelocation xs1 xs2 c i h :
  length (xs1 ++ xs2) ≤ c →
  int_position (length xs1) → allocatable (grown (length (xs1 ++ xs2))) →
  let by_move := is_nothrow_move_constructible || negb is_copy_constructible in
  let n := grown (length (xs1 ++ xs2)) in
  outcome (EmplaceWithRelocation (length xs1) i (vector_of (xs1 ++ xs2) c) h)
    (λ _ v' h',
       v' = vector_with (slots (xs1 ++ value_of i :: xs2) n) n (length (xs1 ++ xs2)) ∧
       h' = h ++ [Did (OperatorNew n); Did (event_of i)] ++
            (Did ∘ (if by_move then MoveConstruct else CopyConstruct) <$> xs1 ++ xs2) ++
            (Did ∘ Destroy <$> (if by_move then moved_from <$> xs1 ++ xs2 else xs1 ++ xs2)) ++
            [Did OperatorDelete])
    (λ v' _, raised ∧ (by_move = false → v' = vector_of (xs1 ++ xs2) c)).
Proof.
  intros Hc Hp Ha by_move n.
  rewrite EmplaceWithRelocation_unfold; [|done|by apply allocatable_grown].
  fold by_move. rewrite vector_of_with, size_vector_with. fold (grown (length (xs1 ++ xs2))).
  fold n. pose proof (grown_gt (length (xs1 ++ xs2))) as Hn. fold n in Hn.
  rewrite length_app in Hn, Hc.
  set (k := length (xs1 ++ xs2)).
  assert (k = length xs1 + length xs2) as Hk by apply length_app.
  eapply outcome_bind.
  { eapply outcome_mono; [by apply outcome_RawMemory_new|intros ? ? ? HP; exact HP|].
    cbv beta. by intros v' _ (-> & Hr). }
  cbv beta. intros new_data v' h' (-> & -> & ->).
  rewrite decide_False by lia.
  set (v := vector_with (slots (xs1 ++ xs2) c) c k).
  eapply (outcome_scope _ _ _ _ _
    (λ _ vn h',
       vn = (vector_with (slots (xs1 ++ value_of i :: xs2) n) n k,
             memory_of (replicate c Raw) c) ∧
       h' = (h ++ [Did (OperatorNew n)]) ++ [Did (event_of i)] ++
            (Did ∘ (if by_move then MoveConstruct else CopyConstruct) <$> xs1 ++ xs2) ++
            (Did ∘ Destroy <$> (if by_move then moved_from <$> xs1 ++ xs2 else xs1 ++ xs2)))
    (λ vn _,
       raised ∧ (∃ cs, vn.2 = memory_of cs n) ∧ (by_move = false → vn.1 = v))).
  - (* the new element *)
    eapply outcome_bind.
    { eapply outcome_mono; [|intros ? ? ? HP; exact HP|].
      - apply outcome_on_new_data; [by apply length_replicate|].
        unfold construct_at. rewrite lookup_replicate_2 by lia.
        apply outcome_call.
      - cbv beta. intros vn _ (cs & -> & -> & _ & _ & Hr).
        split; [done|]. simpl. split; [by eexists|done]. }
    cbv beta. intros [] vn h' (cs & -> & -> & ->).
    rewrite insert_replicate_lt by lia.
    (* the elements before and after it *)
    eapply outcome_bind.
    { eapply outcome_bind.
      - eapply outcome_mono; [|intros ? ? ? HP; exact HP|].
        + apply (outcome_relocate_n by_move [] xs1
                   ((Live <$> xs2) ++ replicate (c - k) Raw)
                   [] (Live (value_of i) :: replicate (n - S (length xs1)) Raw));
            try done.
          * unfold slots. by rewrite fmap_app, <- app_assoc.
          * apply length_slots. lia.
          * simpl. rewrite length_app, !length_replicate. simpl.
            rewrite length_replicate. lia.
        + cbv beta. intros vn _ (Hr & Hnd & Hv). done.
      - cbv beta. intros [] vn h' (-> & ->).
        eapply outcome_mono; [|intros ? ? ? HP; exact HP|].
        + apply (outcome_relocate_n by_move
                   (Live <$> (if by_move then moved_from <$> xs1 else xs1)) xs2
                   (replicate (c - k) Raw)
                   ((Live <$> xs1) ++ [Live (value_of i)])
                   (replicate (n - S k) Raw)).
          * by rewrite length_fmap, length_residue.
          * lia.
          * rewrite length_app, length_fmap. simpl. lia.
          * done.
          * simpl. rewrite <- app_assoc. simpl. do 2 f_equal.
            rewrite <- replicate_add. f_equal. lia.
          * rewrite !length_app, !length_fmap, length_replicate, length_residue.
            simpl. lia.
          * simpl. rewrite !length_app, !length_fmap, ?length_replicate. simpl.
            rewrite ?length_app, ?length_fmap, ?length_replicate. simpl. lia.
        + cbv beta. intros vn _ (Hr & Hnd & Hv). split; [done|]. split; [done|].
          intros Hb. rewrite (Hv Hb). unfold v, slots.
          rewrite Hb. by rewrite fmap_app, <- app_assoc. }
    cbv beta. intros [] vn h' (-> & ->).
    rewrite (app_assoc (Live <$> _)), <- fmap_app, residue_app.
    eapply outcome_bind.
    { eapply outcome_mono; [|intros ? ? ? HP; exact HP|].
      - apply outcome_on_this.
        + rewrite length_app, length_fmap, length_residue, length_replicate. lia.
        + apply outcome_Returned.
          replace k with (length (if by_move then moved_from <$> xs1 ++ xs2 else xs1 ++ xs2))
            at 1 by apply length_residue.
          apply (destroy_n_live []).
      - simpl. by intros ? ? (? & ? & []). }
    cbv beta. intros [] vn h' (cs' & -> & _ & -> & ->).
    rewrite swap_new_data_with. simpl. split.
    + do 2 f_equal.
      * unfold slots. rewrite fmap_app, <- !app_assoc. simpl.
        replace (length (xs1 ++ value_of i :: xs2)) with (S k); [done|].
        rewrite length_app. simpl. lia.
      * rewrite length_residue. apply replicate_add_sub. lia.
    + rewrite (fmap_app (Did ∘ _) xs1 xs2), <- !app_assoc. done.
  - cbv beta. intros [] v' nd h' (Heq & ->). simplify_eq.
    rewrite RawMemory_delete_memory_of. simpl. split; [done|].
    reassociate.
  - cbv beta. intros v' nd h' (Hr & (cs & Hnd) & Hv). simpl in *. subst nd.
    rewrite RawMemory_delete_memory_of. simpl. done.
Qed.

(** ** Insertion in place *)

Lemma vacated_snoc y xs x : vacated y (xs ++ [x]) = vacated (moved_from x) xs.
Proof. by destruct xs. Qed.

Lemma lookup_second {A} (pre : list A) a b post :
  (pre ++ a :: b :: post) !! S (length pre) = Some b.
Proof.
  rewrite lookup_app_r by lia.
  by replace (S (length pre) - length pre) with 1 by lia.
Qed.

Lemma insert_second {A} (pre : list A) a b b' post :
  <[S (length pre) := b']> (pre ++ a :: b :: post) = pre ++ a :: b' :: post.
Proof.
  rewrite insert_app_r_alt by lia.
  by replace (S (length pre) - length pre) with 1 by lia.
Qed.

Lemma move_assign_at_adjacent pre (x y : T) post d s h :
  s = length pre → d = S s →
  outcome (move_assign_at d s (pre ++ Live x :: Live y :: post) h)
    (λ _ cs' h',
       cs' = pre ++ Live (moved_from x) :: Live x :: post ∧
       h' = h ++ [Did (MoveAssign y x)])
    (λ _ _, raised).
Proof.
  intros -> ->. unfold move_assign_at.
  rewrite lookup_second, list_lookup_middle by done.
  eapply outcome_mono; [apply outcome_call| |].
  - cbv beta. intros [] cs' h' (-> & ->). split; [|done].
    by rewrite insert_middle, insert_second.
  - cbv beta. by intros ? ? (_ & _ & _ & ?).
Qed.

Lemma outcome_move_backward_loop xs : ∀ pre y post h last d_last,
  last = length pre + length xs → d_last = S last →
  outcome
    (move_backward_loop last d_last (length xs)
       (pre ++ (Live <$> xs) ++ Live y :: post) h)
    (λ _ cs' _, cs' = pre ++ Live (vacated y xs) :: (Live <$> xs) ++ post)
    (λ _ _, raised).
Proof.
  induction xs as [|x xs IH] using rev_ind; intros pre y post h last d_last -> ->.
  - done.
  - rewrite length_app. simpl. rewrite Nat.add_1_r. simpl.
    rewrite Nat.sub_0_r.
    replace (length pre + S (length xs) - 1) with (length pre + length xs) by lia.
    eapply outcome_bind.
    + rewrite fmap_app, <- app_assoc, app_assoc. simpl.
      apply move_assign_at_adjacent;
        rewrite ?length_app, ?length_fmap; lia.
    + cbv beta. intros [] cs' h' (-> & ->).
      rewrite <- app_assoc.
      eapply outcome_mono; [by apply IH| |done].
      cbv beta. intros [] cs' _ ->.
      rewrite vacated_snoc, fmap_app. reassociate.
Qed.

(** [std::move_backward(first, last, d_last)] shifting a run by one slot. *)
Lemma outcome_move_backward pre xs y post h first last d_last :
  first = length pre → last = length pre + length xs → d_last = S last →
  outcome
    (move_backward first last d_last (pre ++ (Live <$> xs) ++ Live y :: post) h)
    (λ _ cs' _, cs' = pre ++ Live (vacated y xs) :: (Live <$> xs) ++ post)
    (λ _ _, raised).
Proof.
  intros -> -> ->. unfold move_backward.
  rewrite decide_True by lia.
  replace (length pre + length xs - length pre) with (length xs) by lia.
  by apply outcome_move_backward_loop.
Qed.

Lemma outcome_on_vector_data {A} (m : M (list slot) A) cs c k (x : T) h
    (P : A → list slot → history → Prop) (E : list slot → history → Prop) :
  length cs = c →
  outcome (m cs h) P E →
  outcome (on_vector (on_data m) (vector_with cs c k, x) h)
    (λ a vx h', ∃ cs', vx = (vector_with cs' c k, x) ∧ P a cs' h')
    (λ vx h', ∃ cs', vx = (vector_with cs' c k, x) ∧ E cs' h').
Proof.
  intros Hc Hm. unfold on_vector.
  eapply outcome_mono.
  - eapply outcome_zoom; [done|]. by apply outcome_on_data.
  - cbv beta. intros a vn h' (v' & -> & cs' & -> & HP). by exists cs'.
  - cbv beta. intros vn h' (v' & -> & cs' & -> & HE). by exists cs'.
Qed.

Lemma outcome_assign_local_to_data pre (y : T) post c k (x : T) d h :
  d = length pre → length (pre ++ Live y :: post) = c →
  outcome (assign_local_to_data d (vector_with (pre ++ Live y :: post) c k, x) h)
    (λ _ vx h',
       vx = (vector_with (pre ++ Live x :: post) c k, moved_from x) ∧
       h' = h ++ [Did (MoveAssign y x)])
    (λ _ _, raised).
Proof.
  intros -> Hc. unfold assign_local_to_data.
  eapply outcome_mono.
  - eapply outcome_zoom.
    + simpl. by rewrite cells_memory_of.
    + unfold move_assign_from_local. cbn [fst snd].
      rewrite list_lookup_middle by done. apply outcome_call.
  - cbv beta. intros [] vx h' (cx & -> & -> & ->). cbn [fst snd].
    split; [|done]. unfold vector_with. simpl.
    by rewrite set_cells_memory_of, insert_middle.
  - cbv beta. by intros ? ? (? & _ & _ & _ & _ & ?).
Qed.

Lemma move_construct_at_end pre (z : T) n h d s :
  s = length pre → d = S s →
  outcome (move_construct_at d s (pre ++ Live z :: replicate (S n) Raw) h)
    (λ _ cs' h',
       cs' = pre ++ Live (moved_from z) :: Live z :: replicate n Raw ∧
       h' = h ++ [Did (MoveConstruct z)])
    (λ _ _, raised).
Proof.
  intros -> ->. unfold move_construct_at. simpl.
  rewrite lookup_second, list_lookup_middle by done.
  eapply outcome_mono; [apply outcome_call| |].
  - cbv beta. intros [] cs' h' (-> & ->). split; [|done].
    by rewrite insert_middle, insert_second.
  - cbv beta. by intros ? ? (_ & _ & _ & ?).
Qed.

Lemma slots_lookup_end xs c i :
  i = length xs → length xs < c → slots xs c !! i = Some Raw.
Proof.
  intros -> Hc. unfold slots.
  replace (c - length xs) with (S (c - S (length xs))) by lia.
  pose proof (under_construction_lookup [] xs (c - S (length xs)) []
                (length xs) eq_refl) as H.
  by rewrite !app_nil_l, !app_nil_r in H.
Qed.

Lemma slots_insert_end xs c x i :
  i = length xs → length xs < c →
  <[i := Live x]> (slots xs c) = slots (xs ++ [x]) c.
Proof.
  intros -> Hc. unfold slots.
  replace (c - length xs) with (S (c - S (length xs))) by lia.
  pose proof (under_construction_insert [] xs (c - S (length xs)) [] x
                (length xs) eq_refl) as H.
  rewrite !app_nil_l, !app_nil_r in H. rewrite H.
  rewrite length_app. simpl. do 2 f_equal. lia.
Qed.

(** The [try] block of the in-place path: the value is inserted, or some
    element operation has thrown. *)
Lemma outcome_EmplaceWithoutRelocation_try xs1 xs2 c i h :
  length (xs1 ++ xs2) < c → int_position (length xs1) →
  outcome (EmplaceWithoutRelocation_try (length xs1) i (vector_of (xs1 ++ xs2) c) h)
    (λ _ v' _,
       v' = vector_with (slots (xs1 ++ value_of i :: xs2) c) c (length (xs1 ++ xs2)))
    (λ _ _, raised).
Proof.
  intros Hc Hp. rewrite vector_of_with.
  rewrite EmplaceWithoutRelocation_try_position by done.
  rewrite size_vector_with.
  set (k := length (xs1 ++ xs2)). fold k in Hc.
  assert (k = length xs1 + length xs2) as Hk by apply length_app.
  destruct xs2 as [|z xs2 _] using rev_ind.
  - (* at the end *)
    simpl in Hk. rewrite decide_False by lia.
    eapply outcome_mono.
    + apply outcome_on_data; [apply length_slots; fold k; lia|].
      unfold construct_at.
      rewrite slots_lookup_end by (fold k; lia).
      apply outcome_call.
    + cbv beta. intros [] v' h' (cs' & -> & -> & ->). f_equal.
      rewrite slots_insert_end by (fold k; lia).
      by rewrite app_nil_r.
    + cbv beta. by intros ? ? (? & _ & _ & _ & _ & ?).
  - (* before the end *)
    rewrite length_app in Hk. simpl in Hk.
    rewrite decide_True by lia.
    eapply outcome_bind.
    { unfold construct_local. eapply outcome_bind.
      - eapply outcome_mono; [apply outcome_call|intros ? ? ? HP; exact HP|].
        cbv beta. by intros ? ? (_ & _ & _ & ?).
      - cbv beta. intros [] v' h' (-> & ->). apply outcome_ret.
        instantiate (1 := λ a v' _, a = value_of i ∧
          v' = vector_with (slots (xs1 ++ xs2 ++ [z]) c) c k). done. }
    cbv beta. intros value v0 h0 (-> & ->).
    eapply (outcome_scope _ _ _ _ _
      (λ _ vx _,
         vx.1 = vector_with (slots (xs1 ++ value_of i :: xs2 ++ [z]) c) c k)
      (λ _ _, raised)).
    + eapply outcome_bind.
      { eapply outcome_mono; [|intros ? ? ? HP; exact HP|].
        - apply outcome_on_vector_data; [apply length_slots; fold k; lia|].
          unfold slots. fold k.
          replace (c - k) with (S (c - S k)) by lia.
          rewrite !fmap_app, <- !app_assoc, (app_assoc (Live <$> xs1)). simpl.
          apply move_construct_at_end; rewrite ?length_app, ?length_fmap; lia.
        - cbv beta. by intros ? ? (? & _ & ?). }
      cbv beta. intros [] vx1 h1 (cs1 & -> & -> & ->).
      eapply outcome_bind.
      { eapply outcome_mono; [|intros ? ? ? HP; exact HP|].
        - apply outcome_on_vector_data.
          + rewrite !length_app, !length_fmap. simpl. rewrite length_replicate. lia.
          + rewrite <- app_assoc.
            apply (outcome_move_backward (Live <$> xs1) xs2);
              rewrite ?length_fmap; lia.
        - cbv beta. by intros ? ? (? & _ & ?). }
      cbv beta. intros [] vx2 h2 (cs2 & -> & ->).
      eapply outcome_mono.
      * apply outcome_assign_local_to_data; [by rewrite length_fmap|].
        rewrite !length_app, !length_fmap. simpl.
        rewrite length_app, length_fmap. simpl. rewrite length_replicate. lia.
      * cbv beta. intros [] vx3 h3 (-> & ->). cbn [fst]. f_equal.
        unfold slots. rewrite !fmap_app. simpl. rewrite !fmap_app. simpl.
        reassociate. simpl. do 4 f_equal.
        rewrite !length_app. simpl. rewrite length_app. simpl. f_equal. lia.
      * done.
    + cbv beta. intros [] v4 x h4 Hv. simpl in Hv. subst v4.
      unfold destroy_local.
      eapply outcome_mono; [apply outcome_call| |].
      * by intros [] ? ? (-> & _).
      * cbv beta. by intros ? ? (_ & _ & _ & ?).
    + cbv beta. intros v5 x h5 Hr. unfold destroy_local.
      eapply outcome_mono; [apply outcome_call| |]; by intros.
Qed.

(** ** Reading a vector *)

Lemma subscript_vector_of xs c index :
  length xs ≤ c → subscript index (vector_of xs c) = xs !! index.
Proof.
  intros Hc. unfold subscript. rewrite vector_of_with, size_vector_with, data_vector_with.
  rewrite cells_memory_of by by apply length_slots.
  destruct (decide (index < length xs)) as [Hi|Hi]; simpl.
  - destruct (lookup_lt_is_Some_2 xs index Hi) as [x Hx].
    unfold slots.
    rewrite lookup_app_l by by rewrite length_fmap.
    by rewrite list_lookup_fmap, Hx.
  - symmetry. apply lookup_ge_None. lia.
Qed.

Lemma omap_lookup_seq {A} (xs : list A) : ∀ pre,
  omap (λ index, (pre ++ xs) !! index) (seq (length pre) (length xs)) = xs.
Proof.
  induction xs as [|x xs IH]; intros pre; simpl; [done|].
  rewrite list_lookup_middle by done. f_equal.
  rewrite snoc_middle.
  replace (S (length pre)) with (length (pre ++ [x]))
    by (rewrite length_app; simpl; lia).
  apply IH.
Qed.

(** A traversal of [vector_of xs c] visits [xs]. *)
Lemma elements_vector_of xs c : length xs ≤ c → elements (vector_of xs c) = xs.
Proof.
  intros Hc. unfold elements.
  replace (size_ (vector_of xs c)) with (length xs) by done.
  etrans; [|apply (omap_lookup_seq xs [])].
  apply list_omap_ext, Forall2_same_length_lookup.
  split; [done|]. intros j a b Ha Hb. simpl in Hb.
  rewrite Ha in Hb. simplify_eq. by rewrite subscript_vector_of.
Qed.

Lemma returns_or_raised_outcome {S A} (r : result S A) (P : A → S → history → Prop) :
  outcome r P (λ _ _, raised) → returns_or_raised r P.
Proof. by destruct r. Qed.

Lemma returns_or_raised_try_catch {S A} (body handler : M S A) s h
    (P : A → S → history → Prop) :
  (∀ s' h' a s'' h'', handler s' h' ≠ Returned a s'' h'') →
  outcome (body s h) P (λ _ _, raised) →
  returns_or_raised (try_catch body handler s h) P.
Proof.
  intros Hh. unfold try_catch. destruct (body s h) as [| s' h' |]; simpl; [done| |done].
  intros Hr. specialize (Hh s' h'). destruct (handler s' h'); [|done..].
  by edestruct Hh.
Qed.

(** The handler of [EmplaceWithoutRelocation] rethrows. *)
Lemma EmplaceWithoutRelocation_catch_rethrows v h a v' h' :
  EmplaceWithoutRelocation_catch v h ≠ Returned a v' h'.
Proof.
  unfold EmplaceWithoutRelocation_catch, mbind, M_bind.
  by destruct (zoom _ _ _ v h).
Qed.

Lemma returns_or_raised_bind {S A B} (m : M S A) (f : A → M S B) s h
    (P : A → S → history → Prop) (Q : B → S → history → Prop) :
  returns_or_raised (m s h) P →
  (∀ a s' h', P a s' h' → returns_or_raised (f a s' h') Q) →
  returns_or_raised ((m ≫= f) s h) Q.
Proof.
  intros Hm Hf. unfold mbind, M_bind.
  destruct (m s h); simpl in *; auto.
Qed.

(** [Emplace] on a well-formed vector, at a valid position. *)
Lemma returns_or_raised_Emplace xs1 xs2 c i h :
  length (xs1 ++ xs2) ≤ c →
  int_position (length xs1) →
  (¬ length (xs1 ++ xs2) < c → allocatable (grown (length (xs1 ++ xs2)))) →
  returns_or_raised (Emplace (length xs1) i (vector_of (xs1 ++ xs2) c) h)
    (λ p v' _,
       p = length xs1 ∧
       v' = vector_of (xs1 ++ value_of i :: xs2)
              (if decide (length (xs1 ++ xs2) < c) then c
               else grown (length (xs1 ++ xs2)))).
Proof.
  intros Hc Hp Ha. rewrite Emplace_position by done.
  replace (size_ (vector_of (xs1 ++ xs2) c)) with (length (xs1 ++ xs2)) by done.
  replace (Capacity (vector_of (xs1 ++ xs2) c)) with c by done.
  rewrite decide_True by (rewrite length_app; lia).
  assert (length (xs1 ++ value_of i :: xs2) = length (xs1 ++ xs2) + 1) as Hlen
    by (rewrite !length_app; simpl; lia).
  destruct (decide (length (xs1 ++ xs2) < c)) as [Hlt|Hge].
  - eapply returns_or_raised_bind.
    + apply returns_or_raised_try_catch.
      * apply EmplaceWithoutRelocation_catch_rethrows.
      * by apply outcome_EmplaceWithoutRelocation_try.
    + cbv beta. intros [] v' h' ->. simpl. split; [done|].
      rewrite vector_of_with. unfold vector_with. by rewrite Hlen.
  - eapply returns_or_raised_bind.
    + apply returns_or_raised_outcome.
      eapply outcome_mono; [apply outcome_EmplaceWithRelocation; auto| |].
      * intros ? ? ? HP; exact HP.
      * cbv beta. by intros ? ? (? & _).
    + cbv beta. intros [] v' h' (-> & _). simpl. split; [done|].
      rewrite vector_of_with. unfold vector_with. by rewrite Hlen.
Qed.

(** ** Removal *)

Lemma move_assign_at_forward pre (x y : T) post d s h :
  d = length pre → s = S d →
  outcome (move_assign_at d s (pre ++ Live y :: Live x :: post) h)
    (λ _ cs' h',
       cs' = pre ++ Live x :: Live (moved_from x) :: post ∧
       h' = h ++ [Did (MoveAssign y x)])
    (λ _ _, raised).
Proof.
  intros -> ->. unfold move_assign_at.
  rewrite lookup_second, list_lookup_middle by done.
  eapply outcome_mono; [apply outcome_call| |].
  - cbv beta. intros [] cs' h' (-> & ->). split; [|done].
    by rewrite insert_second, insert_middle.
  - cbv beta. by intros ? ? (_ & _ & _ & ?).
Qed.

Lemma outcome_move_loop xs : ∀ pre y post h first d_first,
  d_first = length pre → first = S d_first →
  outcome
    (move_loop first d_first (length xs)
       (pre ++ Live y :: (Live <$> xs) ++ post) h)
    (λ _ cs' h',
       cs' = pre ++ (Live <$> xs) ++ Live (left_behind y xs) :: post ∧
       h' = h ++ shift_events y xs)
    (λ _ _, raised).
Proof.
  induction xs as [|x xs IH]; intros pre y post h first d_first -> ->; simpl.
  - by rewrite app_nil_r.
  - eapply outcome_bind.
    + by apply move_assign_at_forward.
    + cbv beta. intros [] cs1 h1 (-> & ->).
      rewrite (snoc_middle pre).
      eapply outcome_mono.
      * apply IH; rewrite ?length_app; simpl; lia.
      * cbv beta. intros [] cs2 h2 (-> & ->). split; reassociate.
      * done.
Qed.

Lemma outcome_Erase xs1 z xs2 c h :
  length (xs1 ++ z :: xs2) ≤ c → int_position (length xs1) →
  outcome (Erase (length xs1) (vector_of (xs1 ++ z :: xs2) c) h)
    (λ p v' h',
       p = length xs1 ∧
       v' = vector_of (xs1 ++ xs2) c ∧
       h' = h ++ shift_events z xs2 ++ [Did (Destroy (left_behind z xs2))])
    (λ _ _, raised).
Proof.
  intros Hc Hp. rewrite vector_of_with, Erase_position by done.
  rewrite size_vector_with.
  set (k := length (xs1 ++ z :: xs2)). fold k in Hc.
  assert (k = length xs1 + S (length xs2)) as Hk by apply length_app.
  rewrite decide_True by lia.
  eapply outcome_bind.
  { eapply outcome_mono; [|intros ? ? ? HP; exact HP|].
    - apply outcome_on_data; [by apply length_slots|].
      unfold std_move. rewrite decide_True by lia.
      replace (k - (length xs1 + 1)) with (length xs2) by lia.
      unfold slots. rewrite fmap_app. simpl. rewrite <- !app_assoc. simpl.
      apply outcome_move_loop; rewrite ?length_fmap; lia.
    - cbv beta. by intros ? ? (? & _ & ?). }
  cbv beta. intros [] v1 h1 (cs1 & -> & -> & ->).
  eapply outcome_bind.
  { eapply outcome_mono; [|intros ? ? ? HP; exact HP|].
    - apply outcome_on_data.
      + rewrite !length_app, !length_fmap. simpl. rewrite length_replicate. fold k. lia.
      + unfold destroy_at.
        rewrite app_assoc, list_lookup_middle
          by (rewrite length_app, !length_fmap; lia).
        apply outcome_call.
    - cbv beta. by intros ? ? (? & _ & _ & _ & _ & ?). }
  cbv beta. intros [] v2 h2 (cs2 & -> & -> & ->).
  simpl. split; [done|]. split; [|reassociate].
  rewrite vector_of_with. unfold vector_with. f_equal.
  - f_equal.
    replace (k - 1) with (length ((Live <$> xs1) ++ (Live <$> xs2)))
      by (rewrite length_app, !length_fmap; lia).
    rewrite insert_middle. unfold slots.
    rewrite fmap_app, <- !app_assoc. do 2 f_equal.
    fold k.
    replace (c - length (xs1 ++ xs2)) with (S (c - k)); [done|].
    rewrite length_app. lia.
  - rewrite length_app. lia.
Qed.

(** [PopBack] *)
Lemma PopBack_empty c h :
  PopBack (vector_of [] c) h = Returned tt (vector_of [] c) h.
Proof. done. Qed.

Lemma PopBack_nonempty xs x c h :
  length (xs ++ [x]) ≤ c →
  PopBack (vector_of (xs ++ [x]) c) h
  = Returned tt (vector_of xs c) (h ++ [Did (Destroy x)]).
Proof.
  intros Hc. rewrite length_app in Hc. simpl in Hc.
  unfold PopBack. rewrite vector_of_with, size_vector_with.
  rewrite length_app. simpl.
  rewrite decide_True by lia.
  unfold mbind, M_bind, on_data, zoom. rewrite data_vector_with.
  rewrite cells_memory_of by (apply length_slots; rewrite length_app; simpl; lia).
  unfold destroy_at, slots.
  rewrite fmap_app, <- app_assoc. simpl.
  replace (length xs + 1 - 1) with (length (Live <$> xs))
    by (rewrite length_fmap; lia).
  rewrite list_lookup_middle by done.
  unfold call, completes. simpl.
  rewrite insert_middle, set_cells_memory_of.
  unfold decrement_size, set_size. simpl. f_equal.
  rewrite vector_of_with. unfold vector_with, slots. f_equal.
  - f_equal. f_equal.
    change (Raw :: replicate (c - length (xs ++ [x])) Raw)
      with (replicate (S (c - length (xs ++ [x]))) Raw).
    f_equal. rewrite length_app. simpl. lia.
  - lia.
Qed.

(** ** Resize *)

Lemma Resize_shrink xs c n h :
  length xs ≤ c → n < length xs →
  Resize n (vector_of xs c) h
  = Returned tt (vector_of (take n xs) c) (h ++ (Did ∘ Destroy <$> drop n xs)).
Proof.
  intros Hc Hn. unfold Resize. rewrite vector_of_with, size_vector_with.
  rewrite decide_True by done.
  unfold mbind, M_bind, on_data, zoom. rewrite data_vector_with.
  rewrite cells_memory_of by by apply length_slots.
  unfold slots.
  rewrite <- (take_drop n xs) at 2. rewrite fmap_app, <- app_assoc.
  replace n with (length (Live <$> take n xs)) at 1
    by (rewrite length_fmap, length_take; lia).
  replace (length xs - n) with (length (drop n xs))
    by (rewrite length_drop; lia).
  rewrite destroy_n_live. unfold set_size. simpl. f_equal.
  rewrite set_cells_memory_of, vector_of_with. unfold vector_with, slots. f_equal.
  - f_equal. f_equal. rewrite <- replicate_add. f_equal.
    rewrite length_drop, length_take. lia.
  - rewrite length_take. lia.
Qed.

Lemma outcome_Resize_grow xs c n h :
  length xs ≤ c → length xs ≤ n →
  (c < n → allocatable ((c * 2) `max` n)) →
  outcome (Resize n (vector_of xs c) h)
    (λ _ v' h',
       v' = vector_of (xs ++ replicate (n - length xs) value_initialized)
              (if decide (c < n) then (c * 2) `max` n else c) ∧
       ∃ t, h' = h ++ t ++ replicate (n - length xs) (Did ValueConstruct) ∧
            (¬ c < n → t = []))
    (λ _ _, raised).
Proof.
  intros Hc Hn Ha. unfold Resize.
  replace (size_ (vector_of xs c)) with (length xs) by done.
  replace (Capacity (vector_of xs c)) with c by done.
  rewrite decide_False by lia.
  set (c' := if decide (c < n) then (c * 2) `max` n else c).
  assert (n ≤ c') as Hc' by (unfold c'; destruct (decide (c < n)); lia).
  eapply outcome_bind.
  { eapply outcome_bind.
    - instantiate (1 := λ _ v' h',
        v' = vector_of xs c' ∧ ∃ t, h' = h ++ t ∧ (¬ c < n → t = [])).
      unfold c'. destruct (decide (c < n)) as [Hlt|Hge].
      + pose proof (allocatable_size_t _ (Ha Hlt)).
        rewrite to_size_t_small by lia.
        replace (Z.to_nat (Z.of_nat c * 2)) with (c * 2) by lia.
        eapply outcome_mono; [apply outcome_Reserve_grow; auto; lia| |].
        * cbv beta. intros [] v' h' (-> & ->). split; [done|].
          eexists. split; [done|]. intros; lia.
        * cbv beta. by intros ? ? (? & _).
      + unfold skip. simpl. split; [done|]. exists []. by rewrite app_nil_r.
    - cbv beta. intros [] v1 h1 (-> & t & -> & Ht).
      instantiate (1 := λ _ v' h',
        v' = vector_with (slots (xs ++ replicate (n - length xs) value_initialized) c')
               c' (length xs) ∧
        ∃ t, h' = h ++ t ++ replicate (n - length xs) (Did ValueConstruct) ∧
             (¬ c < n → t = [])).
      eapply outcome_mono.
      + rewrite vector_of_with.
        apply outcome_on_data; [apply length_slots; lia|].
        unfold slots.
        replace (c' - length xs) with ((n - length xs) + (c' - n)) by lia.
        rewrite replicate_add.
        apply outcome_uninitialized_value_construct_n. by rewrite length_fmap.
      + cbv beta. intros [] v2 h2 (cs & -> & -> & ->). split.
        * f_equal. unfold slots.
          rewrite fmap_app, fmap_replicate, <- app_assoc. do 3 f_equal.
          rewrite length_app, length_replicate. lia.
        * exists t. split; [reassociate|done].
      + cbv beta. by intros ? ? (? & _ & _ & ?). }
  cbv beta. intros [] v3 h3 (-> & Ht). unfold set_size. simpl.
  split; [|done]. rewrite vector_of_with. unfold vector_with. f_equal.
  rewrite length_app, length_replicate. lia.
Qed.

(** ** Copy assignment *)

Lemma copy_assign_from_middle spre (x : T) spost dpre (y : T) dpost d s h :
  s = length spre → d = length dpre →
  outcome
    (copy_assign_from d s (spre ++ Live x :: spost, dpre ++ Live y :: dpost) h)
    (λ _ sd h',
       sd = (spre ++ Live x :: spost, dpre ++ Live x :: dpost) ∧
       h' = h ++ [Did (CopyAssign y x)])
    (λ _ _, raised).
Proof.
  intros -> ->. unfold copy_assign_from. cbn [fst snd].
  rewrite !list_lookup_middle by done.
  eapply outcome_mono; [apply outcome_call| |].
  - cbv beta. intros [] sd h' (-> & ->). cbn [fst snd].
    by rewrite insert_middle.
  - cbv beta. by intros ? ? (_ & _ & _ & ?).
Qed.

(** [std::copy_n] over live slots. *)
Lemma outcome_copy_n xs : ∀ ys spre spost dpre dpost h first d_first,
  length ys = length xs →
  first = length spre → d_first = length dpre →
  outcome
    (copy_n first (length xs) d_first
       (spre ++ (Live <$> xs) ++ spost, dpre ++ (Live <$> ys) ++ dpost) h)
    (λ _ sd h',
       sd = (spre ++ (Live <$> xs) ++ spost, dpre ++ (Live <$> xs) ++ dpost) ∧
       h' = h ++ assign_events ys xs)
    (λ _ _, raised).
Proof.
  induction xs as [|x xs IH];
    intros [|y ys] spre spost dpre dpost h first d_first Hlen -> ->;
    simplify_eq/=.
  - by rewrite app_nil_r.
  - eapply outcome_bind.
    + by apply copy_assign_from_middle.
    + cbv beta. intros [] sd1 h1 (-> & ->).
      rewrite (snoc_middle spre), (snoc_middle dpre).
      eapply outcome_mono.
      * apply IH; [done|rewrite length_app; simpl; lia..].
      * cbv beta. intros [] sd2 h2 (-> & ->).
        unfold assign_events. simpl. split; reassociate.
      * done.
Qed.

(** [Vector(const Vector&)]: a vector with the elements of [other] in a
    block of just their number, or nothing. *)
Lemma outcome_Vector_copy {S} ys d (s : S) h :
  length ys ≤ d → allocatable (length ys) →
  outcome (Vector_copy (vector_of ys d) s h)
    (λ v' s' h',
       v' = vector_of ys (length ys) ∧ s' = s ∧
       h' = h ++ (if decide (length ys = 0) then [] else [Did (OperatorNew (length ys))])
              ++ (Did ∘ CopyConstruct <$> ys))
    (λ s' _, s' = s ∧ raised).
Proof.
  intros Hd Ha. unfold Vector_copy.
  replace (size_ (vector_of ys d)) with (length ys) by done.
  eapply outcome_bind.
  { eapply outcome_mono;
      [by apply outcome_RawMemory_new|intros ? ? ? HP; exact HP|done]. }
  cbv beta. intros data s1 h1 (-> & -> & ->).
  unfold constructing.
  pose proof (outcome_from_other
    (uninitialized_copy_n 0 (length ys) 0)
    (slots ys d) d (length ys) (replicate (length ys) Raw) (length ys) (length ys)
    (h ++ (if decide (length ys = 0) then [] else [Did (OperatorNew (length ys))]))
    _ _ (length_slots _ _ Hd) (length_replicate _ _)
    (outcome_uninitialized_copy_n [] ys (replicate (d - length ys) Raw) [] []
       _ 0 (length ys) 0 _ _ eq_refl eq_refl eq_refl eq_refl
       (eq_sym (app_nil_r _)))) as Hcopy.
  fold (vector_with (replicate (length ys) Raw) (length ys) (length ys)).
  rewrite <- vector_of_with in Hcopy.
  destruct (from_other _ _ _ _) as [[] v' h'|v' h'|v' h']; simpl in Hcopy.
  - destruct Hcopy as (scs & dcs & -> & Heq & ->). simplify_eq. simpl.
    split; [|by rewrite <- app_assoc]. rewrite vector_of_with. unfold slots.
    by rewrite Nat.sub_diag.
  - destruct Hcopy as (scs & dcs & -> & Heq & Hr). simplify_eq.
    unfold mbind, M_bind. rewrite data_vector_with, RawMemory_delete_memory_of.
    done.
  - done.
Qed.

(** [~Vector()] *)
Lemma Vector_delete_vector_of {S} xs c (s : S) h :
  length xs ≤ c →
  Vector_delete (vector_of xs c) s h
  = Returned tt s (h ++ (Did ∘ Destroy <$> xs) ++ [Did OperatorDelete]).
Proof.
  intros Hc. unfold Vector_delete.
  replace (size_ (vector_of xs c)) with (length xs) by done.
  rewrite vector_of_with. unfold on_data, zoom.
  rewrite data_vector_with, cells_memory_of by by apply length_slots.
  unfold slots. rewrite destroy_n_prefix. simpl.
  rewrite set_cells_memory_of, RawMemory_delete_memory_of.
  by rewrite <- app_assoc.
Qed.

Lemma outcome_copy_n_slots xs ys spost dpost h n :
  n = length xs → length ys = length xs →
  outcome
    (copy_n 0 n 0 ((Live <$> xs) ++ spost, (Live <$> ys) ++ dpost) h)
    (λ _ sd h',
       sd = ((Live <$> xs) ++ spost, (Live <$> xs) ++ dpost) ∧
       h' = h ++ assign_events ys xs)
    (λ _ _, raised).
Proof.
  intros -> Hlen. by apply (outcome_copy_n xs ys [] spost [] dpost).
Qed.

Lemma slots_take_drop xs c m :
  slots xs c = (Live <$> take m xs) ++ (Live <$> drop m xs) ++ replicate (c - length xs) Raw.
Proof.
  unfold slots. by rewrite app_assoc, <- fmap_app, take_drop.
Qed.

(** [operator=] when the right-hand side fits the capacity: assign over the
    common prefix, then destroy or copy-construct the rest, in place. *)
Lemma outcome_copy_assign_fits xs c ys d h :
  length xs ≤ c → length ys ≤ d → length ys ≤ c →
  let m := length xs `min` length ys in
  outcome (copy_assign (other_vector (vector_of ys d)) (vector_of xs c) h)
    (λ _ v' h',
       v' = vector_of ys c ∧
       h' = h ++ assign_events (take m xs) (take m ys) ++
            (if decide (length ys < length xs)
             then Did ∘ Destroy <$> drop (length ys) xs
             else Did ∘ CopyConstruct <$> drop (length xs) ys))
    (λ _ _, raised).
Proof.
  intros Hc Hd Hfit m. unfold copy_assign.
  replace (size_ (vector_of xs c)) with (length xs) by done.
  replace (size_ (vector_of ys d)) with (length ys) by done.
  replace (Capacity (vector_of xs c)) with c by done.
  rewrite decide_True by done. fold m.
  eapply outcome_bind.
  { eapply outcome_mono; [|intros ? ? ? HP; exact HP|].
    - rewrite !vector_of_with.
      rewrite (slots_take_drop xs c m), (slots_take_drop ys d m).
      apply outcome_from_other.
      + rewrite <- slots_take_drop. by apply length_slots.
      + rewrite <- slots_take_drop. by apply length_slots.
      + apply outcome_copy_n_slots; rewrite !length_take; lia.
    - cbv beta. by intros ? ? (? & ? & _ & ?). }
  cbv beta. intros [] v1 h1 (scs & dcs & -> & Heq & ->). simplify_eq.
  assert (length ((Live <$> take m ys) ++ (Live <$> drop m xs)
                    ++ replicate (c - length xs) Raw) = c) as Hlen1.
  { rewrite !length_app, !length_fmap, length_take, length_drop, length_replicate. lia. }
  eapply outcome_bind.
  { instantiate (1 := λ _ v' h',
      v' = vector_with (slots ys c) c (length xs) ∧
      h' = (h ++ assign_events (take m xs) (take m ys)) ++
           (if decide (length ys < length xs)
            then Did ∘ Destroy <$> drop (length ys) xs
            else Did ∘ CopyConstruct <$> drop (length xs) ys)).
    destruct (decide (length ys < length xs)) as [Hlt|Hge].
    - (* shrinking: destroy the tail *)
      assert (m = length ys) as Hm by lia.
      rewrite Hm in Hlen1 |- *. rewrite (take_ge ys) in Hlen1 |- * by lia.
      eapply outcome_mono.
      + apply outcome_on_data; [done|].
        apply outcome_Returned.
        replace (length ys) with (length (Live <$> ys)) at 1 by apply length_fmap.
        replace (length xs - length ys) with (length (drop (length ys) xs))
          by (rewrite length_drop; lia).
        apply destroy_n_live.
      + cbv beta. intros [] v2 h2 (cs & -> & _ & -> & ->). split; [|done].
        f_equal. unfold slots. f_equal.
        rewrite <- replicate_add. f_equal. rewrite length_drop. lia.
      + cbv beta. by intros ? ? (? & _ & []).
    - destruct (decide (length xs < length ys)) as [Hlt|Hge'].
      + (* growing: copy-construct the tail *)
        assert (m = length xs) as Hm by lia.
        rewrite Hm, drop_ge, app_nil_l by lia.
        eapply outcome_mono.
        * rewrite vector_of_with, (slots_take_drop ys d (length xs)).
          apply outcome_from_other.
          -- rewrite <- slots_take_drop. by apply length_slots.
          -- rewrite length_app, length_fmap, length_take, length_replicate. lia.
          -- apply (outcome_uninitialized_copy_n
                      (Live <$> take (length xs) ys) (drop (length xs) ys)
                      (replicate (d - length ys) Raw)
                      (Live <$> take (length xs) ys) (replicate (c - length ys) Raw));
               rewrite ?length_fmap, ?length_take, ?length_drop; try done; try lia.
             f_equal. rewrite <- replicate_add. f_equal. lia.
        * cbv beta. intros [] v2 h2 (scs & dcs & -> & Heq & ->). simplify_eq.
          split; [|done]. f_equal. by rewrite (slots_take_drop ys c (length xs)).
        * cbv beta. by intros ? ? (? & ? & _ & _ & ?).
      + (* equal sizes *)
        assert (length xs = length ys) as Heq by lia.
        unfold skip. simpl. split.
        * f_equal. unfold slots, m.
          rewrite <- Heq, Nat.min_id, take_ge, drop_ge by lia. by rewrite Heq.
        * by rewrite drop_ge, app_nil_r by lia. }
  cbv beta. intros [] v3 h3 (-> & ->). unfold set_size. simpl.
  split; [done|reassociate].
Qed.

(** [Swap] exchanges the two vectors. *)
Lemma Swap_swaps v other : Swap v other = (other, v).
Proof. by destruct v as [[]], other as [[]]. Qed.

(** [operator=] when the right-hand side exceeds the capacity: copy and swap;
    a copy that throws leaves [*this] as it was. *)
Lemma outcome_copy_assign_grows xs c ys d h :
  length xs ≤ c → length ys ≤ d → c < length ys → allocatable (length ys) →
  outcome (copy_assign (other_vector (vector_of ys d)) (vector_of xs c) h)
    (λ _ v' h',
       v' = vector_of ys (length ys) ∧
       h' = h ++ [Did (OperatorNew (length ys))] ++ (Did ∘ CopyConstruct <$> ys) ++
            (Did ∘ Destroy <$> xs) ++ [Did OperatorDelete])
    (λ v' _, v' = vector_of xs c ∧ raised).
Proof.
  intros Hc Hd Hgrow Ha. unfold copy_assign.
  replace (size_ (vector_of ys d)) with (length ys) by done.
  replace (Capacity (vector_of xs c)) with c by done.
  rewrite decide_False by lia.
  eapply outcome_bind.
  { eapply outcome_mono;
      [by apply outcome_Vector_copy|intros ? ? ? HP; exact HP|done]. }
  cbv beta. intros rhs_copy v1 h1 (-> & -> & ->).
  rewrite decide_False by lia.
  unfold scope. cbn [fst snd]. rewrite Swap_swaps.
  unfold mbind, M_bind.
  rewrite Vector_delete_vector_of by done. simpl.
  split; [done|reassociate].
Qed.

(** ** The invariant [size_ <= capacity_]

    The invariant is about the two counters only, so it is proved for every
    vector that satisfies it, whatever its block holds, and for every
    outcome, the state in which undefined behaviour is met included. *)

Lemma settles_mono {S A} (r : result S A) (P P' : A → S → Prop) (E E' : S → Prop) :
  settles r P E → (∀ a s, P a s → P' a s) → (∀ s, E s → E' s) → settles r P' E'.
Proof. destruct r; simpl; auto. Qed.

Lemma settles_bind {S A B} (m : M S A) (f : A → M S B) s h
    (P : A → S → Prop) (Q : B → S → Prop) (E : S → Prop) :
  settles (m s h) P E →
  (∀ a s' h', P a s' → settles (f a s' h') Q E) →
  settles ((m ≫= f) s h) Q E.
Proof.
  intros Hm Hf. unfold mbind, M_bind. destruct (m s h); simpl in *; auto.
Qed.

Lemma settles_zoom {S S' A} (get : S' → option S) (put : S' → S → S')
    (m : M S A) s h (Q : S' → Prop) :
  Q s → (∀ p, Q (put s p)) →
  settles (zoom get put m s h) (λ _, Q) Q.
Proof.
  intros Hs Hput. unfold zoom. destruct (get s) as [p|]; [|done].
  destruct (m p h); simpl; auto.
Qed.

Lemma settles_zoom_part {S S' A} (get : S' → option S) (put : S' → S → S')
    (m : M S A) s h (R : S → Prop) (Q : S' → Prop) :
  Q s →
  (∀ p, get s = Some p → settles (m p h) (λ _, R) R) →
  (∀ p, R p → Q (put s p)) →
  settles (zoom get put m s h) (λ _, Q) Q.
Proof.
  intros Hs Hm Hput. unfold zoom. destruct (get s) as [p|]; [|done].
  specialize (Hm p eq_refl). destruct (m p h); simpl in *; auto.
Qed.

Lemma settles_call {S} (e : event) (upd : S → S) s h (Q : S → Prop) :
  Q s → Q (upd s) → settles (call e upd s h) (λ _, Q) Q.
Proof. intros. unfold call. by destruct (completes h e). Qed.

Lemma settles_scope {S L A} (l : L) (body : M (S * L) A) (exit : L → M S unit) s h
    (P : A → S * L → Prop) (E : S * L → Prop) (Q : A → S → Prop) (F : S → Prop) :
  settles (body (s, l) h) P E →
  (∀ a s' l' h', P a (s', l') → settles (exit l' s' h') (λ _, Q a) F) →
  (∀ s' l' h', E (s', l') → settles (exit l' s' h') (λ _, F) F) →
  (∀ s' l', E (s', l') → F s') →
  settles (scope l body exit s h) Q F.
Proof.
  intros Hb HP HE HF. unfold scope.
  destruct (body (s, l) h) as [a [s' l'] h'|[s' l'] h'|[s' l'] h']; simpl in *.
  - specialize (HP _ _ _ h' Hb). unfold mbind, M_bind.
    destruct (exit l' s' h'); simpl in *; auto.
  - specialize (HE _ _ h' Hb). unfold mbind, M_bind.
    destruct (exit l' s' h'); simpl in *; auto.
  - by eapply HF.
Qed.

Lemma capacity_set_cells m cs : capacity_ (set_cells m cs) = capacity_ m.
Proof. unfold set_cells. by destruct (buffer_ m). Qed.

(** Algorithms on the slots leave the counters alone. *)
Lemma every_state_on_data {A} (m : M (list slot) A) v h sc :
  counters v = sc →
  every_state (on_data m v h) (λ v', counters v' = sc).
Proof.
  intros <-. apply settles_zoom; [done|].
  intros cs. unfold counters, Capacity, RawMemory_Capacity. simpl.
  by rewrite capacity_set_cells.
Qed.

Lemma every_state_from_other {A} other (m : M (list slot * list slot) A) v h sc :
  counters v = sc →
  every_state (from_other other m v h) (λ v', counters v' = sc).
Proof.
  intros <-. apply settles_zoom; [done|].
  intros cs. unfold counters, Capacity, RawMemory_Capacity. simpl.
  by rewrite capacity_set_cells.
Qed.

Lemma every_state_to_new_data {A} (m : M (list slot * list slot) A) vn h scn :
  counters_with vn = scn →
  every_state (to_new_data m vn h) (λ vn', counters_with vn' = scn).
Proof.
  intros <-. apply settles_zoom; [done|].
  intros cs. unfold counters_with, counters, Capacity, RawMemory_Capacity. simpl.
  by rewrite !capacity_set_cells.
Qed.

Lemma every_state_on_new_data {A} (m : M (list slot) A) vn h scn :
  counters_with vn = scn →
  every_state (on_new_data m vn h) (λ vn', counters_with vn' = scn).
Proof.
  intros <-. apply settles_zoom; [done|].
  intros cs. unfold counters_with, counters, Capacity, RawMemory_Capacity. simpl.
  by rewrite !capacity_set_cells.
Qed.

Lemma every_state_on_this {A} (m : M (list slot) A) vn h scn :
  counters_with vn = scn →
  every_state (on_this m vn h) (λ vn', counters_with vn' = scn).
Proof.
  intros <-. unfold on_this, zoom. simpl.
  pose proof (every_state_on_data m vn.1 h _ eq_refl) as Hd.
  destruct (on_data m vn.1 h); simpl in *;
    unfold counters_with; simpl; by rewrite Hd.
Qed.

Lemma settles_RawMemory_new {S} capacity (s : S) h :
  settles (RawMemory_new capacity s h)
    (λ m s', capacity_ m = capacity ∧ s' = s) (λ s', s' = s).
Proof.
  unfold RawMemory_new, Allocate.
  destruct (decide (capacity ≠ 0)); [|done].
  unfold mbind, M_bind, call. by destruct (completes _ _).
Qed.

Lemma every_state_RawMemory_delete {S} m (s : S) h :
  every_state (RawMemory_delete m s h) (λ s', s' = s).
Proof.
  unfold RawMemory_delete, Deallocate.
  destruct (buffer_ m); try done; unfold call; by destruct (completes _ _).
Qed.

(** The relocating tail shared by [Reserve] and [EmplaceWithRelocation]:
    relocate, destroy the old elements, swap the blocks. *)
Lemma settles_relocating_scope {A} (prologue : M (Vector * RawMemory) A)
    (relocation : M (Vector * RawMemory) unit) k new_data v h :
  capacity_ new_data = k →
  (∀ vn h scn, counters_with vn = scn →
     every_state (prologue vn h) (λ vn', counters_with vn' = scn)) →
  (∀ vn h scn, counters_with vn = scn →
     every_state (relocation vn h) (λ vn', counters_with vn' = scn)) →
  settles
    (scope new_data
       (prologue ;; relocation ;; on_this (destroy_n 0 (size_ v)) ;; swap_new_data)
       RawMemory_delete v h)
    (λ _ v', size_ v' = size_ v ∧ Capacity v' = k)
    (λ v', size_ v' = size_ v ∧ (Capacity v' = Capacity v ∨ Capacity v' = k)).
Proof.
  intros Hk Hpro Hrel.
  eapply (settles_scope _ _ _ _ _
    (λ _ vn, size_ vn.1 = size_ v ∧ Capacity vn.1 = k)
    (λ vn, counters_with vn = (counters v, k))).
  - eapply settles_bind.
    { apply Hpro. unfold counters_with. simpl. by rewrite Hk. }
    cbv beta. intros _ vn1 h1 H1.
    eapply settles_bind; [by apply Hrel|].
    cbv beta. intros _ vn2 h2 H2.
    eapply settles_bind; [by apply every_state_on_this|].
    cbv beta. intros _ [v3 n3] h3 H3.
    unfold swap_new_data, RawMemory_Swap. simpl.
    unfold counters_with, counters, Capacity, RawMemory_Capacity in H3.
    simpl in H3. by simplify_eq.
  - cbv beta. intros _ v' nd h' [Hs Hc]. simpl in *.
    eapply settles_mono; [apply every_state_RawMemory_delete| |]; cbv beta.
    + by intros _ ? ->.
    + intros ? ->. eauto.
  - cbv beta. intros v' nd h' Hvn.
    unfold counters_with, counters in Hvn. simpl in Hvn. simplify_eq.
    eapply settles_mono; [apply every_state_RawMemory_delete| |]; cbv beta.
    + intros _ ? ->. eauto.
    + intros ? ->. eauto.
  - cbv beta. intros v' nd Hvn.
    unfold counters_with, counters in Hvn. simpl in Hvn. simplify_eq. eauto.
Qed.

Lemma settles_Reserve n v h :
  settles (Reserve n v h)
    (λ _ v', size_ v' = size_ v ∧ Capacity v' = Capacity v `max` n)
    (λ v', size_ v' = size_ v ∧ Capacity v ≤ Capacity v').
Proof.
  unfold Reserve. destruct (decide (n ≤ Capacity v)) as [Hle|Hgt].
  - simpl. split; [done|lia].
  - eapply settles_bind.
    { eapply settles_mono;
        [apply settles_RawMemory_new|intros ? ? HP; exact HP|by intros ? ->]. }
    cbv beta. intros new_data v' h' [Hn ->].
    eapply settles_mono.
    + apply (settles_relocating_scope skip
               (if is_nothrow_move_constructible || negb is_copy_constructible
                then to_new_data (uninitialized_move_n 0 (size_ v) 0)
                else to_new_data (uninitialized_copy_n 0 (size_ v) 0))
               n new_data v h' Hn).
      * by intros vn h0 scn <-.
      * intros vn h0 scn Hscn.
        destruct (is_nothrow_move_constructible || negb is_copy_constructible);
          by apply every_state_to_new_data.
    + cbv beta. intros _ v'' [? ?]. split; [done|lia].
    + cbv beta. intros v'' [? [?|?]]; split; try done; lia.
Qed.

(** *** Room in the new block

    A relocation that returns has found a raw slot for every element it
    constructs, so the block has at least that many slots, however many
    [operator new] was asked for. *)

Lemma settles_zoom_full {S S' A} (get : S' → option S) (put : S' → S → S')
    (m : M S A) s h (P : A → S → Prop) (E : S → Prop) (Q : A → S' → Prop) (F : S' → Prop) :
  F s →
  (∀ p, get s = Some p → settles (m p h) P E) →
  (∀ a p p', get s = Some p → P a p' → Q a (put s p')) →
  (∀ p p', get s = Some p → E p' → F (put s p')) →
  settles (zoom get put m s h) Q F.
Proof.
  intros Hs Hm HP HE. unfold zoom. destruct (get s) as [p|] eqn:Hget; [|done].
  specialize (Hm p eq_refl). destruct (m p h); simpl in *; eauto.
Qed.

Lemma settles_uninitialized_loop {St} (construct destroy : nat → M St unit)
    (Q : St → Prop) (B : nat → Prop) n : ∀ k s h,
  (∀ j s h, Q s → settles (construct j s h) (λ _ s', Q s' ∧ B j) Q) →
  (∀ j s h, Q s → every_state (destroy j s h) Q) →
  Q s →
  settles (uninitialized_loop construct destroy k n s h)
    (λ _ s', Q s' ∧ ∀ j, k ≤ j < k + n → B j) Q.
Proof.
  induction n as [|n IH]; intros k s h Hc Hd HQ; simpl.
  - split; [done|]. intros; lia.
  - eapply settles_bind.
    + instantiate (1 := λ _ s', Q s' ∧ B k).
      unfold try_catch. specialize (Hc k s h HQ).
      destruct (construct k s h) as [a s1 h1|s1 h1|s1 h1]; simpl in *; [done| |done].
      specialize (Hd k s1 h1 Hc). unfold mbind, M_bind, every_state in *.
      by destruct (destroy k s1 h1).
    + cbv beta. intros _ s' h' [HQ' HB].
      eapply settles_mono; [by apply IH| |done].
      cbv beta. intros _ s'' [? HB']. split; [done|].
      intros j Hj. destruct (decide (j = k)) as [->|]; [done|]. apply HB'. lia.
Qed.

Lemma settles_construct_at e x p cs h :
  settles (construct_at e x p cs h)
    (λ _ cs', length cs' = length cs ∧ p < length cs)
    (λ cs', cs' = cs).
Proof.
  unfold construct_at. destruct (cs !! p) as [[]|] eqn:Hp; try done.
  apply lookup_lt_Some in Hp. unfold call.
  destruct (completes _ _); simpl; by rewrite ?length_insert.
Qed.

Lemma every_state_destroy_n n : ∀ first cs h,
  every_state (destroy_n first n cs h) (λ cs', length cs' = length cs).
Proof.
  induction n as [|n IH]; intros first cs h; simpl; [done|].
  eapply (settles_bind _ _ _ _ (λ _ cs', length cs' = length cs)).
  - unfold destroy_at. destruct (cs !! first) as [[]|]; try done.
    unfold call. destruct (completes _ _); simpl; by rewrite ?length_insert.
  - cbv beta. intros _ cs' h' Hl.
    eapply settles_mono; [apply IH| |]; cbv beta; intros; congruence.
Qed.

(** A relocation of [n] slots to [d_first]: the destination keeps its
    length, a relocation by copy leaves the source alone, and a relocation
    that returns has found [n] slots from [d_first] on. *)
Lemma settles_uninitialized_n (b : bool) first n d_first src dst h :
  settles
    ((if b then uninitialized_move_n first n d_first
      else uninitialized_copy_n first n d_first) (src, dst) h)
    (λ _ sd', length sd'.2 = length dst ∧ (b = false → sd'.1 = src) ∧
              (n ≠ 0 → d_first + n ≤ length dst))
    (λ sd', length sd'.2 = length dst ∧ (b = false → sd'.1 = src)).
Proof.
  set (Q := λ sd' : list slot * list slot,
              length sd'.2 = length dst ∧ (b = false → sd'.1 = src)).
  assert (∀ k sd0 h0, Q sd0 → every_state (on_dst (destroy_n d_first k) sd0 h0) Q) as Hd.
  { intros k sd0 h0 [Hl Hs]. unfold on_dst.
    eapply (settles_zoom_full _ _ _ _ _ (λ _ cs', length cs' = length sd0.2)
              (λ cs', length cs' = length sd0.2)).
    - done.
    - intros p [= <-]. apply every_state_destroy_n.
    - intros _ p p' _ Hp. split; simpl; [congruence|done].
    - intros p p' _ Hp. split; simpl; [congruence|done]. }
  eapply settles_mono.
  - instantiate (1 := Q).
    instantiate (1 := λ _ sd', Q sd' ∧ ∀ j, 0 ≤ j < 0 + n → d_first + j < length dst).
    destruct b; unfold uninitialized_move_n, uninitialized_copy_n;
      apply settles_uninitialized_loop; try done.
    + intros j sd0 h0 [Hl Hs]. unfold move_construct_from.
      destruct (sd0.2 !! (d_first + j)) as [[]|] eqn:Hj; try done.
      destruct (sd0.1 !! (first + j)) as [[]|]; try done.
      apply lookup_lt_Some in Hj. unfold call.
      destruct (completes _ _); simpl; [|done].
      unfold Q. simpl. rewrite length_insert. repeat split; try done; lia.
    + intros j sd0 h0 [Hl Hs]. unfold copy_construct_from.
      destruct (sd0.1 !! (first + j)) as [[]|]; try done.
      unfold on_dst.
      eapply (settles_zoom_full _ _ _ _ _
                (λ _ cs', length cs' = length sd0.2 ∧ d_first + j < length sd0.2)
                (λ cs', cs' = sd0.2)).
      * done.
      * intros p [= <-]. apply settles_construct_at.
      * intros _ p p' _ [Hp Hlt]. unfold Q. repeat split; simpl; [congruence|done|lia].
      * intros p p' _ ->. by destruct sd0.
  - cbv beta. intros _ sd' [[Hl Hs] Hb]. repeat split; [done..|].
    intros Hn. specialize (Hb (n - 1)). lia.
  - done.
Qed.

Lemma set_cells_cells m cs : cells m = Some cs → set_cells m cs = m.
Proof.
  unfold cells, set_cells. destruct m as [[] ?]; simpl; intros; by simplify_eq.
Qed.

Lemma block_length_set_cells m cs cs' :
  cells m = Some cs → length cs' = length cs →
  block_length (set_cells m cs') = block_length m.
Proof.
  unfold block_length, cells, set_cells.
  destruct m as [[] ?]; simpl; intros; by simplify_eq.
Qed.

Lemma settles_relocate_n b first n d_first vn h :
  settles (relocate_n b first n d_first vn h)
    (λ _ vn',
       counters_with vn' = counters_with vn ∧ block_length vn'.2 = block_length vn.2 ∧
       (b = false → vn'.1 = vn.1) ∧ (n ≠ 0 → d_first + n ≤ block_length vn.2))
    (λ vn',
       counters_with vn' = counters_with vn ∧ block_length vn'.2 = block_length vn.2 ∧
       (b = false → vn'.1 = vn.1)).
Proof.
  assert (relocate_n b first n d_first
          = to_new_data (if b then uninitialized_move_n first n d_first
                         else uninitialized_copy_n first n d_first)) as ->
    by (by destruct b).
  unfold to_new_data.
  eapply (settles_zoom_full _ _ _ _ _
    (λ _ sd', ∃ src dst, cells (data_ vn.1) = Some src ∧ cells vn.2 = Some dst ∧
                length sd'.2 = length dst ∧ (b = false → sd'.1 = src) ∧
                (n ≠ 0 → d_first + n ≤ length dst))
    (λ sd', ∃ src dst, cells (data_ vn.1) = Some src ∧ cells vn.2 = Some dst ∧
              length sd'.2 = length dst ∧ (b = false → sd'.1 = src))).
  - done.
  - intros [src dst] Hget.
    destruct (cells (data_ vn.1)) as [src'|] eqn:Hsrc; [|done].
    destruct (cells vn.2) as [dst'|] eqn:Hdst; [|done]. simplify_eq/=.
    eapply settles_mono; [apply settles_uninitialized_n| |]; cbv beta.
    + intros _ sd' (? & ? & ?). by exists src, dst.
    + intros sd' (? & ?). by exists src, dst.
  - intros _ p [s' d'] _ (src & dst & Hsrc & Hdst & Hl & Hs & Hn). simpl in *.
    split; [|split; [|split]].
    + unfold counters_with, counters, Capacity, RawMemory_Capacity. simpl.
      by rewrite !capacity_set_cells.
    + by apply (block_length_set_cells _ dst).
    + intros Hb. rewrite (Hs Hb), set_cells_cells by done. by destruct vn as [[] ?].
    + intros Hn'. unfold block_length. rewrite Hdst. simpl. auto.
  - intros p [s' d'] _ (src & dst & Hsrc & Hdst & Hl & Hs). simpl in *.
    split; [|split].
    + unfold counters_with, counters, Capacity, RawMemory_Capacity. simpl.
      by rewrite !capacity_set_cells.
    + by apply (block_length_set_cells _ dst).
    + intros Hb. rewrite (Hs Hb), set_cells_cells by done. by destruct vn as [[] ?].
Qed.

Lemma settles_on_new_data_construct_at e x d vn h :
  settles (on_new_data (construct_at e x d) vn h)
    (λ _ vn',
       counters_with vn' = counters_with vn ∧ block_length vn'.2 = block_length vn.2 ∧
       vn'.1 = vn.1 ∧ d < block_length vn.2)
    (λ vn',
       counters_with vn' = counters_with vn ∧ block_length vn'.2 = block_length vn.2 ∧
       vn'.1 = vn.1).
Proof.
  unfold on_new_data.
  eapply (settles_zoom_full _ _ _ _ _
    (λ _ cs', ∃ cs, cells vn.2 = Some cs ∧ length cs' = length cs ∧ d < length cs)
    (λ cs', ∃ cs, cells vn.2 = Some cs ∧ cs' = cs)).
  - done.
  - intros cs Hcs. eapply settles_mono; [apply settles_construct_at| |]; cbv beta.
    + intros _ cs' [? ?]. by exists cs.
    + intros cs' ->. by exists cs.
  - intros _ p cs' _ (cs & Hcs & Hl & Hd). simpl.
    split; [|split; [|split]]; [| |done|].
    + unfold counters_with. simpl. by rewrite capacity_set_cells.
    + by apply (block_length_set_cells _ cs).
    + unfold block_length. by rewrite Hcs.
  - intros p cs' _ (cs & Hcs & ->). simpl.
    rewrite set_cells_cells by done. by destruct vn.
Qed.

Lemma settles_RawMemory_new_room {S} capacity (s : S) h :
  settles (RawMemory_new capacity s h)
    (λ m s', capacity_ m = capacity ∧ block_length m ≤ capacity ∧ s' = s)
    (λ s', s' = s).
Proof.
  unfold RawMemory_new, Allocate.
  destruct (decide (capacity ≠ 0)); [|simpl; unfold block_length; simpl; repeat split; lia].
  unfold mbind, M_bind, call. destruct (completes _ _); [|done]. simpl.
  repeat split. unfold block_length. simpl. rewrite length_replicate. apply room_le.
Qed.

Lemma settles_pointer_add {S} position (s : S) h :
  settles (pointer_add position s h)
    (λ d s', s' = s ∧ (0 ≤ position)%Z ∧ d = Z.to_nat position)
    (λ s', s' = s).
Proof. unfold pointer_add. by destruct (decide _). Qed.

Lemma EmplaceWithRelocation_relocate_n pos i v :
  EmplaceWithRelocation pos i v
  = (new_data ← RawMemory_new
                  (if decide (size_ v = 0) then 1 else to_size_t (Z.of_nat (size_ v) * 2));
     scope new_data
       (d ← pointer_add (to_int (Z.of_nat pos));
        on_new_data (construct_at (event_of i) (value_of i) d) ;;
        (relocate_n (is_nothrow_move_constructible || negb is_copy_constructible)
           0 d 0 ;;
         relocate_n (is_nothrow_move_constructible || negb is_copy_constructible)
           d (size_ v - d) (d + 1)) ;;
        on_this (destroy_n 0 (size_ v)) ;;
        swap_new_data)
       RawMemory_delete) v.
Proof.
  unfold EmplaceWithRelocation, relocate_n.
  by destruct (is_nothrow_move_constructible || negb is_copy_constructible).
Qed.

(** The two relocations of [EmplaceWithRelocation], around the slot [d] of
    the new element: the counters are untouched, and on return the new
    block has a slot for every element and one more. *)
Lemma settles_relocation_around b d k vn h :
  settles
    ((relocate_n b 0 d 0 ;; relocate_n b d (k - d) (d + 1)) vn h)
    (λ _ vn',
       counters_with vn' = counters_with vn ∧ (b = false → vn'.1 = vn.1) ∧
       (d < block_length vn.2 → k < block_length vn.2))
    (λ vn', counters_with vn' = counters_with vn ∧ (b = false → vn'.1 = vn.1)).
Proof.
  eapply settles_bind.
  { eapply settles_mono; [apply settles_relocate_n|intros ? ? HP; exact HP|].
    cbv beta. by intros vn' (? & _ & ?). }
  cbv beta. intros _ vn1 h1 (Hc1 & Hl1 & Hv1 & _).
  eapply settles_mono; [apply settles_relocate_n| |]; cbv beta.
  - intros _ vn2 (Hc2 & _ & Hv2 & Hn2).
    split; [congruence|]. split; [intros Hb; rewrite (Hv2 Hb); auto|].
    rewrite Hl1 in Hn2. destruct (decide (k - d = 0)); lia.
  - intros vn2 (Hc2 & _ & Hv2).
    split; [congruence|]. intros Hb. rewrite (Hv2 Hb). auto.
Qed.

Lemma settles_EmplaceWithRelocation pos i v h :
  settles (EmplaceWithRelocation pos i v h)
    (λ _ v',
       size_ v' = size_ v ∧ size_ v < Capacity v' ∧ (0 ≤ to_int (Z.of_nat pos))%Z)
    (λ v', size_ v' = size_ v ∧ (Capacity v' = Capacity v ∨ size_ v < Capacity v')).
Proof.
  rewrite EmplaceWithRelocation_relocate_n.
  set (k := if decide (size_ v = 0) then 1 else to_size_t (Z.of_nat (size_ v) * 2)).
  eapply settles_bind.
  { eapply settles_mono;
      [apply settles_RawMemory_new_room|intros ? ? HP; exact HP|intros ? ->; eauto]. }
  cbv beta. intros new_data v' h' (Hk & Hroom & ->).
  eapply (settles_scope _ _ _ _ _
    (λ _ vn, size_ vn.1 = size_ v ∧ size_ v < Capacity vn.1 ∧
             (0 ≤ to_int (Z.of_nat pos))%Z)
    (λ vn, counters vn.1 = counters v)).
  - eapply settles_bind.
    { eapply settles_mono; [apply settles_pointer_add|intros ? ? HP; exact HP|].
      cbv beta. by intros ? ->. }
    cbv beta. intros d vn0 h0 (-> & Hpos & Hd).
    eapply settles_bind.
    { eapply settles_mono;
        [apply settles_on_new_data_construct_at|intros ? ? HP; exact HP|].
      cbv beta. unfold counters_with. intros vn (Hc & _). simpl in Hc. congruence. }
    cbv beta. intros _ vn1 h1 (Hc1 & Hl1 & Hv1 & Hd1).
    eapply settles_bind.
    { eapply settles_mono;
        [apply settles_relocation_around|intros ? ? HP; exact HP|].
      cbv beta. unfold counters_with in *. intros vn (Hc & _). simpl in *. congruence. }
    cbv beta. intros _ vn2 h2 (Hc2 & _ & Hlt). rewrite Hl1 in Hlt.
    specialize (Hlt Hd1). simpl in Hlt.
    eapply settles_bind.
    { eapply settles_mono;
        [by apply every_state_on_this|intros ? ? HP; exact HP|].
      cbv beta. unfold counters_with in *. intros vn Hc. simpl in *. congruence. }
    cbv beta. intros _ [v3 n3] h3 H3. rewrite Hc1 in H3.
    unfold swap_new_data, RawMemory_Swap. simpl.
    unfold counters_with, counters, Capacity, RawMemory_Capacity in H3.
    simpl in H3. simplify_eq. unfold Capacity, RawMemory_Capacity. simpl.
    repeat split; [done| |done]. lia.
  - cbv beta. intros _ v1 nd h1 (Hs & Hc & Hpos). simpl in *.
    eapply settles_mono; [apply every_state_RawMemory_delete| |]; cbv beta.
    + by intros _ ? ->.
    + intros ? ->. eauto.
  - cbv beta. intros v1 nd h1 Hvn. unfold counters in Hvn. simpl in Hvn. simplify_eq.
    eapply settles_mono; [apply every_state_RawMemory_delete| |]; cbv beta.
    + intros _ ? ->. eauto.
    + intros ? ->. eauto.
  - cbv beta. intros v1 nd Hvn. unfold counters in Hvn. simpl in Hvn. simplify_eq. eauto.
Qed.

(** The in-place path: the counters are those of the call, also in the
    state its handler leaves or meets. *)
Lemma every_state_EmplaceWithoutRelocation pos i v h :
  every_state (EmplaceWithoutRelocation pos i v h) (λ v', counters v' = counters v).
Proof.
  unfold EmplaceWithoutRelocation, try_catch.
  assert (every_state (EmplaceWithoutRelocation_try pos i v h)
            (λ v', counters v' = counters v)) as Htry.
  { unfold EmplaceWithoutRelocation_try.
    destruct (decide (pos ≠ size_ v)); [|by apply every_state_on_data].
    eapply (settles_bind _ _ _ _ (λ _ v', counters v' = counters v)).
    { unfold construct_local. eapply settles_bind; [by apply settles_call|].
      cbv beta. intros _ v1 h1 H1. exact H1. }
    cbv beta. intros value v1 h1 H1.
    eapply (settles_scope _ _ _ _ _
      (λ _ vx, counters vx.1 = counters v) (λ vx, counters vx.1 = counters v)).
    - assert (∀ {A} (m : M Vector A) vx h0,
                counters vx.1 = counters v →
                (∀ v0 h0, counters v0 = counters v →
                   every_state (m v0 h0) (λ v', counters v' = counters v)) →
                every_state (on_vector m vx h0) (λ vx', counters vx'.1 = counters v))
        as Hon.
      { intros A m vx h0 Hvx Hm. unfold on_vector, zoom. simpl.
        specialize (Hm _ h0 Hvx). by destruct (m vx.1 h0). }
      eapply settles_bind.
      { apply Hon; [done|]. intros. by apply every_state_on_data. }
      cbv beta. intros _ vx2 h2 H2.
      eapply (settles_bind _ _ _ _ (λ _ vx, counters vx.1 = counters v)).
      { eapply settles_mono; [apply settles_pointer_add| |]; cbv beta.
        - by intros first vx [-> _].
        - by intros vx ->. }
      cbv beta. intros first vx2' h2' H2'.
      eapply settles_bind.
      { apply Hon; [done|]. intros. by apply every_state_on_data. }
      cbv beta. intros _ vx3 h3 H3.
      eapply (settles_bind _ _ _ _ (λ _ vx, counters vx.1 = counters v)).
      { eapply settles_mono; [apply settles_pointer_add| |]; cbv beta.
        - by intros d' vx [-> _].
        - by intros vx ->. }
      cbv beta. intros d' vx3' h3' H3'.
      unfold assign_local_to_data. apply settles_zoom; [done|].
      intros cx. simpl. rewrite <- H3'.
      unfold counters, Capacity, RawMemory_Capacity. simpl.
      by rewrite capacity_set_cells.
    - cbv beta. intros _ v' x h' Hv. simpl in Hv.
      unfold destroy_local. by apply settles_call.
    - cbv beta. intros v' x h' Hv. simpl in Hv.
      unfold destroy_local. by apply settles_call.
    - by intros. }
  destruct (EmplaceWithoutRelocation_try pos i v h) as [a v1 h1|v1 h1|v1 h1];
    simpl in *; [done| |done].
  unfold EmplaceWithoutRelocation_catch.
  eapply settles_bind.
  - apply (settles_zoom_part _ _ _ _ _
             (λ m, capacity_ m = capacity_ (data_ v1))); [exact Htry| |].
    + intros m Hm. simplify_eq. unfold operator_delete_at.
      destruct (buffer_ (data_ v1)), (size_ v1); try done;
        by apply settles_call.
    + intros m Hm. rewrite <- Htry.
      unfold counters, Capacity, RawMemory_Capacity. simpl. by rewrite Hm.
  - done.
Qed.

Lemma settles_Emplace pos i v h :
  invariant v →
  settles (Emplace pos i v h)
    (λ _ v', size_ v' = size_ v + 1 ∧ invariant v')
    invariant.
Proof.
  intros Hv. unfold invariant in *. unfold Emplace.
  destruct (decide (pos ≤ size_ v)); [|done].
  destruct (decide (size_ v < Capacity v)) as [Hlt|Hge].
  - eapply settles_bind.
    { eapply settles_mono; [apply every_state_EmplaceWithoutRelocation| |].
      - intros ? ? HP. exact HP.
      - cbv beta. unfold counters. intros v' Heq. simplify_eq. lia. }
    cbv beta. unfold counters. intros [] v' h' Heq. simplify_eq.
    unfold pointer_add. destruct (decide _); simpl; unfold Capacity in *; simpl; lia.
  - eapply settles_bind.
    { eapply settles_mono; [apply settles_EmplaceWithRelocation| |].
      - intros ? ? HP. exact HP.
      - cbv beta. intros v' [Hs [Hc|Hc]]; lia. }
    cbv beta. intros [] v' h' (Hs & Hc & _).
    unfold pointer_add. destruct (decide _); simpl; unfold Capacity in *; simpl; lia.
Qed.

Lemma every_state_Erase pos v h :
  invariant v → every_state (Erase pos v h) invariant.
Proof.
  intros Hv. unfold invariant in *. unfold Erase.
  destruct (decide (pos ≤ size_ v)); [|done].
  eapply (settles_bind _ _ _ _ (λ _ v', v' = v)).
  { eapply settles_mono; [apply settles_pointer_add| |]; cbv beta.
    - by intros first v' [-> _].
    - by intros v' ->. }
  cbv beta. intros first v0 h0 ->.
  eapply (settles_bind _ _ _ _ (λ _ v', counters v' = counters v)).
  { eapply settles_mono; [by apply every_state_on_data|done|].
    cbv beta. unfold counters. intros v' Heq. simplify_eq. lia. }
  cbv beta. intros _ v1 h1 H1.
  eapply (settles_bind _ _ _ _ (λ _ v', counters v' = counters v)).
  { eapply settles_mono; [by apply every_state_on_data|done|].
    cbv beta. unfold counters. intros v' Heq. simplify_eq. lia. }
  cbv beta. unfold counters. intros _ v2 h2 H2. simplify_eq.
  unfold pointer_add. destruct (decide _); simpl; unfold Capacity in *; simpl; lia.
Qed.

Lemma every_state_PopBack v h :
  invariant v → every_state (PopBack v h) invariant.
Proof.
  intros Hv. unfold invariant in *. unfold PopBack.
  destruct (decide (size_ v ≠ 0)); [|done].
  eapply (settles_bind _ _ _ _ (λ _ v', counters v' = counters v)).
  { eapply settles_mono; [by apply every_state_on_data|done|].
    cbv beta. unfold counters. intros v' Heq. simplify_eq. lia. }
  cbv beta. unfold counters. intros _ v2 h2 H2. simplify_eq. simpl.
  unfold Capacity in *. simpl. lia.
Qed.

Lemma every_state_Resize n v h :
  invariant v → every_state (Resize n v h) invariant.
Proof.
  intros Hv. unfold invariant in *. unfold Resize.
  eapply (settles_bind _ _ _ _ (λ _ v', n ≤ Capacity v')).
  - destruct (decide (n < size_ v)).
    + eapply settles_mono; [by apply every_state_on_data| |];
        cbv beta; unfold counters; intros; simplify_eq; lia.
    + eapply (settles_bind _ _ _ _
        (λ _ v', size_ v' = size_ v ∧ n ≤ Capacity v')).
      * destruct (decide (Capacity v < n)).
        -- eapply settles_mono; [apply settles_Reserve| |]; cbv beta.
           ++ intros _ v' [? ?]. split; [done|lia].
           ++ intros v' [? ?]. lia.
        -- simpl. split; [done|lia].
      * cbv beta. intros _ v1 h1 [Hs Hc].
        eapply settles_mono; [by apply every_state_on_data| |];
          cbv beta; unfold counters; intros; simplify_eq; lia.
  - cbv beta. intros _ v1 h1 H1. simpl. done.
Qed.

Lemma settles_constructing {S} members body (s : S) h :
  (∀ h0, every_state (body members h0) (λ v', counters v' = counters members)) →
  settles (constructing members body s h)
    (λ v' s', counters v' = counters members ∧ s' = s) (λ s', s' = s).
Proof.
  intros Hbody. unfold constructing. specialize (Hbody h).
  destruct (body members h) as [a v' h'|v' h'|v' h']; simpl in *; [done| |done].
  pose proof (every_state_RawMemory_delete (data_ v') s h') as Hd.
  unfold mbind, M_bind. by destruct (RawMemory_delete _ _ _).
Qed.

Lemma settles_Vector_sized {S} n (s : S) h :
  settles (Vector_sized n s h)
    (λ v' s', size_ v' = n ∧ Capacity v' = n ∧ s' = s) (λ s', s' = s).
Proof.
  unfold Vector_sized.
  eapply settles_bind; [apply settles_RawMemory_new|].
  cbv beta. intros data s' h' [Hn ->].
  eapply settles_mono; [apply settles_constructing| |done].
  - intros h0. by apply every_state_on_data.
  - cbv beta. unfold counters, Capacity, RawMemory_Capacity. simpl.
    intros v' s' [Heq ->]. by simplify_eq.
Qed.

Lemma settles_Vector_copy {S} other (s : S) h :
  settles (Vector_copy other s h)
    (λ v' s', size_ v' = size_ other ∧ Capacity v' = size_ other ∧ s' = s)
    (λ s', s' = s).
Proof.
  unfold Vector_copy.
  eapply settles_bind; [apply settles_RawMemory_new|].
  cbv beta. intros data s' h' [Hn ->].
  eapply settles_mono; [apply settles_constructing| |done].
  - intros h0. by apply every_state_from_other.
  - cbv beta. unfold counters, Capacity, RawMemory_Capacity. simpl.
    intros v' s' [[= H1 H2] ->]. by rewrite H1, H2, Hn.
Qed.

Lemma every_state_Vector_delete {S} v (s : S) h :
  every_state (Vector_delete v s h) (λ s', s' = s).
Proof.
  unfold Vector_delete. destruct (on_data _ v h); try done.
  apply every_state_RawMemory_delete.
Qed.

Lemma every_state_copy_assign rhs v h :
  invariant v →
  (∀ r, rhs = other_vector r → invariant r) →
  every_state (copy_assign rhs v h) invariant.
Proof.
  intros Hv Hrhs. unfold invariant in *. unfold copy_assign.
  destruct rhs as [|rhs]; [done|].
  specialize (Hrhs rhs eq_refl).
  destruct (decide (size_ rhs ≤ Capacity v)) as [Hfit|Hgrow].
  - eapply (settles_bind _ _ _ _ (λ _ v', counters v' = counters v)).
    { eapply settles_mono; [by apply every_state_from_other|done|].
      cbv beta. unfold counters. intros v' Heq. simplify_eq. lia. }
    cbv beta. intros _ v1 h1 H1.
    eapply (settles_bind _ _ _ _ (λ _ v', counters v' = counters v)).
    { destruct (decide (size_ rhs < size_ v));
        [|destruct (decide (size_ v < size_ rhs))].
      - eapply settles_mono; [by apply every_state_on_data|done|].
        cbv beta. unfold counters. intros v' Heq. simplify_eq. lia.
      - eapply settles_mono; [by apply every_state_from_other|done|].
        cbv beta. unfold counters. intros v' Heq. simplify_eq. lia.
      - simpl. done. }
    cbv beta. unfold counters. intros _ v2 h2 H2. simplify_eq. simpl.
    unfold Capacity in *. simpl. lia.
  - eapply settles_bind.
    { eapply settles_mono; [apply settles_Vector_copy| |].
      - intros ? ? HP. exact HP.
      - cbv beta. by intros ? ->. }
    cbv beta. intros rhs_copy v1 h1 (Hs & Hc & ->).
    unfold scope. cbn [fst snd]. rewrite Swap_swaps.
    pose proof (every_state_Vector_delete v rhs_copy h1) as Hd.
    unfold mbind, M_bind.
    destruct (Vector_delete v rhs_copy h1); simpl in *; subst; lia.
Qed.

Lemma settles_EmplaceBack i v h :
  invariant v →
  settles (EmplaceBack i v h) (λ _ v', size_ v' = size_ v + 1 ∧ invariant v') invariant.
Proof.
  intros Hv. unfold EmplaceBack.
  eapply settles_bind; [by apply settles_Emplace|].
  cbv beta. intros p v' h' [Hs Hi]. unfold dereference.
  by destruct (cells (data_ v') ≫= _) as [[]|].
Qed.

Lemma every_state_PushBack i v h :
  invariant v → every_state (PushBack i v h) invariant.
Proof.
  intros Hv. unfold PushBack.
  eapply settles_bind; [by apply settles_EmplaceBack|].
  cbv beta. by intros x v' h' [Hs Hi].
Qed.

(** ** Growth on a full vector *)

Lemma outcome_Emplace_full xs1 xs2 c i h :
  length (xs1 ++ xs2) = c →
  int_position (length xs1) → allocatable (grown c) →
  let by_move := is_nothrow_move_constructible || negb is_copy_constructible in
  outcome (Emplace (length xs1) i (vector_of (xs1 ++ xs2) c) h)
    (λ p v' h',
       p = length xs1 ∧
       v' = vector_of (xs1 ++ value_of i :: xs2) (grown c) ∧
       h' = h ++ [Did (OperatorNew (grown c)); Did (event_of i)] ++
            (Did ∘ (if by_move then MoveConstruct else CopyConstruct) <$> xs1 ++ xs2) ++
            (Did ∘ Destroy <$> (if by_move then moved_from <$> xs1 ++ xs2 else xs1 ++ xs2)) ++
            [Did OperatorDelete])
    (λ v' _, raised ∧ (by_move = false → v' = vector_of (xs1 ++ xs2) c)).
Proof.
  intros Hc Hp Ha by_move. rewrite Emplace_position by done.
  replace (size_ (vector_of (xs1 ++ xs2) c)) with (length (xs1 ++ xs2)) by done.
  replace (Capacity (vector_of (xs1 ++ xs2) c)) with c by done.
  rewrite decide_True by (rewrite length_app; lia).
  rewrite decide_False by lia.
  eapply outcome_bind.
  { eapply outcome_mono;
      [apply outcome_EmplaceWithRelocation; [lia|done|by rewrite Hc]
      |intros ? ? ? HP; exact HP|done]. }
  cbv beta. intros [] v' h' (-> & ->). simpl. rewrite Hc.
  split; [done|]. split; [|done].
  rewrite vector_of_with. unfold vector_with. f_equal.
  rewrite !length_app in *. simpl. lia.
Qed.

Lemma dereference_vector_of xs c p x h :
  length xs ≤ c → xs !! p = Some x →
  dereference p (vector_of xs c) h = Returned x (vector_of xs c) h.
Proof.
  intros Hc Hx. unfold dereference.
  rewrite vector_of_with, data_vector_with, cells_memory_of by by apply length_slots.
  simpl. unfold slots.
  rewrite lookup_app_l by (rewrite length_fmap; by eapply lookup_lt_Some).
  by rewrite list_lookup_fmap, Hx.
Qed.


(** ** Relocation by copy leaves the vector alone

    Whatever block [operator new] has returned and whatever [int] the
    position has become: until every element has its copy, the vector is not
    written to, and from then on nothing throws or is undefined. *)

Lemma Reserve_unfold n v :
  Reserve n v
  = if decide (n ≤ Capacity v) then skip v
    else
      (new_data ← RawMemory_new n;
       scope new_data
         (relocate_n (is_nothrow_move_constructible || negb is_copy_constructible)
            0 (size_ v) 0 ;;
          on_this (destroy_n 0 (size_ v)) ;;
          swap_new_data)
         RawMemory_delete) v.
Proof.
  unfold Reserve, relocate_n.
  by destruct (is_nothrow_move_constructible || negb is_copy_constructible).
Qed.






(** * The properties of the specification

    [vector_of xs c] is the vector whose element sequence is [xs], whose
    size is [length xs] and whose capacity is [c].  In a [match] on an
    outcome, [raised] in the branches other than [Returned] says that the
    call returns unless an element operation or [operator new] throws. *)


(** C4, as the code has it.  Relocation during growth moves the elements
    exactly when the move constructor cannot throw or the type cannot be
    copied, and copies them otherwise: the constructor calls of a [Reserve]
    that grows, and of an [Emplace] on a full vector, are all of the one
    kind.  The calls are those of a new block of less than [2^64] bytes and
    of a position that is an [int]. *)
Theorem relocation_moves_iff_nothrow_or_not_copyable xs c h :
  length xs ≤ c →
  let by_move := is_nothrow_move_constructible || negb is_copy_constructible in
  (by_move = true ↔
     is_nothrow_move_constructible = true ∨ is_copy_constructible = false) ∧
  (∀ n, c < n → allocatable n →
     match Reserve n (vector_of xs c) h with
     | Returned _ _ h' =>
         h' = h ++ [Did (OperatorNew n)] ++
              (Did ∘ (if by_move then MoveConstruct else CopyConstruct) <$> xs) ++
              (Did ∘ Destroy <$> (if by_move then moved_from <$> xs else xs)) ++
              [Did OperatorDelete]
     | Thrown _ _ => raised
     | Undefined _ _ => False
     end) ∧
  (length xs = c →
   ∀ pos i, pos ≤ length xs → int_position pos → allocatable (grown c) →
     match Emplace pos i (vector_of xs c) h with
     | Returned _ _ h' =>
         h' = h ++ [Did (OperatorNew (grown c)); Did (event_of i)] ++
              (Did ∘ (if by_move then MoveConstruct else CopyConstruct) <$> xs) ++
              (Did ∘ Destroy <$> (if by_move then moved_from <$> xs else xs)) ++
              [Did OperatorDelete]
     | Thrown _ _ => raised
     | Undefined _ _ => False
     end).
Proof.
  intros Hc by_move. repeat split.
  - unfold by_move. intros Hm. apply orb_true_iff in Hm as [Hm|Hm]; [by left|right].
    by apply negb_true_iff.
  - unfold by_move. intros [-> | ->]; [done|]. by rewrite orb_true_r.
  - intros n Hn Ha. pose proof (outcome_Reserve_grow xs c n h Hc Hn Ha) as H.
    fold by_move in H.
    destruct (Reserve n (vector_of xs c) h); simpl in H; [|tauto|done].
    destruct H as [_ ->]. destruct by_move; reassociate.
  - intros Hfull pos i Hpos Hp Ha.
    pose proof (outcome_Emplace_full (take pos xs) (drop pos xs) c i h) as H.
    rewrite take_drop, length_take, Nat.min_l in H by done.
    specialize (H Hfull Hp Ha). cbv zeta in H. fold by_move in H.
    destruct (Emplace pos i (vector_of xs c) h); simpl in H; [|tauto|done].
    by destruct H as (_ & _ & ->).
Qed.

(** C7. Copy assignment from another vector [rhs], which is only read.
    When the size of [rhs] fits the capacity, the elements are assigned over
    the common prefix, then the surplus is destroyed or the missing tail is
    copy-constructed, in the same block.  When it does not fit, a copy of
    [rhs] is built and swapped in, and the vector is untouched if building
    the copy throws.  A copy assignment that returns leaves the elements of
    [rhs].  The elements of [rhs] are in memory: they take less than [2^64]
    bytes. *)
Theorem copy_assign_copies xs c ys d h :
  length xs ≤ c → length ys ≤ d →
  (length ys ≤ c →
     match copy_assign (other_vector (vector_of ys d)) (vector_of xs c) h with
     | Returned _ v' h' =>
         v' = vector_of ys c ∧ elements v' = ys ∧
         h' = h ++ assign_events (take (length xs `min` length ys) xs)
                                 (take (length xs `min` length ys) ys) ++
              (if decide (length ys < length xs)
               then Did ∘ Destroy <$> drop (length ys) xs
               else Did ∘ CopyConstruct <$> drop (length xs) ys)
     | Thrown _ _ => raised
     | Undefined _ _ => False
     end) ∧
  (c < length ys → allocatable (length ys) →
     match copy_assign (other_vector (vector_of ys d)) (vector_of xs c) h with
     | Returned _ v' h' =>
         v' = vector_of ys (length ys) ∧ elements v' = ys ∧
         h' = h ++ [Did (OperatorNew (length ys))] ++ (Did ∘ CopyConstruct <$> ys) ++
              (Did ∘ Destroy <$> xs) ++ [Did OperatorDelete]
     | Thrown v' _ => v' = vector_of xs c ∧ raised
     | Undefined _ _ => False
     end).
Proof.
  intros Hc Hd. split.
  - intros Hfit. pose proof (outcome_copy_assign_fits xs c ys d h Hc Hd Hfit) as H.
    destruct (copy_assign _ _ h); simpl in H; [|done..].
    destruct H as [-> ->]. repeat split. by apply elements_vector_of.
  - intros Hgrow Ha.
    pose proof (outcome_copy_assign_grows xs c ys d h Hc Hd Hgrow Ha) as H.
    destruct (copy_assign _ _ h); simpl in H; [|done..].
    destruct H as [-> ->]. repeat split. by apply elements_vector_of.
Qed.

(** C10. [PopBack] on an empty vector returns at once and changes
    nothing; on a vector that is not empty it destroys the last element,
    and that one only, and keeps the other elements and the capacity.  It
    never throws. *)
Theorem PopBack_removes_last xs x c h :
  PopBack (vector_of [] c) h = Returned tt (vector_of [] c) h ∧
  (length (xs ++ [x]) ≤ c →
     PopBack (vector_of (xs ++ [x]) c) h
     = Returned tt (vector_of xs c) (h ++ [Did (Destroy x)])).
Proof.
  split; [apply PopBack_empty | apply PopBack_nonempty].
Qed.

(** C9. [size_ <= capacity_] holds of every vector a constructor builds
    and is kept by every public operation, in every outcome. *)
Theorem size_le_capacity :
  invariant Vector_default ∧
  (∀ n h, settles (Vector_sized n tt h) (λ v _, invariant v) (λ _, True)) ∧
  (∀ other h, settles (Vector_copy other tt h) (λ v _, invariant v) (λ _, True)) ∧
  (∀ other,
     invariant other →
     invariant (Vector_move other).1 ∧ invariant (Vector_move other).2) ∧
  (∀ v other,
     invariant v → invariant other →
     invariant (Swap v other).1 ∧ invariant (Swap v other).2) ∧
  (∀ v rhs,
     invariant v → invariant rhs →
     invariant (move_assign v rhs).1 ∧ invariant (move_assign v rhs).2) ∧
  keeps_invariant (copy_assign self) ∧
  (∀ rhs, invariant rhs → keeps_invariant (copy_assign (other_vector rhs))) ∧
  (∀ n, keeps_invariant (Reserve n)) ∧
  (∀ n, keeps_invariant (Resize n)) ∧
  (∀ i, keeps_invariant (PushBack i)) ∧
  (∀ i, keeps_invariant (EmplaceBack i)) ∧
  (∀ pos x, keeps_invariant (Insert pos x)) ∧
  (∀ pos x, keeps_invariant (Insert_rvalue pos x)) ∧
  (∀ pos i, keeps_invariant (Emplace pos i)) ∧
  keeps_invariant PopBack ∧
  (∀ pos, keeps_invariant (Erase pos)).
Proof.
  assert (∀ pos i, keeps_invariant (Emplace pos i)) as HEmplace.
  { intros pos i v h Hv.
    eapply settles_mono; [by apply settles_Emplace| |done].
    cbv beta. by intros _ v' [_ ?]. }
  repeat split.
  - unfold invariant. simpl. done.
  - intros n h. eapply settles_mono; [apply settles_Vector_sized| |done].
    cbv beta. unfold invariant. intros v' _ (-> & -> & _). done.
  - intros other h. eapply settles_mono; [apply settles_Vector_copy| |done].
    cbv beta. unfold invariant. intros v' _ (-> & -> & _). done.
  - done.
  - unfold invariant. simpl. done.
  - by rewrite Swap_swaps.
  - by rewrite Swap_swaps.
  - unfold move_assign. by rewrite Swap_swaps.
  - unfold move_assign. by rewrite Swap_swaps.
  - intros v h Hv. by apply every_state_copy_assign.
  - intros rhs Hrhs v h Hv. apply every_state_copy_assign; [done|].
    by intros r [= <-].
  - intros n v h Hv. unfold invariant in *.
    eapply settles_mono; [apply settles_Reserve| |]; cbv beta.
    + intros _ v' [? ?]. lia.
    + intros v' [? ?]. lia.
  - intros n v h Hv. by apply every_state_Resize.
  - intros i v h Hv. by apply every_state_PushBack.
  - intros i v h Hv.
    eapply settles_mono; [by apply settles_EmplaceBack| |done].
    cbv beta. by intros _ v' [_ ?].
  - intros pos x. apply HEmplace.
  - intros pos x. apply HEmplace.
  - done.
  - intros v h Hv. by apply every_state_PopBack.
  - intros pos v h Hv. by apply every_state_Erase.
Qed.

(** * Further properties of the code

    What the member functions do beyond the statements of the
    specification: the constructors and the destructor, moves, the calls an
    insertion in place makes, sequences of operations, and what a failure
    leaves behind. *)

(** ** Construction *)

(** [std::uninitialized_value_construct_n] with the calls it makes when a
    construction throws. *)
Lemma rollback_uninitialized_value_construct_n pre n post h first :
  first = length pre →
  outcome
    (uninitialized_value_construct_n first n (pre ++ replicate n Raw ++ post) h)
    (λ _ cs' h',
       cs' = pre ++ replicate n (Live value_initialized) ++ post ∧
       h' = h ++ replicate n (Did ValueConstruct))
    (λ cs' h',
       cs' = pre ++ replicate n Raw ++ post ∧
       ∃ j, j < n ∧
         h' = h ++ rolled_back (λ _, ValueConstruct) (replicate n value_initialized)
                     j value_initialized).
Proof.
  intros ->. unfold uninitialized_value_construct_n.
  set (zs := replicate n value_initialized).
  assert (length zs = n) as Hzs by apply length_replicate.
  eapply outcome_mono.
  - apply (outcome_uninitialized_loop _ _
      (λ j cs' h',
         cs' = pre ++ (Live <$> take j zs) ++ replicate (n - j) Raw ++ post ∧
         h' = h ++ (Did ∘ (λ _, ValueConstruct) <$> take j zs))
      (λ cs' h',
         cs' = pre ++ replicate n Raw ++ post ∧
         ∃ j, j < n ∧ h' = h ++ rolled_back (λ _, ValueConstruct) zs j value_initialized)).
    + intros j cs' h' Hj (-> & ->).
      assert (zs !! j = Some value_initialized) as Hz
        by (apply lookup_replicate_2; lia).
      replace (n - j) with (S (n - S j)) by lia.
      eapply outcome_try_catch.
      * unfold construct_at.
        rewrite under_construction_lookup by (rewrite length_take; lia).
        eapply outcome_mono; [apply outcome_call| |intros ? ? HE; exact HE].
        cbv beta. intros [] cs'' h'' (-> & ->).
        rewrite under_construction_insert by (rewrite length_take; lia).
        rewrite (take_S_r zs j value_initialized) by done.
        split; [done|]. by rewrite fmap_app, <- app_assoc.
      * intros cs'' h'' (-> & -> & _ & Hr).
        unfold mbind, M_bind.
        rewrite under_construction_rollback by (rewrite ?length_take; lia).
        simpl. split.
        -- do 2 f_equal. f_equal. lia.
        -- exists j. split; [lia|]. unfold rolled_back. reassociate.
    + simpl. split; [|by rewrite app_nil_r]. by rewrite Nat.sub_0_r.
  - cbv beta. intros [] cs' h' (-> & ->).
    rewrite Nat.add_0_l, Nat.sub_diag, take_ge by lia.
    unfold zs. rewrite !fmap_replicate. done.
  - done.
Qed.

(** [std::uninitialized_copy_n] with the calls it makes when a copy
    throws. *)
Lemma rollback_uninitialized_copy_n spre xs spost dpre dpost h first n d_first src dst :
  first = length spre → n = length xs → d_first = length dpre →
  src = spre ++ (Live <$> xs) ++ spost →
  dst = dpre ++ replicate n Raw ++ dpost →
  outcome (uninitialized_copy_n first n d_first (src, dst) h)
    (λ _ sd h',
       sd = (src, dpre ++ (Live <$> xs) ++ dpost) ∧
       h' = h ++ (Did ∘ CopyConstruct <$> xs))
    (λ sd h',
       sd = (src, dst) ∧
       ∃ j x, xs !! j = Some x ∧ h' = h ++ rolled_back CopyConstruct xs j x).
Proof.
  intros -> -> -> -> ->. unfold uninitialized_copy_n.
  eapply outcome_mono.
  - apply (outcome_uninitialized_loop _ _
      (λ j sd h',
         sd = (spre ++ (Live <$> xs) ++ spost,
               dpre ++ (Live <$> take j xs)
                    ++ replicate (length xs - j) Raw ++ dpost) ∧
         h' = h ++ (Did ∘ CopyConstruct <$> take j xs))
      (λ sd h',
         sd = (spre ++ (Live <$> xs) ++ spost,
               dpre ++ replicate (length xs) Raw ++ dpost) ∧
         ∃ j x, xs !! j = Some x ∧ h' = h ++ rolled_back CopyConstruct xs j x)).
    + intros j sd h' Hj (-> & ->).
      destruct (lookup_lt_is_Some_2 xs j) as [x Hx]; [lia|].
      replace (length xs - j) with (S (length xs - S j)) by lia.
      eapply outcome_try_catch.
      * unfold copy_construct_from. cbn [fst snd].
        rewrite (lookup_run _ _ _ _ j x) by done.
        eapply outcome_mono;
          [eapply outcome_zoom; [cbn [snd]; reflexivity|]| |intros ? ? HE; exact HE].
        -- unfold construct_at.
           rewrite under_construction_lookup by (rewrite length_take; lia).
           apply outcome_call.
        -- cbv beta. intros [] sd h' (cs' & -> & -> & ->). cbn [fst snd].
           rewrite under_construction_insert by (rewrite length_take; lia).
           rewrite (take_S_r _ _ _ Hx). split; [done|].
           by rewrite fmap_app, <- app_assoc.
      * cbv beta. intros sd h' (cs' & -> & -> & -> & _ & Hr). cbn [fst snd].
        unfold mbind, M_bind, on_dst, zoom. cbn [fst snd].
        rewrite under_construction_rollback by (rewrite ?length_take; lia).
        simpl. split.
        -- repeat f_equal. lia.
        -- exists j, x. split; [done|]. unfold rolled_back. reassociate.
    + simpl. split; [|by rewrite app_nil_r]. by rewrite Nat.sub_0_r.
  - cbv beta. intros [] sd h' (-> & ->).
    rewrite Nat.add_0_l, Nat.sub_diag, take_ge by lia. done.
  - done.
Qed.

(** [RawMemory(capacity)] with the call that throws. *)
Lemma throwing_RawMemory_new {S} (capacity : nat) (s : S) h :
  allocatable capacity →
  outcome (RawMemory_new capacity s h)
    (λ m s' h',
       m = memory_of (replicate capacity Raw) capacity ∧ s' = s ∧
       h' = h ++ (if decide (capacity = 0) then [] else [Did (OperatorNew capacity)]))
    (λ s' h', s' = s ∧ capacity ≠ 0 ∧ h' = h ++ [Threw (OperatorNew capacity)]).
Proof.
  intros Ha. unfold RawMemory_new, Allocate, memory_of.
  rewrite room_allocatable by done.
  destruct (decide (capacity = 0)) as [Hc|Hc].
  - rewrite decide_False by lia. simpl. by rewrite app_nil_r.
  - rewrite decide_True by done.
    unfold mbind, M_bind, call.
    by destruct (completes h (OperatorNew capacity)).
Qed.

(** X1. [Vector(size)], for a size whose elements take less than [2^64]
    bytes, builds [size] value-initialised elements in a block of exactly
    [size] slots; nothing is allocated for size 0.  When [operator new]
    throws, nothing else has happened; when a construction throws, the
    elements constructed so far are destroyed and the block is released
    before the exception leaves the constructor. *)
Theorem Vector_sized_value_initializes_or_rolls_back {S} n (s : S) h :
  allocatable n →
  match Vector_sized n s h with
  | Returned v' s' h' =>
      v' = vector_of (replicate n value_initialized) n ∧
      elements v' = replicate n value_initialized ∧
      Size v' = n ∧ Capacity v' = n ∧ s' = s ∧
      h' = h ++ (if decide (n = 0) then [] else [Did (OperatorNew n)])
             ++ replicate n (Did ValueConstruct)
  | Thrown s' h' =>
      s' = s ∧
      (h' = h ++ [Threw (OperatorNew n)] ∨
       ∃ j, j < n ∧
         h' = h ++ [Did (OperatorNew n)] ++ replicate j (Did ValueConstruct)
                ++ [Threw ValueConstruct]
                ++ replicate j (Did (Destroy value_initialized))
                ++ [Did OperatorDelete])
  | Undefined _ _ => False
  end.
Proof.
  intros Ha. unfold Vector_sized, mbind at 1, M_bind at 1.
  pose proof (throwing_RawMemory_new n s h Ha) as Hnew.
  destruct (RawMemory_new n s h) as [data s1 h1|s1 h1|]; simpl in Hnew;
    [|destruct Hnew as (-> & _ & ->); by split; [|left]|done].
  destruct Hnew as (-> & -> & ->).
  unfold constructing.
  pose proof (rollback_uninitialized_value_construct_n [] n []
    (h ++ (if decide (n = 0) then [] else [Did (OperatorNew n)])) 0 eq_refl) as Hloop.
  rewrite app_nil_l, !app_nil_r in Hloop.
  pose proof (outcome_on_data
    (uninitialized_value_construct_n 0 n) (replicate n Raw) n n
    (h ++ (if decide (n = 0) then [] else [Did (OperatorNew n)]))
    _ _ (length_replicate _ _) Hloop) as Hcons.
  clear Hloop.
  fold (vector_with (replicate n Raw) n n).
  destruct (on_data _ _ _) as [[] v' h'|v' h'|v' h']; simpl in Hcons.
  - destruct Hcons as (cs & -> & -> & ->). simpl.
    assert (vector_with (replicate n (Live value_initialized)) n n
            = vector_of (replicate n value_initialized) n) as ->.
    { rewrite vector_of_with. unfold slots.
      by rewrite length_replicate, Nat.sub_diag, app_nil_r, fmap_replicate. }
    split; [done|]. split; [|split].
    + apply elements_vector_of. by rewrite length_replicate.
    + done.
    + repeat split. by rewrite <- app_assoc.
  - destruct Hcons as (cs & -> & -> & j & Hj & ->).
    unfold mbind, M_bind. rewrite data_vector_with, RawMemory_delete_memory_of.
    simpl. split; [done|]. right. exists j. split; [done|].
    rewrite decide_False by lia. unfold rolled_back.
    rewrite take_replicate, Nat.min_l, !fmap_replicate by lia.
    reassociate.
  - done.
Qed.

(** X2. [Vector(const Vector& other)] builds a vector with the elements
    of [other], which are in memory and so take less than [2^64] bytes, in
    a block of exactly their number, by one copy construction each, in
    order; nothing is allocated for an empty [other].  When [operator new]
    throws, nothing else has happened; when a copy throws, the copies made
    so far are destroyed and the block is released before the exception
    leaves the constructor. *)
Theorem Vector_copy_copies_or_rolls_back {S} ys d (s : S) h :
  length ys ≤ d → allocatable (length ys) →
  match Vector_copy (vector_of ys d) s h with
  | Returned v' s' h' =>
      v' = vector_of ys (length ys) ∧ elements v' = ys ∧
      Capacity v' = length ys ∧ s' = s ∧
      h' = h ++ (if decide (length ys = 0) then [] else [Did (OperatorNew (length ys))])
             ++ (Did ∘ CopyConstruct <$> ys)
  | Thrown s' h' =>
      s' = s ∧
      (h' = h ++ [Threw (OperatorNew (length ys))] ∨
       ∃ j y, ys !! j = Some y ∧
         h' = h ++ [Did (OperatorNew (length ys))] ++ rolled_back CopyConstruct ys j y
                ++ [Did OperatorDelete])
  | Undefined _ _ => False
  end.
Proof.
  intros Hd Ha. unfold Vector_copy, mbind at 1, M_bind at 1.
  replace (size_ (vector_of ys d)) with (length ys) by done.
  pose proof (throwing_RawMemory_new (length ys) s h Ha) as Hnew.
  destruct (RawMemory_new (length ys) s h) as [data s1 h1|s1 h1|]; simpl in Hnew;
    [|destruct Hnew as (-> & _ & ->); by split; [|left]|done].
  destruct Hnew as (-> & -> & ->).
  unfold constructing.
  pose proof (outcome_from_other
    (uninitialized_copy_n 0 (length ys) 0)
    (slots ys d) d (length ys) (replicate (length ys) Raw) (length ys) (length ys)
    (h ++ (if decide (length ys = 0) then [] else [Did (OperatorNew (length ys))]))
    _ _ (length_slots _ _ Hd) (length_replicate _ _)
    (rollback_uninitialized_copy_n [] ys (replicate (d - length ys) Raw) [] []
       _ 0 (length ys) 0 _ _ eq_refl eq_refl eq_refl eq_refl
       (eq_sym (app_nil_r _)))) as Hcopy.
  fold (vector_with (replicate (length ys) Raw) (length ys) (length ys)).
  rewrite <- vector_of_with in Hcopy.
  destruct (from_other _ _ _ _) as [[] v' h'|v' h'|v' h']; simpl in Hcopy.
  - destruct Hcopy as (scs & dcs & -> & Heq & ->). simplify_eq. simpl.
    assert (vector_with ((Live <$> ys) ++ []) (length ys) (length ys)
            = vector_of ys (length ys)) as ->.
    { rewrite vector_of_with. unfold slots. by rewrite Nat.sub_diag. }
    repeat split; [by apply elements_vector_of|by rewrite <- app_assoc].
  - destruct Hcopy as (scs & dcs & -> & Heq & j & y & Hy & ->). simplify_eq.
    unfold mbind, M_bind. rewrite data_vector_with, RawMemory_delete_memory_of.
    simpl. split; [done|]. right. exists j, y. split; [done|].
    rewrite decide_False by (apply lookup_lt_Some in Hy; lia).
    reassociate.
  - done.
Qed.

(** ** Move, swap, destruction and reading *)

(** X3. [Vector(Vector&& other)] makes no call: the new vector takes the
    block, the size and the capacity of [other], and [other] is left as a
    default-constructed vector, whose destructor has no element to destroy. *)
Theorem Vector_move_transfers {S} (other : Vector) (s : S) h :
  (Vector_move other).1 = other ∧
  (Vector_move other).2 = Vector_default ∧
  elements (Vector_move other).2 = [] ∧
  Capacity (Vector_move other).2 = 0 ∧
  Vector_delete (Vector_move other).2 s h = Returned tt s (h ++ [Did OperatorDelete]).
Proof.
  destruct other as [[buf cap] k]. done.
Qed.

(** X4. [operator=(Vector&&)] is [Swap]: the two vectors exchange block,
    size and capacity, no element is destroyed, and the elements [*this]
    had live on in [rhs], whose destructor destroys them. *)
Theorem move_assign_exchanges {S} xs c (rhs : Vector) (s : S) h :
  length xs ≤ c →
  move_assign (vector_of xs c) rhs = (rhs, vector_of xs c) ∧
  Swap (vector_of xs c) rhs = (rhs, vector_of xs c) ∧
  Swap (Swap (vector_of xs c) rhs).1 (Swap (vector_of xs c) rhs).2
  = (vector_of xs c, rhs) ∧
  Vector_delete (move_assign (vector_of xs c) rhs).2 s h
  = Returned tt s (h ++ (Did ∘ Destroy <$> xs) ++ [Did OperatorDelete]).
Proof.
  intros Hc. unfold move_assign. rewrite !Swap_swaps. cbn [fst snd].
  repeat split. by apply Vector_delete_vector_of.
Qed.

(** X5. [~Vector()] destroys every element once, in index order, then
    releases the block; it never throws. *)
Theorem Vector_delete_destroys_each_element {S} xs c (s : S) h :
  length xs ≤ c →
  Vector_delete (vector_of xs c) s h
  = Returned tt s (h ++ (Did ∘ Destroy <$> xs) ++ [Did OperatorDelete]).
Proof. apply Vector_delete_vector_of. Qed.

(** X6. [operator[]] with an index below the size reads the element at
    that index; an index from the size upwards fails its assertion, also
    when the slot lies within the capacity.  A traversal visits the elements
    in order. *)
Theorem subscript_reads_element xs c index :
  length xs ≤ c →
  subscript index (vector_of xs c) = xs !! index ∧
  (length xs ≤ index → subscript index (vector_of xs c) = None) ∧
  elements (vector_of xs c) = xs.
Proof.
  intros Hc. split; [by apply subscript_vector_of|]. split.
  - intros Hi. rewrite subscript_vector_of by done. by apply lookup_ge_None.
  - by apply elements_vector_of.
Qed.

(** ** Reserve *)

(** [std::uninitialized_move_n] with the calls it makes when a move
    throws. *)
Lemma rollback_uninitialized_move_n spre xs spost dpre dpost h first n d_first src dst :
  first = length spre → n = length xs → d_first = length dpre →
  src = spre ++ (Live <$> xs) ++ spost →
  dst = dpre ++ replicate n Raw ++ dpost →
  outcome (uninitialized_move_n first n d_first (src, dst) h)
    (λ _ sd h',
       sd = (spre ++ (Live <$> (moved_from <$> xs)) ++ spost,
             dpre ++ (Live <$> xs) ++ dpost) ∧
       h' = h ++ (Did ∘ MoveConstruct <$> xs))
    (λ sd h',
       ∃ j x, xs !! j = Some x ∧
         sd = (spre ++ (Live <$> (moved_from <$> take j xs) ++ drop j xs) ++ spost, dst) ∧
         h' = h ++ rolled_back MoveConstruct xs j x ∧
         is_nothrow_move_constructible = false).
Proof.
  intros -> -> -> -> ->. unfold uninitialized_move_n.
  eapply outcome_mono.
  - apply (outcome_uninitialized_loop _ _
      (λ j sd h',
         sd = (spre ++ (Live <$> (moved_from <$> take j xs) ++ drop j xs) ++ spost,
               dpre ++ (Live <$> take j xs)
                    ++ replicate (length xs - j) Raw ++ dpost) ∧
         h' = h ++ (Did ∘ MoveConstruct <$> take j xs))
      (λ sd h',
         ∃ j x, xs !! j = Some x ∧
           sd = (spre ++ (Live <$> (moved_from <$> take j xs) ++ drop j xs) ++ spost,
                 dpre ++ replicate (length xs) Raw ++ dpost) ∧
           h' = h ++ rolled_back MoveConstruct xs j x ∧
           is_nothrow_move_constructible = false)).
    + intros j sd h' Hj (-> & ->).
      destruct (lookup_lt_is_Some_2 xs j) as [x Hx]; [lia|].
      replace (length xs - j) with (S (length xs - S j)) by lia.
      eapply outcome_try_catch.
      * unfold move_construct_from. cbn [fst snd].
        rewrite under_construction_lookup by (rewrite length_take; lia).
        rewrite (lookup_run _ _ _ _ j x); [|done|by apply moved_prefix_lookup].
        eapply outcome_mono; [apply outcome_call| |intros ? ? HE; exact HE].
        cbv beta. intros [] sd h' (-> & ->). cbn [fst snd].
        rewrite under_construction_insert by (rewrite length_take; lia).
        rewrite (insert_run _ _ _ _ j) by (rewrite ?length_moved_prefix; lia).
        rewrite (moved_prefix_insert _ _ _ _ Hx).
        rewrite (take_S_r _ _ _ Hx). split; [done|].
        by rewrite fmap_app, <- app_assoc.
      * cbv beta. intros sd h' (-> & -> & Hn & Hr).
        unfold mbind, M_bind, on_dst, zoom. cbn [fst snd].
        rewrite under_construction_rollback by (rewrite ?length_take; lia).
        simpl. exists j, x. split; [done|]. split; [|split; [|done]].
        -- repeat f_equal. lia.
        -- unfold rolled_back. reassociate.
    + simpl. split; [|by rewrite app_nil_r]. by rewrite Nat.sub_0_r, drop_0.
  - cbv beta. intros [] sd h' (-> & ->).
    rewrite Nat.add_0_l, Nat.sub_diag, take_ge, drop_ge by lia.
    by rewrite app_nil_r.
  - done.
Qed.

(** The relocation of a range into [new_data], with the calls it makes and
    the elements it leaves when a construction throws. *)
Lemma rollback_relocate_n b spre ys spost dpre dpost c k n h first cnt d_first src dst :
  first = length spre → cnt = length ys → d_first = length dpre →
  src = spre ++ (Live <$> ys) ++ spost →
  dst = dpre ++ replicate cnt Raw ++ dpost →
  length src = c → length dst = n →
  outcome (relocate_n b first cnt d_first (vector_with src c k, memory_of dst n) h)
    (λ _ vn h',
       vn = (vector_with
               (spre ++ (Live <$> relocated_from b (length ys) ys) ++ spost) c k,
             memory_of (dpre ++ (Live <$> ys) ++ dpost) n) ∧
       h' = h ++ (Did ∘ relocation b <$> ys))
    (λ vn h',
       ∃ j x, ys !! j = Some x ∧
         vn = (vector_with (spre ++ (Live <$> relocated_from b j ys) ++ spost) c k,
               memory_of dst n) ∧
         h' = h ++ rolled_back (relocation b) ys j x ∧
         noexcept (relocation b x) = false).
Proof.
  intros Hf Hc Hd Hsrc Hdst Hls Hld. destruct b; unfold relocate_n, relocated_from.
  - eapply outcome_mono.
    + apply outcome_to_new_data; [done..|].
      by apply (rollback_uninitialized_move_n spre ys spost dpre dpost).
    + cbv beta. intros [] vn h' (scs & dcs & -> & Heq & ->). simplify_eq.
      by rewrite take_ge, drop_ge, app_nil_r by lia.
    + cbv beta. intros vn h' (scs & dcs & -> & j & x & Hx & Heq & -> & Hnt).
      simplify_eq. by exists j, x.
  - eapply outcome_mono.
    + apply outcome_to_new_data; [done..|].
      by apply (rollback_uninitialized_copy_n spre ys spost dpre dpost).
    + cbv beta. intros [] vn h' (scs & dcs & -> & Heq & ->). by simplify_eq.
    + cbv beta. intros vn h' (scs & dcs & -> & Heq & j & x & Hx & ->).
      simplify_eq. by exists j, x.
Qed.

Lemma length_relocated_from b j (xs : list T) : length (relocated_from b j xs) = length xs.
Proof. destruct b; [apply length_moved_prefix|done]. Qed.

(** The elements are out of harm's way when relocation copies them, or
    moves them with a constructor that cannot throw. *)
Lemma relocated_from_unchanged j x (xs : list T) :
  let by_move := is_nothrow_move_constructible || negb is_copy_constructible in
  noexcept (relocation by_move x) = false →
  is_nothrow_move_constructible = true ∨ is_copy_constructible = true →
  relocated_from by_move j xs = xs.
Proof.
  intros by_move Hnt. unfold by_move, relocation, relocated_from in *.
  intros [Ht | Hcopy].
  - rewrite Ht in Hnt. simpl in Hnt. congruence.
  - rewrite Hcopy in *. simpl in *. rewrite orb_false_r in *.
    destruct is_nothrow_move_constructible eqn:Ht; [|done].
    simpl in Hnt. congruence.
Qed.

(** A [Reserve] that grows, with the calls it makes and the elements it
    leaves when it throws. *)
Lemma throwing_Reserve_grow xs c n h :
  length xs ≤ c → c < n → allocatable n →
  let by_move := is_nothrow_move_constructible || negb is_copy_constructible in
  outcome (Reserve n (vector_of xs c) h)
    (λ _ v' h',
       v' = vector_of xs n ∧
       h' = h ++ [Did (OperatorNew n)] ++ (Did ∘ relocation by_move <$> xs) ++
            (Did ∘ Destroy <$> relocated_from by_move (length xs) xs) ++
            [Did OperatorDelete])
    (λ v' h',
       (v' = vector_of xs c ∧ h' = h ++ [Threw (OperatorNew n)]) ∨
       ∃ j x, xs !! j = Some x ∧
         noexcept (relocation by_move x) = false ∧
         v' = vector_of (relocated_from by_move j xs) c ∧
         h' = h ++ [Did (OperatorNew n)] ++ rolled_back (relocation by_move) xs j x ++
              [Did OperatorDelete]).
Proof.
  intros Hxs Hn Ha by_move. rewrite Reserve_unfold. fold by_move.
  rewrite vector_of_with, Capacity_vector_with, size_vector_with.
  rewrite decide_False by lia.
  eapply outcome_bind.
  { eapply outcome_mono; [by apply throwing_RawMemory_new|intros ? ? ? HP; exact HP|].
    cbv beta. intros v' h' (-> & _ & ->). by left. }
  cbv beta. intros new_data v' h' (-> & -> & ->).
  rewrite decide_False by lia.
  set (h1 := h ++ [Did (OperatorNew n)]).
  eapply (outcome_scope _ _ _ _ _
    (λ _ vn h',
       vn = (vector_with (slots xs n) n (length xs), memory_of (replicate c Raw) c) ∧
       h' = h1 ++ (Did ∘ relocation by_move <$> xs) ++
            (Did ∘ Destroy <$> relocated_from by_move (length xs) xs))
    (λ vn h',
       ∃ j x, xs !! j = Some x ∧
         noexcept (relocation by_move x) = false ∧
         vn = (vector_of (relocated_from by_move j xs) c,
               memory_of (replicate n Raw) n) ∧
         h' = h1 ++ rolled_back (relocation by_move) xs j x)).
  - eapply outcome_bind.
    { eapply outcome_mono; [|intros ? ? ? HP; exact HP|].
      - apply (rollback_relocate_n by_move [] xs (replicate (c - length xs) Raw)
                 [] (replicate (n - length xs) Raw)); try done.
        + apply replicate_split. lia.
        + by apply length_slots.
        + by apply length_replicate.
      - cbv beta. intros vn h' (j & x & Hx & -> & -> & Hnt).
        exists j, x. split; [done|]. split; [done|]. split; [|done].
        rewrite vector_of_with. unfold slots. simpl.
        by rewrite length_relocated_from. }
    cbv beta. intros [] vn h' (-> & ->).
    eapply outcome_bind.
    { eapply outcome_mono; [|intros ? ? ? HP; exact HP|].
      - apply outcome_on_this.
        + simpl. rewrite length_app, length_fmap, length_relocated_from, length_replicate.
          lia.
        + apply outcome_Returned.
          rewrite <- (length_relocated_from by_move (length xs) xs) at 1.
          apply (destroy_n_live []).
      - simpl. by intros ? ? (? & ? & []). }
    cbv beta. intros [] vn h' (cs' & -> & _ & -> & ->).
    rewrite swap_new_data_with. simpl. split.
    + by rewrite length_relocated_from, replicate_add_sub.
    + by rewrite <- !app_assoc.
  - cbv beta. intros [] v' nd h' (Heq & ->). simplify_eq.
    rewrite RawMemory_delete_memory_of. simpl. split; [done|].
    unfold h1. by rewrite <- !app_assoc.
  - cbv beta. intros v' nd h' (j & x & Hx & Hnt & Heq & ->). simplify_eq.
    rewrite RawMemory_delete_memory_of. simpl. right.
    exists j, x. do 3 (split; [done|]). unfold h1. reassociate.
Qed.

(** X7. A [Reserve] to a capacity whose block takes less than [2^64]
    bytes, when it throws, leaves size and capacity as they were and the new
    block released.  Either [operator new] threw, or the relocation
    of some element did: the elements relocated before it have then been
    destroyed in the new block, in order.  The elements of the vector are
    untouched when the type can be copied or its move constructor cannot
    throw; for the other types the elements relocated before the failure are
    left moved-from. *)
Theorem Reserve_failure_rolls_back xs c n h :
  length xs ≤ c → c < n → allocatable n →
  let by_move := is_nothrow_move_constructible || negb is_copy_constructible in
  match Reserve n (vector_of xs c) h with
  | Returned _ _ _ => True
  | Thrown v' h' =>
      (is_nothrow_move_constructible = true ∨ is_copy_constructible = true →
       v' = vector_of xs c) ∧
      ((v' = vector_of xs c ∧ h' = h ++ [Threw (OperatorNew n)]) ∨
       ∃ j x, xs !! j = Some x ∧
         v' = vector_of (relocated_from by_move j xs) c ∧
         h' = h ++ [Did (OperatorNew n)] ++ rolled_back (relocation by_move) xs j x ++
              [Did OperatorDelete])
  | Undefined _ _ => False
  end.
Proof.
  intros Hc Hn Ha by_move.
  pose proof (throwing_Reserve_grow xs c n h Hc Hn Ha) as H. cbv zeta in H.
  fold by_move in H.
  destruct (Reserve n (vector_of xs c) h) as [|v' h'|]; simpl in H; [done| |done].
  destruct H as [[-> ->] | (j & x & Hx & Hnt & -> & ->)].
  - split; [done|]. by left.
  - split; [|right; by exists j, x].
    intros Hsafe. unfold by_move in *.
    by rewrite (relocated_from_unchanged j x xs Hnt Hsafe).
Qed.

(** X23. [Reserve(n)] with [n] at most the capacity returns at once: no
    call is made, the vector is untouched.  With [n] above the capacity and
    less than [2^64] bytes for [n] elements, a [Reserve] that returns leaves
    the same elements and size in a block of exactly [n] slots, and it
    returns unless some call it makes throws. *)
Theorem Reserve_keeps_elements xs c n h :
  length xs ≤ c →
  (n ≤ c → Reserve n (vector_of xs c) h = Returned tt (vector_of xs c) h) ∧
  (c < n → allocatable n →
     match Reserve n (vector_of xs c) h with
     | Returned _ v' _ =>
         v' = vector_of xs n ∧
         elements v' = xs ∧ Size v' = length xs ∧ Capacity v' = n
     | Thrown _ _ => raised
     | Undefined _ _ => False
     end).
Proof.
  intros Hc. split.
  - intros Hn. unfold Reserve.
    replace (Capacity (vector_of xs c)) with c by done.
    by rewrite decide_True.
  - intros Hn Ha. pose proof (outcome_Reserve_grow xs c n h Hc Hn Ha) as H.
    destruct (Reserve n (vector_of xs c) h); simpl in H; [|tauto|done].
    destruct H as [-> _]. repeat split. apply elements_vector_of. lia.
Qed.

(** ** Resize *)



(** X24. [Resize(n)] below the size destroys the trailing elements, one
    destructor call each, and keeps the first [n] and the capacity.
    [Resize(n)] from the size upwards grows the capacity to
    [max(c * 2, n)] only when [n] exceeds it, and value-initialises the new
    trailing elements after the old ones, when the grown block takes less
    than [2^64] bytes.  The size is [n] either way. *)
Theorem Resize_shrinks_and_grows xs c n h :
  length xs ≤ c →
  (n < length xs →
     Resize n (vector_of xs c) h
     = Returned tt (vector_of (take n xs) c) (h ++ (Did ∘ Destroy <$> drop n xs)) ∧
     Size (vector_of (take n xs) c) = n) ∧
  (length xs ≤ n → (c < n → allocatable ((c * 2) `max` n)) →
     match Resize n (vector_of xs c) h with
     | Returned _ v' h' =>
         v' = vector_of (xs ++ replicate (n - length xs) value_initialized)
                (if decide (c < n) then (c * 2) `max` n else c) ∧
         Size v' = n ∧
         ∃ t, h' = h ++ t ++ replicate (n - length xs) (Did ValueConstruct) ∧
              (¬ c < n → t = [])
     | Thrown _ _ => raised
     | Undefined _ _ => False
     end).
Proof.
  intros Hc. split.
  - intros Hn. split; [by apply Resize_shrink|].
    unfold Size. simpl. rewrite length_take. lia.
  - intros Hn Ha. pose proof (outcome_Resize_grow xs c n h Hc Hn Ha) as H.
    destruct (Resize n (vector_of xs c) h); simpl in H; [|done..].
    destruct H as [-> Ht]. repeat split; [|done].
    unfold Size. simpl. rewrite length_app, length_replicate. lia.
Qed.

(** ** Appending *)

(** [Emplace] at [end()] of a vector with spare capacity: one constructor
    call, then the sum of [begin()] and the narrowed position; when the
    constructor throws, the handler releases [end()]. *)
Lemma Emplace_at_end_narrowed xs c i h :
  length xs < c →
  Emplace (length xs) i (vector_of xs c) h
  = if completes h (event_of i) then
      pointer_add (to_int (Z.of_nat (length xs)))
        (vector_of (xs ++ [value_of i]) c) (h ++ [Did (event_of i)])
    else if decide (length xs = 0) then
      Thrown (released c) (h ++ [Threw (event_of i); Did OperatorDelete])
    else
      Undefined (vector_of xs c) (h ++ [Threw (event_of i)]).
Proof.
  intros Hc. unfold Emplace.
  replace (size_ (vector_of xs c)) with (length xs) by done.
  replace (Capacity (vector_of xs c)) with c by done.
  rewrite decide_True by done. rewrite decide_True by done.
  unfold mbind, M_bind, EmplaceWithoutRelocation, try_catch, EmplaceWithoutRelocation_try.
  replace (size_ (vector_of xs c)) with (length xs) by done.
  rewrite decide_False by lia.
  rewrite vector_of_with. unfold on_data, zoom.
  rewrite data_vector_with, cells_memory_of by (apply length_slots; lia).
  unfold construct_at. rewrite slots_lookup_end by (done || lia).
  unfold call. destruct (completes h (event_of i)).
  - rewrite set_cells_memory_of, slots_insert_end by (done || lia).
    unfold increment_size, set_size. simpl. f_equal.
    rewrite vector_of_with. unfold vector_with. f_equal.
    rewrite length_app. simpl. lia.
  - unfold EmplaceWithoutRelocation_catch, mbind, M_bind, zoom. cbn [data_ size_ vector_with].
    rewrite set_cells_memory_of. fold (vector_with (slots xs c) c (length xs)).
    unfold operator_delete_at, memory_of. cbn [buffer_].
    rewrite (decide_False (P := c = 0)) by lia.
    destruct xs as [|x xs]; simpl.
    + by rewrite <- app_assoc.
    + unfold vector_with, memory_of. by rewrite decide_False by lia.
Qed.

Lemma Emplace_at_end_in_place xs c i h :
  length xs < c → int_position (length xs) →
  Emplace (length xs) i (vector_of xs c) h
  = if completes h (event_of i) then
      Returned (length xs) (vector_of (xs ++ [value_of i]) c) (h ++ [Did (event_of i)])
    else if decide (length xs = 0) then
      Thrown (released c) (h ++ [Threw (event_of i); Did OperatorDelete])
    else
      Undefined (vector_of xs c) (h ++ [Threw (event_of i)]).
Proof.
  intros Hc Hp. rewrite Emplace_at_end_narrowed by done.
  by rewrite pointer_add_position.
Qed.

Lemma completes_false h e : completes h e = false → noexcept e = false ∧ raised.
Proof.
  unfold completes. intros Hc. apply orb_false_iff in Hc as [Hn Ht].
  split; [done|]. exists h, e. split; [done|]. by apply negb_false_iff.
Qed.

Lemma returns_or_raised_PushBack xs c i h :
  length xs ≤ c →
  int_position (length xs) →
  (¬ length xs < c → allocatable (grown (length xs))) →
  returns_or_raised (PushBack i (vector_of xs c) h)
    (λ _ v' _,
       v' = vector_of (xs ++ [value_of i])
              (if decide (length xs < c) then c else grown (length xs))).
Proof.
  intros Hc Hp Ha. unfold PushBack, EmplaceBack.
  replace (size_ (vector_of xs c)) with (length xs) by done.
  pose proof (grown_gt (length xs)) as Hg.
  eapply returns_or_raised_bind; [eapply returns_or_raised_bind|].
  - pose proof (returns_or_raised_Emplace xs [] c i h) as He.
    rewrite app_nil_r in He. by apply He.
  - cbv beta. intros p v' h' (-> & ->).
    rewrite dereference_vector_of with (x := value_of i).
    + instantiate (1 := λ _ v' _,
        v' = vector_of (xs ++ [value_of i])
               (if decide (length xs < c) then c else grown (length xs))).
      done.
    + rewrite length_app. simpl. destruct (decide (length xs < c)); lia.
    + by apply list_lookup_middle.
  - cbv beta. by intros x v' h' ->.
Qed.

Lemma PushBack_in_place_throws xs c i h :
  length xs < c → completes h (event_of i) = false →
  PushBack i (vector_of xs c) h
  = if decide (length xs = 0) then
      Thrown (released c) (h ++ [Threw (event_of i); Did OperatorDelete])
    else
      Undefined (vector_of xs c) (h ++ [Threw (event_of i)]).
Proof.
  intros Hc Hi. unfold PushBack, EmplaceBack, mbind, M_bind.
  replace (size_ (vector_of xs c)) with (length xs) by done.
  rewrite Emplace_at_end_narrowed, Hi by done.
  by destruct (decide (length xs = 0)).
Qed.

Lemma PushBack_in_place xs c i h :
  length xs < c → int_position (length xs) →
  PushBack i (vector_of xs c) h
  = if completes h (event_of i) then
      Returned tt (vector_of (xs ++ [value_of i]) c) (h ++ [Did (event_of i)])
    else if decide (length xs = 0) then
      Thrown (released c) (h ++ [Threw (event_of i); Did OperatorDelete])
    else
      Undefined (vector_of xs c) (h ++ [Threw (event_of i)]).
Proof.
  intros Hc Hp. unfold PushBack, EmplaceBack, mbind, M_bind.
  replace (size_ (vector_of xs c)) with (length xs) by done.
  rewrite Emplace_at_end_in_place by done.
  destruct (completes h (event_of i)).
  - rewrite dereference_vector_of with (x := value_of i); [done| |].
    + rewrite length_app. simpl. lia.
    + by apply list_lookup_middle.
  - by destruct (decide (length xs = 0)).
Qed.

(** X9. With spare capacity for all of them, a sequence of [PushBack]
    calls that leaves at most [2^31] elements appends the values in order
    and makes one constructor call for each and no other call: nothing is
    allocated, moved, copied or destroyed, and the capacity stays. *)
Theorem PushBack_each_within_capacity xs c args h :
  length xs + length args ≤ c →
  (Z.of_nat (length xs + length args) ≤ 2 ^ 31)%Z →
  match PushBack_each args (vector_of xs c) h with
  | Returned _ v' h' =>
      v' = vector_of (xs ++ (value_of <$> args)) c ∧
      h' = h ++ (Did ∘ event_of <$> args)
  | Thrown _ _ | Undefined _ _ => raised
  end.
Proof.
  revert xs h. induction args as [|i args IH]; intros xs h Hc Hp; simpl.
  - by rewrite !app_nil_r.
  - simpl in Hc, Hp. unfold mbind, M_bind.
    rewrite PushBack_in_place by (unfold int_position; lia).
    destruct (completes h (event_of i)) eqn:Hi.
    + specialize (IH (xs ++ [value_of i]) (h ++ [Did (event_of i)])).
      rewrite length_app in IH. simpl in IH. specialize (IH ltac:(lia) ltac:(lia)).
      destruct (PushBack_each args _ _); [|done..].
      destruct IH as [-> ->]. split; reassociate.
    + apply completes_false in Hi as [_ Hr].
      by destruct (decide (length xs = 0)).
Qed.

(** The capacity after one more [PushBack] on a vector grown by doubling. *)
Lemma doubled_ge n : n ≤ doubled n.
Proof.
  unfold doubled. destruct (decide (n = 0)) as [->|Hn]; [done|].
  apply Nat.log2_log2_up_spec. lia.
Qed.

Lemma doubled_S n :
  (if decide (n < doubled n) then doubled n else grown n) = doubled (S n).
Proof.
  pose proof (doubled_ge n) as Hge. unfold doubled in *.
  destruct (decide (n = 0)) as [->|Hn]; [done|].
  rewrite (decide_False (P := S n = 0)) by lia.
  destruct (decide (n = 1)) as [->|Hn1]; [done|].
  pose proof (Nat.log2_up_spec n ltac:(lia)) as [Hlo Hhi].
  assert (0 < Nat.log2_up n) as He by (apply Nat.log2_up_pos; lia).
  destruct (decide (n < 2 ^ Nat.log2_up n)) as [Hlt|Hfull].
  - f_equal. symmetry. apply Nat.log2_up_unique; [done|]. lia.
  - assert (n = 2 ^ Nat.log2_up n) as Heq by lia.
    unfold grown. rewrite decide_False by done.
    rewrite (Nat.log2_up_unique (S n) (S (Nat.log2_up n))).
    + rewrite Nat.pow_succ_r'. lia.
    + lia.
    + simpl Nat.pred. rewrite Nat.pow_succ_r'. lia.
Qed.

Lemma doubled_mono m n : m ≤ n → doubled m ≤ doubled n.
Proof.
  intros Hmn. unfold doubled.
  destruct (decide (m = 0)); [lia|]. rewrite decide_False by lia.
  apply Nat.pow_le_mono_r; [done|]. by apply Nat.log2_up_le_mono.
Qed.

Lemma returns_or_raised_PushBack_each args : ∀ xs h,
  (Z.of_nat (length xs + length args) ≤ 2 ^ 31)%Z →
  allocatable (doubled (length xs + length args)) →
  returns_or_raised
    (PushBack_each args (vector_of xs (doubled (length xs))) h)
    (λ _ v' _,
       v' = vector_of (xs ++ (value_of <$> args))
              (doubled (length xs + length args))).
Proof.
  induction args as [|i args IH]; intros xs h Hp Ha; simpl.
  - by rewrite app_nil_r, Nat.add_0_r.
  - simpl in Hp, Ha. eapply returns_or_raised_bind.
    + apply returns_or_raised_PushBack; [apply doubled_ge|unfold int_position; lia|].
      intros Hfull. pose proof (doubled_S (length xs)) as HS.
      rewrite decide_False in HS by done. rewrite HS.
      eapply allocatable_le; [|exact Ha]. apply doubled_mono. lia.
    + cbv beta. intros [] v' h' ->. rewrite doubled_S.
      specialize (IH (xs ++ [value_of i]) h').
      rewrite length_app in IH. simpl in IH.
      rewrite Nat.add_1_r in IH.
      replace (length xs + S (length args)) with (S (length xs) + length args)
        in Hp, Ha by lia.
      specialize (IH Hp Ha).
      destruct (PushBack_each args _ _); simpl in *; [|done..].
      rewrite IH. f_equal; [reassociate|]. f_equal. lia.
Qed.

(** X10. A sequence of at most [2^31] [PushBack] calls on a
    default-constructed vector yields the values in order, in a block whose
    capacity is the least power of two that holds them, when that block
    takes less than [2^64] bytes: the capacity grows 0, 1, 2, 4, 8, ... *)
Theorem PushBack_each_doubles args h :
  (Z.of_nat (length args) ≤ 2 ^ 31)%Z →
  allocatable (doubled (length args)) →
  match PushBack_each args Vector_default h with
  | Returned _ v' _ =>
      v' = vector_of (value_of <$> args) (doubled (length args)) ∧
      elements v' = value_of <$> args ∧
      Size v' = length args ∧
      Capacity v' = doubled (length args)
  | Thrown _ _ | Undefined _ _ => raised
  end.
Proof.
  intros Hp Ha.
  pose proof (returns_or_raised_PushBack_each args [] h Hp Ha) as H.
  change (vector_of [] (doubled (length (@nil T)))) with Vector_default in H.
  destruct (PushBack_each args Vector_default h) as [a v' h'| |]; simpl in H; [|done..].
  subst v'. repeat split.
  - apply elements_vector_of. rewrite length_fmap. apply doubled_ge.
  - unfold Size. simpl. by rewrite length_fmap.
Qed.

(** X11. When the constructor call of a [PushBack] with spare capacity
    throws, the handler passes [end()] to [operator delete].  On a vector
    that holds elements this is a pointer into the block, and the behaviour
    is undefined.  On an empty vector it is the block itself: the block is
    released while [buffer_] keeps its address, so the destructor releases
    it a second time and a later [PushBack] constructs into released
    memory. *)
Theorem PushBack_in_place_failure {S} xs c i (s : S) h :
  length xs < c →
  noexcept (event_of i) = false → throws h (event_of i) = true →
  (xs = [] →
     PushBack i (vector_of xs c) h
     = Thrown (released c) (h ++ [Threw (event_of i); Did OperatorDelete])) ∧
  (xs ≠ [] →
     PushBack i (vector_of xs c) h
     = Undefined (vector_of xs c) (h ++ [Threw (event_of i)])) ∧
  (∀ h', Vector_delete (released c) s h' = Undefined s h') ∧
  (∀ j h', PushBack j (released c) h' = Undefined (released c) h').
Proof.
  intros Hc Hn Ht.
  assert (completes h (event_of i) = false) as Hi
    by (unfold completes; by rewrite Hn, Ht).
  repeat split.
  - intros ->. by rewrite PushBack_in_place_throws.
  - intros Hxs. rewrite PushBack_in_place_throws by done.
    rewrite decide_False; [done|]. by destruct xs.
  - intros j h'. unfold PushBack, EmplaceBack, Emplace, mbind, M_bind.
    cbn [released size_ Capacity RawMemory_Capacity data_ capacity_].
    rewrite decide_True by done. rewrite decide_True by lia.
    done.
Qed.

(** X12. [EmplaceBack] on a vector of less than [2^31] elements, whose
    grown block takes less than [2^64] bytes when it is full, returns a
    reference to the element it has appended: the value built from the
    arguments, which is then the last element of the vector. *)
Theorem EmplaceBack_returns_new_element xs c i h :
  length xs ≤ c →
  int_position (length xs) →
  (¬ length xs < c → allocatable (grown (length xs))) →
  match EmplaceBack i (vector_of xs c) h with
  | Returned x v' _ =>
      x = value_of i ∧
      v' = vector_of (xs ++ [value_of i])
             (if decide (length xs < c) then c else grown (length xs)) ∧
      Size v' = length xs + 1 ∧
      subscript (Size v' - 1) v' = Some x
  | Thrown _ _ | Undefined _ _ => raised
  end.
Proof.
  intros Hc Hp Ha. unfold EmplaceBack.
  replace (size_ (vector_of xs c)) with (length xs) by done.
  pose proof (grown_gt (length xs)) as Hg.
  pose proof (returns_or_raised_Emplace xs [] c i h) as He.
  rewrite app_nil_r in He. specialize (He Hc Hp Ha).
  unfold mbind, M_bind.
  destruct (Emplace (length xs) i (vector_of xs c) h) as [p v' h'| |];
    simpl in He; [|done..].
  destruct He as [-> ->].
  set (c' := if decide (length xs < c) then c else grown (length xs)).
  assert (length xs < c') as Hc' by (unfold c'; destruct (decide (length xs < c)); lia).
  assert (length (xs ++ [value_of i]) = length xs + 1) as Hlen
    by (rewrite length_app; simpl; lia).
  rewrite dereference_vector_of with (x := value_of i);
    [|lia|by apply list_lookup_middle].
  split; [done|]. split; [done|]. split; [done|].
  rewrite subscript_vector_of by lia.
  unfold Size, vector_of. cbn [size_]. rewrite Hlen.
  replace (length xs + 1 - 1) with (length xs) by lia.
  by apply list_lookup_middle.
Qed.

(** Past [2^31] elements the position of [end()] is a negative [int]: the
    new element is constructed at [end()], and [begin() + position] is
    undefined. *)
Lemma Emplace_at_end_beyond_int xs c pos i h :
  pos = length xs → pos < c →
  completes h (event_of i) = true →
  (to_int (Z.of_nat pos) < 0)%Z →
  Emplace pos i (vector_of xs c) h
  = Undefined (vector_of (xs ++ [value_of i]) c) (h ++ [Did (event_of i)]).
Proof.
  intros -> Hc Hi Hneg. rewrite Emplace_at_end_narrowed, Hi by done.
  unfold pointer_add. by rewrite decide_False by lia.
Qed.

(** ** Insertion before the end *)

Lemma calls_move_backward_loop xs : ∀ pre y post h last d_last,
  last = length pre + length xs → d_last = S last →
  outcome
    (move_backward_loop last d_last (length xs)
       (pre ++ (Live <$> xs) ++ Live y :: post) h)
    (λ _ cs' h',
       cs' = pre ++ Live (vacated y xs) :: (Live <$> xs) ++ post ∧
       h' = h ++ shift_events y (reverse xs))
    (λ _ _, raised).
Proof.
  induction xs as [|x xs IH] using rev_ind; intros pre y post h last d_last -> ->.
  - simpl. by rewrite app_nil_r.
  - rewrite length_app. simpl. rewrite Nat.add_1_r. simpl.
    rewrite Nat.sub_0_r.
    replace (length pre + S (length xs) - 1) with (length pre + length xs) by lia.
    eapply outcome_bind.
    + rewrite fmap_app, <- app_assoc, app_assoc. simpl.
      apply move_assign_at_adjacent;
        rewrite ?length_app, ?length_fmap; lia.
    + cbv beta. intros [] cs' h' (-> & ->).
      rewrite <- app_assoc.
      eapply outcome_mono; [by apply IH| |done].
      cbv beta. intros [] cs' h' (-> & ->).
      rewrite vacated_snoc, fmap_app, reverse_snoc. simpl. split; reassociate.
Qed.

Lemma calls_move_backward pre xs y post h first last d_last :
  first = length pre → last = length pre + length xs → d_last = S last →
  outcome
    (move_backward first last d_last (pre ++ (Live <$> xs) ++ Live y :: post) h)
    (λ _ cs' h',
       cs' = pre ++ Live (vacated y xs) :: (Live <$> xs) ++ post ∧
       h' = h ++ shift_events y (reverse xs))
    (λ _ _, raised).
Proof.
  intros -> -> ->. unfold move_backward.
  rewrite decide_True by lia.
  replace (length pre + length xs - length pre) with (length xs) by lia.
  by apply calls_move_backward_loop.
Qed.

(** The [try] block of [EmplaceWithoutRelocation] before the last element
    [z], with the calls it makes. *)
Lemma calls_EmplaceWithoutRelocation_try xs1 xs2 z c i h :
  length (xs1 ++ xs2 ++ [z]) < c → int_position (length xs1) →
  outcome
    (EmplaceWithoutRelocation_try (length xs1) i (vector_of (xs1 ++ xs2 ++ [z]) c) h)
    (λ _ v' h',
       v' = vector_with (slots (xs1 ++ value_of i :: xs2 ++ [z]) c) c
              (length (xs1 ++ xs2 ++ [z])) ∧
       h' = h ++ [Did (event_of i); Did (MoveConstruct z)] ++
            shift_events (moved_from z) (reverse xs2) ++
            [Did (MoveAssign (vacated (moved_from z) xs2) (value_of i));
             Did (Destroy (moved_from (value_of i)))])
    (λ _ _, raised).
Proof.
  intros Hc Hp. rewrite vector_of_with.
  rewrite EmplaceWithoutRelocation_try_position by done.
  rewrite size_vector_with.
  set (k := length (xs1 ++ xs2 ++ [z])). fold k in Hc.
  assert (k = length xs1 + (length xs2 + 1)) as Hk
    by (unfold k; rewrite !length_app; done).
  rewrite decide_True by lia.
  eapply outcome_bind.
  { unfold construct_local. eapply outcome_bind.
    - eapply outcome_mono; [apply outcome_call|intros ? ? ? HP; exact HP|].
      cbv beta. by intros ? ? (_ & _ & _ & ?).
    - cbv beta. intros [] v' h' (-> & ->). apply outcome_ret.
      instantiate (1 := λ a v' h', a = value_of i ∧
        v' = vector_with (slots (xs1 ++ xs2 ++ [z]) c) c k ∧
        h' = h ++ [Did (event_of i)]). done. }
  cbv beta. intros value v0 h0 (-> & -> & ->).
  eapply (outcome_scope _ _ _ _ _
    (λ _ vx h',
       vx = (vector_with (slots (xs1 ++ value_of i :: xs2 ++ [z]) c) c k,
             moved_from (value_of i)) ∧
       h' = h ++ [Did (event_of i); Did (MoveConstruct z)] ++
            shift_events (moved_from z) (reverse xs2) ++
            [Did (MoveAssign (vacated (moved_from z) xs2) (value_of i))])
    (λ _ _, raised)).
  + eapply outcome_bind.
    { eapply outcome_mono; [|intros ? ? ? HP; exact HP|].
      - apply outcome_on_vector_data; [apply length_slots; fold k; lia|].
        unfold slots. fold k.
        replace (c - k) with (S (c - S k)) by lia.
        rewrite !fmap_app, <- !app_assoc, (app_assoc (Live <$> xs1)). simpl.
        apply move_construct_at_end; rewrite ?length_app, ?length_fmap; lia.
      - cbv beta. by intros ? ? (? & _ & ?). }
    cbv beta. intros [] vx1 h1 (cs1 & -> & -> & ->).
    eapply outcome_bind.
    { eapply outcome_mono; [|intros ? ? ? HP; exact HP|].
      - apply outcome_on_vector_data.
        + rewrite !length_app, !length_fmap. simpl. rewrite length_replicate. lia.
        + rewrite <- app_assoc.
          apply (calls_move_backward (Live <$> xs1) xs2);
            rewrite ?length_fmap; lia.
      - cbv beta. by intros ? ? (? & _ & ?). }
    cbv beta. intros [] vx2 h2 (cs2 & -> & -> & ->).
    eapply outcome_mono.
    * apply outcome_assign_local_to_data; [by rewrite length_fmap|].
      rewrite !length_app, !length_fmap. simpl.
      rewrite length_app, length_fmap. simpl. rewrite length_replicate. lia.
    * cbv beta. intros [] vx3 h3 (-> & ->). split; [|reassociate]. f_equal. f_equal.
      unfold slots. rewrite !fmap_app. simpl. rewrite !fmap_app. simpl.
      reassociate. simpl. do 4 f_equal.
      rewrite !length_app. simpl. rewrite length_app. simpl. f_equal. lia.
    * done.
  + cbv beta. intros [] v4 x h4 (Hv & ->). simplify_eq.
    unfold destroy_local.
    eapply outcome_mono; [apply outcome_call| |].
    * intros [] ? ? (-> & ->). split; [done|]. reassociate.
    * cbv beta. by intros ? ? (_ & _ & _ & ?).
  + cbv beta. intros v5 x h5 Hr. unfold destroy_local.
    eapply outcome_mono; [apply outcome_call| |]; by intros.
Qed.

(** X13. An [Emplace] at a position below [2^31], before the end of a
    vector with spare capacity, makes these calls and no other: the construction of a temporary from the
    arguments, the move construction of the last element into the free slot
    behind it, one move assignment for each element between the position
    and the last, back to front, the move assignment of the temporary into
    the position, and the destruction of the temporary.  Nothing is
    allocated, and the elements before the position are not touched. *)
Theorem Emplace_in_place_calls xs1 xs2 z c i h :
  length (xs1 ++ xs2 ++ [z]) < c → int_position (length xs1) →
  match Emplace (length xs1) i (vector_of (xs1 ++ xs2 ++ [z]) c) h with
  | Returned p v' h' =>
      p = length xs1 ∧
      v' = vector_of (xs1 ++ value_of i :: xs2 ++ [z]) c ∧
      h' = h ++ [Did (event_of i); Did (MoveConstruct z)] ++
           shift_events (moved_from z) (reverse xs2) ++
           [Did (MoveAssign (vacated (moved_from z) xs2) (value_of i));
            Did (Destroy (moved_from (value_of i)))]
  | Thrown _ _ | Undefined _ _ => raised
  end.
Proof.
  intros Hc Hp.
  assert (returns_or_raised
    (Emplace (length xs1) i (vector_of (xs1 ++ xs2 ++ [z]) c) h)
    (λ p v' h',
       p = length xs1 ∧
       v' = vector_of (xs1 ++ value_of i :: xs2 ++ [z]) c ∧
       h' = h ++ [Did (event_of i); Did (MoveConstruct z)] ++
            shift_events (moved_from z) (reverse xs2) ++
            [Did (MoveAssign (vacated (moved_from z) xs2) (value_of i));
             Did (Destroy (moved_from (value_of i)))])) as H.
  { rewrite Emplace_position by done.
    replace (size_ (vector_of (xs1 ++ xs2 ++ [z]) c))
      with (length (xs1 ++ xs2 ++ [z])) by done.
    replace (Capacity (vector_of (xs1 ++ xs2 ++ [z]) c)) with c by done.
    rewrite decide_True by (rewrite length_app; lia).
    rewrite decide_True by done.
    eapply returns_or_raised_bind.
    - apply returns_or_raised_try_catch.
      + apply EmplaceWithoutRelocation_catch_rethrows.
      + by apply calls_EmplaceWithoutRelocation_try.
    - cbv beta. intros [] v' h' (-> & ->). simpl. split; [done|]. split; [|done].
      rewrite vector_of_with. unfold vector_with. f_equal.
      rewrite !length_app. simpl. rewrite !length_app. simpl. lia. }
  by destruct (Emplace _ _ _ h).
Qed.

Lemma relocated_from_all b (xs : list T) :
  relocated_from b (length xs) xs = if b then moved_from <$> xs else xs.
Proof.
  unfold relocated_from. destruct b; [|done].
  by rewrite take_ge, drop_ge, app_nil_r by lia.
Qed.

Lemma relocated_from_app_l b j (xs1 xs2 : list T) :
  j ≤ length xs1 →
  relocated_from b j xs1 ++ xs2 = relocated_from b j (xs1 ++ xs2).
Proof.
  intros Hj. unfold relocated_from. destruct b; [|done].
  by rewrite take_app_le, drop_app_le, app_assoc by done.
Qed.

Lemma relocated_from_app_r (b : bool) j (xs1 xs2 : list T) :
  (if b then moved_from <$> xs1 else xs1) ++ relocated_from b j xs2
  = relocated_from b (length xs1 + j) (xs1 ++ xs2).
Proof.
  unfold relocated_from. destruct b; [|done].
  by rewrite take_app_add, drop_app_add, fmap_app, app_assoc.
Qed.

(** [EmplaceWithRelocation], with the calls it makes and the elements it
    leaves when it throws. *)
Lemma throwing_EmplaceWithRelocation xs1 xs2 c i h :
  length (xs1 ++ xs2) ≤ c →
  int_position (length xs1) → allocatable (grown (length (xs1 ++ xs2))) →
  let by_move := is_nothrow_move_constructible || negb is_copy_constructible in
  let n := grown (length (xs1 ++ xs2)) in
  outcome (EmplaceWithRelocation (length xs1) i (vector_of (xs1 ++ xs2) c) h)
    (λ _ v' h',
       v' = vector_with (slots (xs1 ++ value_of i :: xs2) n) n (length (xs1 ++ xs2)))
    (λ v' h',
       (v' = vector_of (xs1 ++ xs2) c ∧ h' = h ++ [Threw (OperatorNew n)]) ∨
       (v' = vector_of (xs1 ++ xs2) c ∧
        noexcept (event_of i) = false ∧
        h' = h ++ [Did (OperatorNew n); Threw (event_of i); Did OperatorDelete]) ∨
       ∃ j x, (xs1 ++ xs2) !! j = Some x ∧
         noexcept (relocation by_move x) = false ∧
         v' = vector_of (relocated_from by_move j (xs1 ++ xs2)) c ∧
         h' = h ++ [Did (OperatorNew n); Did (event_of i)] ++
              (Did ∘ relocation by_move <$> take j (xs1 ++ xs2)) ++
              [Threw (relocation by_move x)] ++
              (Did ∘ Destroy <$>
                 drop (if decide (j < length xs1) then 0 else length xs1)
                      (take j (xs1 ++ xs2))) ++
              [Did OperatorDelete]).
Proof.
  intros Hc Hp Ha by_move n.
  rewrite EmplaceWithRelocation_unfold; [|done|by apply allocatable_grown].
  fold by_move. rewrite vector_of_with, size_vector_with. fold (grown (length (xs1 ++ xs2))).
  fold n. pose proof (grown_gt (length (xs1 ++ xs2))) as Hn. fold n in Hn.
  rewrite length_app in Hn, Hc.
  set (k := length (xs1 ++ xs2)).
  assert (k = length xs1 + length xs2) as Hk by apply length_app.
  eapply outcome_bind.
  { eapply outcome_mono; [by apply throwing_RawMemory_new|intros ? ? ? HP; exact HP|].
    cbv beta. intros v' h' (-> & _ & ->). by left. }
  cbv beta. intros new_data v' h' (-> & -> & ->).
  rewrite decide_False by lia.
  set (v := vector_with (slots (xs1 ++ xs2) c) c k).
  set (h1 := h ++ [Did (OperatorNew n)]).
  eapply (outcome_scope _ _ _ _ _
    (λ _ vn h',
       vn = (vector_with (slots (xs1 ++ value_of i :: xs2) n) n k,
             memory_of (replicate c Raw) c))
    (λ vn h',
       (∃ cs, vn.2 = memory_of cs n) ∧
       ((vn.1 = v ∧ noexcept (event_of i) = false ∧ h' = h1 ++ [Threw (event_of i)]) ∨
        ∃ j x, (xs1 ++ xs2) !! j = Some x ∧
          noexcept (relocation by_move x) = false ∧
          vn.1 = vector_of (relocated_from by_move j (xs1 ++ xs2)) c ∧
          h' = h1 ++ [Did (event_of i)] ++
               (Did ∘ relocation by_move <$> take j (xs1 ++ xs2)) ++
               [Threw (relocation by_move x)] ++
               (Did ∘ Destroy <$>
                  drop (if decide (j < length xs1) then 0 else length xs1)
                       (take j (xs1 ++ xs2)))))).
  - (* the new element *)
    eapply outcome_bind.
    { eapply outcome_mono; [|intros ? ? ? HP; exact HP|].
      - apply outcome_on_new_data; [by apply length_replicate|].
        unfold construct_at. rewrite lookup_replicate_2 by lia.
        apply outcome_call.
      - cbv beta. intros vn h' (cs & -> & -> & -> & Hnt & _).
        split; [by eexists|]. left. done. }
    cbv beta. intros [] vn h' (cs & -> & -> & ->).
    rewrite insert_replicate_lt by lia.
    (* the elements before and after it *)
    eapply outcome_bind.
    { eapply outcome_bind.
      - eapply outcome_mono; [|intros ? ? ? HP; exact HP|].
        + apply (rollback_relocate_n by_move [] xs1
                   ((Live <$> xs2) ++ replicate (c - k) Raw)
                   [] (Live (value_of i) :: replicate (n - S (length xs1)) Raw));
            try done.
          * unfold slots. by rewrite fmap_app, <- app_assoc.
          * apply length_slots. lia.
          * simpl. rewrite length_app, !length_replicate. simpl.
            rewrite length_replicate. lia.
        + cbv beta. intros vn h' (j & x & Hx & -> & -> & Hnt).
          pose proof (lookup_lt_Some _ _ _ Hx) as Hj.
          split; [by eexists|]. right. exists j, x.
          split; [by apply lookup_app_l_Some|]. split; [done|]. split.
          * cbn [fst]. rewrite vector_of_with. unfold slots. simpl.
            rewrite <- relocated_from_app_l by lia.
            rewrite length_app, length_relocated_from, fmap_app, <- app_assoc.
            by rewrite <- Hk.
          * rewrite decide_True by done. rewrite drop_0, take_app_le by lia.
            unfold rolled_back. reassociate.
      - cbv beta. intros [] vn h' (-> & ->).
        rewrite relocated_from_all.
        eapply outcome_mono; [|intros ? ? ? HP; exact HP|].
        + apply (rollback_relocate_n by_move
                   (Live <$> (if by_move then moved_from <$> xs1 else xs1)) xs2
                   (replicate (c - k) Raw)
                   ((Live <$> xs1) ++ [Live (value_of i)])
                   (replicate (n - S k) Raw)).
          * by rewrite length_fmap, length_residue.
          * lia.
          * rewrite length_app, length_fmap. simpl. lia.
          * done.
          * simpl. rewrite <- app_assoc. simpl. do 2 f_equal.
            rewrite <- replicate_add. f_equal. lia.
          * rewrite !length_app, !length_fmap, length_replicate, length_residue.
            simpl. lia.
          * simpl. rewrite !length_app, !length_fmap, ?length_replicate. simpl.
            rewrite ?length_app, ?length_fmap, ?length_replicate. simpl. lia.
        + cbv beta. intros vn h' (j & x & Hx & -> & -> & Hnt).
          split; [by eexists|]. right. exists (length xs1 + j), x.
          split; [by rewrite lookup_app_r, Nat.add_comm, Nat.add_sub by lia|].
          split; [done|]. split.
          * cbn [fst]. rewrite vector_of_with. unfold slots. simpl.
            rewrite <- relocated_from_app_r.
            rewrite length_app, length_residue, length_relocated_from,
              fmap_app, <- app_assoc.
            by rewrite <- Hk.
          * rewrite decide_False by lia.
            rewrite take_app_add, drop_app_length, fmap_app.
            unfold rolled_back. reassociate. }
    cbv beta. intros [] vn h' (-> & ->).
    rewrite relocated_from_all.
    rewrite (app_assoc (Live <$> _)), <- fmap_app, residue_app.
    eapply outcome_bind.
    { eapply outcome_mono; [|intros ? ? ? HP; exact HP|].
      - apply outcome_on_this.
        + rewrite length_app, length_fmap, length_residue, length_replicate. lia.
        + apply outcome_Returned.
          replace k with (length (if by_move then moved_from <$> xs1 ++ xs2 else xs1 ++ xs2))
            at 1 by apply length_residue.
          apply (destroy_n_live []).
      - simpl. by intros ? ? (? & ? & []). }
    cbv beta. intros [] vn h' (cs' & -> & _ & -> & ->).
    rewrite swap_new_data_with. simpl.
    do 2 f_equal.
    + unfold slots. rewrite fmap_app, <- !app_assoc. simpl.
      replace (length (xs1 ++ value_of i :: xs2)) with (S k); [done|].
      rewrite length_app. simpl. lia.
    + rewrite length_residue. apply replicate_add_sub. lia.
  - cbv beta. intros [] v' nd h' Heq. simplify_eq.
    by rewrite RawMemory_delete_memory_of.
  - cbv beta. intros v' nd h' ((cs & Hnd) & Hcases). simpl in *. subst nd.
    rewrite RawMemory_delete_memory_of. simpl.
    destruct Hcases as [(-> & Hnt & ->) | (j & x & Hx & Hnt & -> & ->)].
    + right. left. split; [done|]. split; [done|]. unfold h1. reassociate.
    + right. right. exists j, x. do 3 (split; [done|]). unfold h1. reassociate.
Qed.

(** X14. An [Emplace] on a full vector, at a position below [2^31] and
    with a grown block of less than [2^64] bytes, when it throws, leaves size
    and capacity as they were and the new block released.  The elements are
    untouched when the type can be copied or its move constructor cannot
    throw, whichever call threw; for the other types the elements relocated
    before the failure are left moved-from.  When the relocation of an
    element throws, the elements relocated before it in the same range,
    before or after the position, are destroyed in the new block; the new
    element, and the range before the position once it is complete, are
    released with the block without a destructor call. *)
Theorem Emplace_full_failure xs c pos i h :
  length xs = c → pos ≤ length xs →
  int_position pos → allocatable (grown c) →
  let by_move := is_nothrow_move_constructible || negb is_copy_constructible in
  match Emplace pos i (vector_of xs c) h with
  | Returned _ _ _ => True
  | Thrown v' h' =>
      (is_nothrow_move_constructible = true ∨ is_copy_constructible = true →
       v' = vector_of xs c) ∧
      ((v' = vector_of xs c ∧ h' = h ++ [Threw (OperatorNew (grown c))]) ∨
       (v' = vector_of xs c ∧
        h' = h ++ [Did (OperatorNew (grown c)); Threw (event_of i); Did OperatorDelete]) ∨
       ∃ j x, xs !! j = Some x ∧
         v' = vector_of (relocated_from by_move j xs) c ∧
         h' = h ++ [Did (OperatorNew (grown c)); Did (event_of i)] ++
              (Did ∘ relocation by_move <$> take j xs) ++
              [Threw (relocation by_move x)] ++
              (Did ∘ Destroy <$> drop (if decide (j < pos) then 0 else pos) (take j xs)) ++
              [Did OperatorDelete])
  | Undefined _ _ => False
  end.
Proof.
  intros Hfull Hpos Hp Ha by_move.
  pose proof (throwing_EmplaceWithRelocation (take pos xs) (drop pos xs) c i h) as H.
  rewrite take_drop, length_take, Nat.min_l in H by done.
  rewrite Hfull in H.
  specialize (H ltac:(lia) Hp Ha). cbv zeta in H. fold by_move in H.
  rewrite Emplace_position by done.
  replace (size_ (vector_of xs c)) with (length xs) by done.
  replace (Capacity (vector_of xs c)) with c by done.
  rewrite decide_True by done. rewrite decide_False by lia.
  unfold mbind, M_bind.
  destruct (EmplaceWithRelocation pos i (vector_of xs c) h) as [|v' h'|]; simpl in H;
    [done| |done].
  destruct H as [[-> ->] | [(-> & _ & ->) | (j & x & Hx & Hnt & -> & ->)]].
  - split; [done|]. by left.
  - split; [done|]. right. by left.
  - split; [|right; right; by exists j, x].
    intros Hsafe. unfold by_move in *.
    by rewrite (relocated_from_unchanged j x xs Hnt Hsafe).
Qed.

(** X22. An [Emplace] of a value at a position [pos] below [2^31] of the
    sequence [xs], in place or into a grown block of less than [2^64] bytes,
    yields [take pos xs ++ value :: drop pos xs], one element more, and
    returns the position [pos], which denotes the new element.  [Insert]
    does so with a copy of its argument, by its copy constructor, and with
    an argument it may move from, by its move constructor.  The call returns
    unless some call it makes throws. *)
Theorem Emplace_inserts_at_position xs c pos i x h :
  length xs ≤ c → pos ≤ length xs →
  int_position pos →
  (¬ length xs < c → allocatable (grown (length xs))) →
  inserted xs c pos (value_of i) (Emplace pos i (vector_of xs c) h) ∧
  inserted xs c pos x (Insert pos x (vector_of xs c) h) ∧
  inserted xs c pos x (Insert_rvalue pos x (vector_of xs c) h) ∧
  (length xs < c → pos = length xs →
     ∀ p v' h',
       (Insert pos x (vector_of xs c) h = Returned p v' h' →
        h' = h ++ [Did (CopyConstruct x)]) ∧
       (Insert_rvalue pos x (vector_of xs c) h = Returned p v' h' →
        h' = h ++ [Did (MoveConstruct x)])).
Proof.
  intros Hc Hpos Hp Ha.
  assert (∀ j, inserted xs c pos (value_of j) (Emplace pos j (vector_of xs c) h)) as H.
  { intros j.
    pose proof (returns_or_raised_Emplace (take pos xs) (drop pos xs) c j h) as H.
    rewrite take_drop, length_take, Nat.min_l in H by done.
    specialize (H Hc Hp Ha). unfold inserted.
    destruct (Emplace pos j (vector_of xs c) h) as [p v' h'| |]; simpl in H; [|done..].
    destruct H as (-> & ->).
    assert (length (take pos xs ++ value_of j :: drop pos xs) = length xs + 1) as Hlen.
    { rewrite length_app, length_take. simpl. rewrite length_drop. lia. }
    assert (length (take pos xs ++ value_of j :: drop pos xs)
            ≤ (if decide (length xs < c) then c else grown (length xs))) as Hcap.
    { rewrite Hlen. pose proof (grown_gt (length xs)).
      destruct (decide (length xs < c)); lia. }
    repeat split.
    - by apply elements_vector_of.
    - done.
    - rewrite subscript_vector_of by done.
      apply list_lookup_middle. rewrite length_take. lia. }
  split; [apply H|]. split; [apply (H (from_copy x))|].
  split; [apply (H (from_move x))|].
  intros Hlt -> p v' h'. unfold Insert, Insert_rvalue.
  rewrite !Emplace_at_end_in_place by done.
  split; intros Heq; destruct (completes h _); [|destruct (decide _)| |destruct (decide _)];
    by simplify_eq.
Qed.

(** ** Erase *)

(** X15. [Erase] at the position of the last element, a position below
    [2^31], moves nothing: it does what [PopBack] does, one destructor call
    on the last element. *)
Theorem Erase_last_is_PopBack xs x c h :
  length (xs ++ [x]) ≤ c → int_position (length xs) →
  Erase (length xs) (vector_of (xs ++ [x]) c) h
  = Returned (length xs) (vector_of xs c) (h ++ [Did (Destroy x)]) ∧
  PopBack (vector_of (xs ++ [x]) c) h
  = Returned tt (vector_of xs c) (h ++ [Did (Destroy x)]).
Proof.
  intros Hc Hp. split; [|by apply PopBack_nonempty].
  rewrite length_app in Hc. simpl in Hc.
  rewrite Erase_position by done. rewrite vector_of_with, size_vector_with.
  rewrite length_app. simpl.
  rewrite decide_True by lia.
  unfold mbind, M_bind, on_data, zoom. rewrite data_vector_with.
  rewrite cells_memory_of by (apply length_slots; rewrite length_app; simpl; lia).
  unfold std_move. rewrite decide_True by lia.
  replace (length xs + 1 - (length xs + 1)) with 0 by lia. simpl.
  rewrite set_cells_memory_of, cells_memory_of
    by (apply length_slots; rewrite length_app; simpl; lia).
  unfold destroy_at, slots.
  rewrite fmap_app, <- app_assoc. simpl.
  replace (length xs + 1 - 1) with (length (Live <$> xs))
    by (rewrite length_fmap; lia).
  rewrite list_lookup_middle by done.
  unfold call, completes. simpl.
  rewrite insert_middle, set_cells_memory_of.
  unfold decrement_size, set_size. simpl. f_equal.
  rewrite vector_of_with. unfold vector_with, slots. f_equal.
  - f_equal. f_equal.
    change (Raw :: replicate (c - length (xs ++ [x])) Raw)
      with (replicate (S (c - length (xs ++ [x]))) Raw).
    f_equal. rewrite length_app. simpl. lia.
  - lia.
Qed.

(** A position that narrows to a negative [int]: [begin() + position] is
    undefined, and nothing has been done. *)
Lemma Erase_beyond_int pos v h :
  pos ≤ size_ v → (to_int (Z.of_nat pos) < 0)%Z →
  Erase pos v h = Undefined v h.
Proof.
  intros Hpos Hneg. unfold Erase. rewrite decide_True by done.
  unfold pointer_add. by rewrite decide_False by lia.
Qed.

(** A position that narrows to [p] is erased as [p] is. *)
Lemma Erase_narrowed pos p v h :
  pos ≤ size_ v → to_int (Z.of_nat pos) = Z.of_nat p →
  Erase pos v h = Erase p v h.
Proof.
  intros Hpos Hp.
  assert (int_position p ∧ p ≤ pos) as [Hi Hle].
  { unfold int_position, to_int in *.
    pose proof (Z.mod_pos_bound (Z.of_nat pos + 2 ^ 31) (2 ^ 32) ltac:(lia)).
    split; [lia|].
    destruct (decide (Z.of_nat pos < 2 ^ 31)%Z) as [Hlt|Hge].
    - rewrite Z.mod_small in Hp by lia. lia.
    - pose proof (Z.mod_le (Z.of_nat pos + 2 ^ 31) (2 ^ 32) ltac:(lia) ltac:(lia)).
      lia. }
  unfold Erase. rewrite !decide_True by lia.
  by rewrite Hp, (to_int_position p).
Qed.


(** X16. [Erase] at [end()], which its assertion admits, is undefined on
    a vector of less than [2^32] elements: it hands [std::move] the range
    from [end() + 1] to [end()], or, from [2^31] elements on, a range that
    starts before the block.  An empty vector has no other position. *)
Theorem Erase_at_end_is_undefined xs c h :
  length xs ≤ c → (Z.of_nat (length xs) < 2 ^ 32)%Z →
  Erase (length xs) (vector_of xs c) h = Undefined (vector_of xs c) h.
Proof.
  intros Hc Hp.
  destruct (decide (Z.of_nat (length xs) < 2 ^ 31)%Z) as [Hlt|Hge].
  - rewrite Erase_position by done. rewrite vector_of_with, size_vector_with.
    rewrite decide_True by lia.
    unfold mbind, M_bind, on_data, zoom. rewrite data_vector_with.
    rewrite cells_memory_of by by apply length_slots.
    unfold std_move. rewrite decide_False by lia.
    unfold undefined. by rewrite set_cells_memory_of.
  - unfold Erase. rewrite vector_of_with, size_vector_with.
    rewrite decide_True by lia.
    unfold pointer_add, to_int.
    replace ((Z.of_nat (length xs) + 2 ^ 31) `mod` 2 ^ 32)%Z
      with (Z.of_nat (length xs) - 2 ^ 31)%Z
      by (apply Z.mod_unique with 1%Z; lia).
    by rewrite decide_False by lia.
Qed.

(** The front-to-back shift of [std::move], with what it leaves when a
    move assignment throws. *)
Lemma throwing_move_assign_at_forward pre (x y : T) post d s h :
  d = length pre → s = S d →
  outcome (move_assign_at d s (pre ++ Live y :: Live x :: post) h)
    (λ _ cs' h',
       cs' = pre ++ Live x :: Live (moved_from x) :: post ∧
       h' = h ++ [Did (MoveAssign y x)])
    (λ cs' h',
       cs' = pre ++ Live y :: Live x :: post ∧ h' = h ++ [Threw (MoveAssign y x)]).
Proof.
  intros -> ->. unfold move_assign_at.
  rewrite lookup_second, list_lookup_middle by done.
  eapply outcome_mono; [apply outcome_call| |].
  - cbv beta. intros [] cs' h' (-> & ->). split; [|done].
    by rewrite insert_second, insert_middle.
  - cbv beta. by intros ? ? (-> & -> & _).
Qed.

Lemma throwing_move_loop xs : ∀ pre y post h first d_first,
  d_first = length pre → first = S d_first →
  outcome
    (move_loop first d_first (length xs)
       (pre ++ Live y :: (Live <$> xs) ++ post) h)
    (λ _ cs' h',
       cs' = pre ++ (Live <$> xs) ++ Live (left_behind y xs) :: post ∧
       h' = h ++ shift_events y xs)
    (λ cs' h',
       ∃ j x, xs !! j = Some x ∧
         cs' = pre ++ (Live <$> take j xs) ++
               Live (left_behind y (take j xs)) :: (Live <$> drop j xs) ++ post ∧
         h' = h ++ shift_events y (take j xs) ++
              [Threw (MoveAssign (left_behind y (take j xs)) x)]).
Proof.
  induction xs as [|x xs IH]; intros pre y post h first d_first -> ->; simpl.
  - by rewrite app_nil_r.
  - eapply outcome_bind.
    + eapply outcome_mono;
        [by apply throwing_move_assign_at_forward|intros ? ? ? HP; exact HP|].
      cbv beta. intros cs' h' (-> & ->). by exists 0, x.
    + cbv beta. intros [] cs1 h1 (-> & ->).
      rewrite (snoc_middle pre).
      eapply outcome_mono.
      * apply IH; rewrite ?length_app; simpl; lia.
      * cbv beta. intros [] cs2 h2 (-> & ->). split; reassociate.
      * cbv beta. intros cs2 h2 (j & x' & Hx' & -> & ->).
        exists (S j), x'. split; [done|]. simpl. split; reassociate.
Qed.

(** [Erase], with what it leaves when a move assignment throws. *)
Lemma throwing_Erase xs1 z xs2 c h :
  length (xs1 ++ z :: xs2) ≤ c → int_position (length xs1) →
  outcome (Erase (length xs1) (vector_of (xs1 ++ z :: xs2) c) h)
    (λ p v' h',
       p = length xs1 ∧
       v' = vector_of (xs1 ++ xs2) c ∧
       h' = h ++ shift_events z xs2 ++ [Did (Destroy (left_behind z xs2))])
    (λ v' h',
       ∃ j x, xs2 !! j = Some x ∧
         v' = vector_of
                (xs1 ++ take j xs2 ++ left_behind z (take j xs2) :: drop j xs2) c ∧
         h' = h ++ shift_events z (take j xs2) ++
              [Threw (MoveAssign (left_behind z (take j xs2)) x)]).
Proof.
  intros Hc Hp. rewrite vector_of_with, Erase_position by done.
  rewrite size_vector_with.
  set (k := length (xs1 ++ z :: xs2)). fold k in Hc.
  assert (k = length xs1 + S (length xs2)) as Hk by apply length_app.
  rewrite decide_True by lia.
  eapply outcome_bind.
  { eapply outcome_mono; [|intros ? ? ? HP; exact HP|].
    - apply outcome_on_data; [by apply length_slots|].
      unfold std_move. rewrite decide_True by lia.
      replace (k - (length xs1 + 1)) with (length xs2) by lia.
      unfold slots. rewrite fmap_app. simpl. rewrite <- !app_assoc. simpl.
      apply throwing_move_loop; rewrite ?length_fmap; lia.
    - cbv beta. intros v' h' (cs' & -> & j & x & Hx & -> & ->).
      exists j, x. split; [done|]. split; [|done].
      assert (length (xs1 ++ take j xs2 ++ left_behind z (take j xs2) :: drop j xs2) = k)
        as Hlen.
      { rewrite !length_app. simpl. rewrite length_take, length_drop.
        apply lookup_lt_Some in Hx. lia. }
      rewrite vector_of_with. unfold slots. rewrite Hlen.
      rewrite !fmap_app. simpl. by rewrite <- !app_assoc. }
  cbv beta. intros [] v1 h1 (cs1 & -> & -> & ->).
  eapply outcome_bind.
  { eapply outcome_mono; [|intros ? ? ? HP; exact HP|].
    - apply outcome_on_data.
      + rewrite !length_app, !length_fmap. simpl. rewrite length_replicate. fold k. lia.
      + unfold destroy_at.
        rewrite app_assoc, list_lookup_middle
          by (rewrite length_app, !length_fmap; lia).
        apply outcome_call.
    - cbv beta. by intros ? ? (? & _ & _ & _ & ? & _). }
  cbv beta. intros [] v2 h2 (cs2 & -> & -> & ->).
  simpl. split; [done|]. split; [|reassociate].
  rewrite vector_of_with. unfold vector_with. f_equal.
  - f_equal.
    replace (k - 1) with (length ((Live <$> xs1) ++ (Live <$> xs2)))
      by (rewrite length_app, !length_fmap; lia).
    rewrite insert_middle. unfold slots.
    rewrite fmap_app, <- !app_assoc. do 2 f_equal.
    fold k.
    replace (c - length (xs1 ++ xs2)) with (S (c - k)); [done|].
    rewrite length_app. lia.
  - rewrite length_app. lia.
Qed.

(** X17. An [Erase] at a position below [2^31] that throws, because a
    move assignment did, destroys nothing and keeps size and capacity.  The elements before the position
    are untouched; of those after it, the ones assigned before the failure
    have moved one slot to the front, the slot where the assignment threw
    holds the erased element or a moved-from one, and the rest are
    untouched. *)
Theorem Erase_failure_leaves_partial_shift xs1 z xs2 c h :
  length (xs1 ++ z :: xs2) ≤ c → int_position (length xs1) →
  match Erase (length xs1) (vector_of (xs1 ++ z :: xs2) c) h with
  | Returned _ _ _ => True
  | Thrown v' h' =>
      ∃ j x, xs2 !! j = Some x ∧
        v' = vector_of
               (xs1 ++ take j xs2 ++ left_behind z (take j xs2) :: drop j xs2) c ∧
        Size v' = length (xs1 ++ z :: xs2) ∧
        h' = h ++ shift_events z (take j xs2) ++
             [Threw (MoveAssign (left_behind z (take j xs2)) x)]
  | Undefined _ _ => False
  end.
Proof.
  intros Hc Hp. pose proof (throwing_Erase xs1 z xs2 c h Hc Hp) as H.
  destruct (Erase _ _ h) as [|v' h'|]; simpl in H; [done| |done].
  destruct H as (j & x & Hx & -> & ->). exists j, x.
  do 2 (split; [done|]). split; [|done].
  unfold Size, vector_of. cbn [size_]. rewrite !length_app. cbn [length].
  rewrite length_take, length_drop.
  apply lookup_lt_Some in Hx. lia.
Qed.

(** X25. [Erase] at a position [pos] below the size and below [2^31]
    shifts the elements after it one slot to the front, by move-assignments
    in order, destroys the last live slot, and returns [pos]; the size drops
    by one, the capacity stays.  It returns unless a move-assignment
    throws. *)
Theorem Erase_removes_at_position xs c pos h :
  length xs ≤ c → pos < length xs → int_position pos →
  match Erase pos (vector_of xs c) h with
  | Returned p v' h' =>
      p = pos ∧
      v' = vector_of (take pos xs ++ drop (S pos) xs) c ∧
      elements v' = take pos xs ++ drop (S pos) xs ∧
      Size v' = length xs - 1 ∧ Capacity v' = c ∧
      ∃ z, xs !! pos = Some z ∧
           h' = h ++ shift_events z (drop (S pos) xs) ++
                [Did (Destroy (left_behind z (drop (S pos) xs)))]
  | Thrown _ _ => raised
  | Undefined _ _ => False
  end.
Proof.
  intros Hc Hpos Hp.
  destruct (lookup_lt_is_Some_2 xs pos Hpos) as [z Hz].
  pose proof (outcome_Erase (take pos xs) z (drop (S pos) xs) c h) as H.
  rewrite take_drop_middle, length_take, Nat.min_l in H by (done || lia).
  specialize (H Hc Hp).
  destruct (Erase pos (vector_of xs c) h); simpl in H; [|done..].
  destruct H as (-> & -> & ->).
  assert (length (take pos xs ++ drop (S pos) xs) = length xs - 1) as Hlen.
  { rewrite length_app, length_take, length_drop. lia. }
  repeat split.
  - apply elements_vector_of. lia.
  - done.
  - by exists z.
Qed.

(** ** Copy assignment in place *)

(** [std::copy_n] over live slots, with what it leaves when a copy
    assignment throws. *)
Lemma throwing_copy_assign_from_middle spre (x : T) spost dpre (y : T) dpost d s h :
  s = length spre → d = length dpre →
  outcome
    (copy_assign_from d s (spre ++ Live x :: spost, dpre ++ Live y :: dpost) h)
    (λ _ sd h',
       sd = (spre ++ Live x :: spost, dpre ++ Live x :: dpost) ∧
       h' = h ++ [Did (CopyAssign y x)])
    (λ sd h',
       sd = (spre ++ Live x :: spost, dpre ++ Live y :: dpost) ∧
       h' = h ++ [Threw (CopyAssign y x)]).
Proof.
  intros -> ->. unfold copy_assign_from. cbn [fst snd].
  rewrite !list_lookup_middle by done.
  eapply outcome_mono; [apply outcome_call| |].
  - cbv beta. intros [] sd h' (-> & ->). cbn [fst snd].
    by rewrite insert_middle.
  - cbv beta. by intros ? ? (-> & -> & _).
Qed.

Lemma throwing_copy_n xs : ∀ ys spre spost dpre dpost h first d_first,
  length ys = length xs →
  first = length spre → d_first = length dpre →
  outcome
    (copy_n first (length xs) d_first
       (spre ++ (Live <$> xs) ++ spost, dpre ++ (Live <$> ys) ++ dpost) h)
    (λ _ sd h',
       sd = (spre ++ (Live <$> xs) ++ spost, dpre ++ (Live <$> xs) ++ dpost) ∧
       h' = h ++ assign_events ys xs)
    (λ sd h',
       ∃ j x y, xs !! j = Some x ∧ ys !! j = Some y ∧
         sd = (spre ++ (Live <$> xs) ++ spost,
               dpre ++ (Live <$> take j xs ++ drop j ys) ++ dpost) ∧
         h' = h ++ assign_events (take j ys) (take j xs) ++ [Threw (CopyAssign y x)]).
Proof.
  induction xs as [|x xs IH];
    intros [|y ys] spre spost dpre dpost h first d_first Hlen -> ->;
    simplify_eq/=.
  - by rewrite app_nil_r.
  - eapply outcome_bind.
    + eapply outcome_mono;
        [by apply throwing_copy_assign_from_middle|intros ? ? ? HP; exact HP|].
      cbv beta. intros sd h' (-> & ->). by exists 0, x, y.
    + cbv beta. intros [] sd1 h1 (-> & ->).
      rewrite (snoc_middle spre), (snoc_middle dpre).
      eapply outcome_mono.
      * apply IH; [done|rewrite length_app; simpl; lia..].
      * cbv beta. intros [] sd2 h2 (-> & ->).
        unfold assign_events. simpl. split; reassociate.
      * cbv beta. intros sd2 h2 (j & x' & y' & Hx' & Hy' & -> & ->).
        exists (S j), x', y'. do 2 (split; [done|]).
        unfold assign_events. simpl. split; reassociate.
Qed.

Lemma throwing_copy_n_slots xs ys spost dpost h n :
  n = length xs → length ys = length xs →
  outcome
    (copy_n 0 n 0 ((Live <$> xs) ++ spost, (Live <$> ys) ++ dpost) h)
    (λ _ sd h',
       sd = ((Live <$> xs) ++ spost, (Live <$> xs) ++ dpost) ∧
       h' = h ++ assign_events ys xs)
    (λ sd h',
       ∃ j x y, xs !! j = Some x ∧ ys !! j = Some y ∧
         sd = ((Live <$> xs) ++ spost,
               (Live <$> take j xs ++ drop j ys) ++ dpost) ∧
         h' = h ++ assign_events (take j ys) (take j xs) ++ [Threw (CopyAssign y x)]).
Proof.
  intros -> Hlen. by apply (throwing_copy_n xs ys [] spost [] dpost).
Qed.

Lemma drop_take_drop {A} (l : list A) j m :
  j ≤ m → drop j (take m l) ++ drop m l = drop j l.
Proof.
  intros Hj.
  assert (drop j l = drop j (take m l ++ drop m l)) as -> by by rewrite take_drop.
  destruct (decide (m ≤ length l)).
  - by rewrite drop_app_le by (rewrite length_take; lia).
  - by rewrite (drop_ge l m), !app_nil_r by lia.
Qed.

(** [operator=] when the right-hand side fits the capacity, with what it
    leaves when it throws. *)
Lemma throwing_copy_assign_fits xs c ys d h :
  length xs ≤ c → length ys ≤ d → length ys ≤ c →
  let m := length xs `min` length ys in
  outcome (copy_assign (other_vector (vector_of ys d)) (vector_of xs c) h)
    (λ _ v' _, v' = vector_of ys c)
    (λ v' h',
       ∃ j, j ≤ m ∧
         v' = vector_with (slots (take j ys ++ drop j xs) c) c (length xs) ∧
         ((∃ x y, xs !! j = Some x ∧ ys !! j = Some y ∧
             h' = h ++ assign_events (take j xs) (take j ys) ++
                  [Threw (CopyAssign x y)]) ∨
          (j = length xs ∧
           ∃ k y, drop j ys !! k = Some y ∧
             h' = h ++ assign_events xs (take j ys) ++
                  rolled_back CopyConstruct (drop j ys) k y))).
Proof.
  intros Hc Hd Hfit m. unfold copy_assign.
  replace (size_ (vector_of xs c)) with (length xs) by done.
  replace (size_ (vector_of ys d)) with (length ys) by done.
  replace (Capacity (vector_of xs c)) with c by done.
  rewrite decide_True by done. fold m.
  eapply outcome_bind.
  { eapply outcome_mono; [|intros ? ? ? HP; exact HP|].
    - rewrite !vector_of_with.
      rewrite (slots_take_drop xs c m), (slots_take_drop ys d m).
      apply outcome_from_other.
      + rewrite <- slots_take_drop. by apply length_slots.
      + rewrite <- slots_take_drop. by apply length_slots.
      + apply throwing_copy_n_slots; rewrite !length_take; lia.
    - cbv beta. intros v' h' (scs & dcs & -> & j & y & x & Hy & Hx & Heq & ->).
      simplify_eq. cbn [app] in *.
      pose proof (lookup_lt_Some _ _ _ Hx) as Hj. rewrite length_take in Hj.
      apply lookup_take_Some in Hx as [Hx _]. apply lookup_take_Some in Hy as [Hy _].
      exists j. split; [lia|]. split.
      + f_equal. unfold slots.
        rewrite !take_take, !Nat.min_l by lia.
        rewrite !fmap_app, <- !app_assoc, (app_assoc (Live <$> drop j _)),
          <- fmap_app, drop_take_drop by lia.
        do 3 f_equal. rewrite length_app, length_take, length_drop. lia.
      + left. exists x, y. do 2 (split; [done|]).
        by rewrite !take_take, !Nat.min_l by lia. }
  cbv beta. intros [] v1 h1 (scs & dcs & -> & Heq & ->). simplify_eq.
  assert (length ((Live <$> take m ys) ++ (Live <$> drop m xs)
                    ++ replicate (c - length xs) Raw) = c) as Hlen1.
  { rewrite !length_app, !length_fmap, length_take, length_drop, length_replicate. lia. }
  eapply outcome_bind.
  { instantiate (1 := λ _ v' _, v' = vector_with (slots ys c) c (length xs)).
    destruct (decide (length ys < length xs)) as [Hlt|Hge].
    - (* shrinking: destroy the tail *)
      assert (m = length ys) as Hm by lia.
      rewrite Hm in Hlen1 |- *. rewrite (take_ge ys) in Hlen1 |- * by lia.
      eapply outcome_mono.
      + apply outcome_on_data; [done|].
        apply outcome_Returned.
        replace (length ys) with (length (Live <$> ys)) at 1 by apply length_fmap.
        replace (length xs - length ys) with (length (drop (length ys) xs))
          by (rewrite length_drop; lia).
        apply destroy_n_live.
      + cbv beta. intros [] v2 h2 (cs & -> & _ & -> & ->).
        f_equal. unfold slots. f_equal.
        rewrite <- replicate_add. f_equal. rewrite length_drop. lia.
      + cbv beta. by intros ? ? (? & _ & []).
    - destruct (decide (length xs < length ys)) as [Hlt|Hge'].
      + (* growing: copy-construct the tail *)
        assert (m = length xs) as Hm by lia.
        rewrite Hm, drop_ge, app_nil_l by lia.
        eapply outcome_mono.
        * rewrite vector_of_with, (slots_take_drop ys d (length xs)).
          apply outcome_from_other.
          -- rewrite <- slots_take_drop. by apply length_slots.
          -- rewrite length_app, length_fmap, length_take, length_replicate. lia.
          -- apply (rollback_uninitialized_copy_n
                      (Live <$> take (length xs) ys) (drop (length xs) ys)
                      (replicate (d - length ys) Raw)
                      (Live <$> take (length xs) ys) (replicate (c - length ys) Raw));
               rewrite ?length_fmap, ?length_take, ?length_drop; try done; try lia.
             f_equal. rewrite <- replicate_add. f_equal. lia.
        * cbv beta. intros [] v2 h2 (scs & dcs & -> & Heq & ->). simplify_eq.
          f_equal. by rewrite (slots_take_drop ys c (length xs)).
        * cbv beta. intros v2 h2 (scs & dcs & -> & Heq & k & y & Hy & ->).
          simplify_eq. exists (length xs). split; [lia|]. split.
          -- f_equal. unfold slots.
             rewrite drop_ge, app_nil_r, length_take by lia.
             by rewrite Nat.min_l by lia.
          -- right. split; [done|]. exists k, y. split; [done|].
             rewrite (take_ge xs) by lia. reassociate.
      + (* equal sizes *)
        assert (length xs = length ys) as Heq by lia.
        unfold skip. simpl.
        f_equal. unfold slots, m.
        rewrite <- Heq, Nat.min_id, take_ge, drop_ge by lia. by rewrite Heq. }
  cbv beta. intros [] v3 h3 ->. unfold set_size. simpl. done.
Qed.

(** X18. A copy assignment in place that throws keeps size and capacity,
    and leaves a mixture: the elements assigned before the failure are those
    of [rhs], the others are untouched.  When the copy construction of a
    missing trailing element throws, every old element has been assigned,
    and the trailing elements constructed so far are destroyed again. *)
Theorem copy_assign_in_place_failure xs c ys d h :
  length xs ≤ c → length ys ≤ d → length ys ≤ c →
  match copy_assign (other_vector (vector_of ys d)) (vector_of xs c) h with
  | Returned _ _ _ => True
  | Thrown v' h' =>
      ∃ j, j ≤ length xs `min` length ys ∧
        v' = vector_of (take j ys ++ drop j xs) c ∧
        Size v' = length xs ∧
        ((∃ x y, xs !! j = Some x ∧ ys !! j = Some y ∧
            h' = h ++ assign_events (take j xs) (take j ys) ++
                 [Threw (CopyAssign x y)]) ∨
         (j = length xs ∧
          ∃ k y, drop j ys !! k = Some y ∧
            h' = h ++ assign_events xs (take j ys) ++
                 rolled_back CopyConstruct (drop j ys) k y))
  | Undefined _ _ => False
  end.
Proof.
  intros Hc Hd Hfit.
  pose proof (throwing_copy_assign_fits xs c ys d h Hc Hd Hfit) as H.
  destruct (copy_assign _ _ h) as [|v' h'|]; simpl in H; [done| |done].
  destruct H as (j & Hj & -> & Hh). exists j.
  assert (length (take j ys ++ drop j xs) = length xs) as Hlen
    by (rewrite length_app, length_take, length_drop; lia).
  split; [done|]. split; [|split; [done|done]].
  rewrite vector_of_with. by rewrite Hlen.
Qed.

(** ** Sequences of operations *)

(** X19. [PushBack] followed by [PopBack] restores the elements of a
    vector of less than [2^31] elements, whose grown block takes less than
    [2^64] bytes when it is full: the vector is the one before, in the same
    block when it had spare capacity and in the block grown for the new
    element otherwise. *)
Theorem PushBack_PopBack_restores xs c i h :
  length xs ≤ c →
  int_position (length xs) →
  (¬ length xs < c → allocatable (grown (length xs))) →
  match (PushBack i ;; PopBack) (vector_of xs c) h with
  | Returned _ v' _ =>
      v' = vector_of xs (if decide (length xs < c) then c else grown (length xs)) ∧
      elements v' = xs
  | Thrown _ _ | Undefined _ _ => raised
  end.
Proof.
  intros Hc Hp Ha. pose proof (returns_or_raised_PushBack xs c i h Hc Hp Ha) as H.
  pose proof (grown_gt (length xs)) as Hg.
  unfold mbind, M_bind.
  destruct (PushBack i (vector_of xs c) h) as [[] v1 h1| |]; simpl in H; [|done..].
  subst v1. rewrite PopBack_nonempty.
  - split; [done|]. apply elements_vector_of.
    destruct (decide (length xs < c)); lia.
  - rewrite length_app. simpl. destruct (decide (length xs < c)); lia.
Qed.

(** X20. [Erase] at the position an [Emplace] returned undoes it, for a
    position below [2^31] and a grown block of less than [2^64] bytes when
    the vector is full: the elements are those before the two calls, in
    their order. *)
Theorem Emplace_Erase_restores xs c pos i h :
  length xs ≤ c → pos ≤ length xs →
  int_position pos →
  (¬ length xs < c → allocatable (grown (length xs))) →
  match (p ← Emplace pos i; Erase p) (vector_of xs c) h with
  | Returned p v' _ =>
      p = pos ∧
      v' = vector_of xs (if decide (length xs < c) then c else grown (length xs)) ∧
      elements v' = xs
  | Thrown _ _ | Undefined _ _ => raised
  end.
Proof.
  intros Hc Hpos Hp Ha.
  pose proof (returns_or_raised_Emplace (take pos xs) (drop pos xs) c i h) as H.
  rewrite take_drop, length_take, Nat.min_l in H by done.
  specialize (H Hc Hp Ha).
  pose proof (grown_gt (length xs)) as Hg.
  unfold mbind, M_bind.
  destruct (Emplace pos i (vector_of xs c) h) as [p v1 h1| |]; simpl in H; [|done..].
  destruct H as [-> ->].
  set (c' := if decide (length xs < c) then c else grown (length xs)).
  assert (length xs < c') as Hc' by (unfold c'; destruct (decide (length xs < c)); lia).
  pose proof (outcome_Erase (take pos xs) (value_of i) (drop pos xs) c' h1) as HE.
  rewrite length_take, Nat.min_l in HE by done.
  assert (length (take pos xs ++ value_of i :: drop pos xs) ≤ c') as Hlen.
  { rewrite length_app, length_take. simpl. rewrite length_drop. lia. }
  specialize (HE Hlen Hp).
  destruct (Erase pos _ h1) as [p v2 h2| |]; simpl in HE; [|done..].
  destruct HE as (-> & -> & _). rewrite take_drop.
  repeat split. apply elements_vector_of. lia.
Qed.

(** ** The capacity only grows *)

Lemma never_shrinks_on_data {A} (m : M (list slot) A) : never_shrinks (on_data m).
Proof.
  intros v h. eapply settles_mono; [by apply every_state_on_data| |]; cbv beta;
    unfold counters; intros; simplify_eq; lia.
Qed.

Lemma never_shrinks_from_other {A} other (m : M (list slot * list slot) A) :
  never_shrinks (from_other other m).
Proof.
  intros v h. eapply settles_mono; [by apply every_state_from_other| |]; cbv beta;
    unfold counters; intros; simplify_eq; lia.
Qed.

Lemma never_shrinks_bind {A B} (m : M Vector A) (f : A → M Vector B) :
  never_shrinks m → (∀ a, never_shrinks (f a)) → never_shrinks (m ≫= f).
Proof.
  intros Hm Hf v h. specialize (Hm v h). unfold mbind, M_bind.
  destruct (m v h) as [a v1 h1|v1 h1|v1 h1]; simpl in *; [|done..].
  specialize (Hf a v1 h1). destruct (f a v1 h1); simpl in *; lia.
Qed.

Lemma never_shrinks_set_size n : never_shrinks (set_size n).
Proof. intros v h. unfold set_size, Capacity. simpl. lia. Qed.

Lemma never_shrinks_ret {A} (a : A) : never_shrinks (mret a).
Proof. intros v h. simpl. lia. Qed.

Lemma never_shrinks_pointer_add position : never_shrinks (pointer_add position).
Proof. intros v h. unfold pointer_add. destruct (decide _); simpl; lia. Qed.

Lemma never_shrinks_Emplace pos i : never_shrinks (Emplace pos i).
Proof.
  intros v h. unfold Emplace.
  destruct (decide (pos ≤ size_ v)); [|simpl; lia].
  eapply (settles_bind _ _ _ _ (λ _ v', Capacity v ≤ Capacity v')).
  - destruct (decide (size_ v < Capacity v)) as [Hlt|Hge].
    + eapply settles_mono; [apply every_state_EmplaceWithoutRelocation| |];
        cbv beta; unfold counters; intros; simplify_eq; lia.
    + eapply settles_mono; [apply settles_EmplaceWithRelocation| |]; cbv beta.
      * intros _ v' (_ & Hc & _). lia.
      * intros v' [_ [Hc|Hc]]; lia.
  - cbv beta. intros _ v1 h1 H1.
    unfold pointer_add. destruct (decide _); simpl; done.
Qed.

Lemma never_shrinks_EmplaceBack i : never_shrinks (EmplaceBack i).
Proof.
  intros v h. unfold EmplaceBack.
  apply (never_shrinks_bind (Emplace (size_ v) i)); [apply never_shrinks_Emplace|].
  intros p v' h'. unfold dereference.
  destruct (cells (data_ v') ≫= _) as [[]|]; simpl; lia.
Qed.

Lemma never_shrinks_Reserve n : never_shrinks (Reserve n).
Proof.
  intros v h. eapply settles_mono; [apply settles_Reserve| |]; cbv beta.
  - intros _ v' [_ Hc]. lia.
  - by intros v' [_ Hc].
Qed.

Lemma never_shrinks_Resize n : never_shrinks (Resize n).
Proof.
  intros v h. unfold Resize.
  apply (never_shrinks_bind _ (λ _, set_size n)); [|intros; apply never_shrinks_set_size].
  destruct (decide (n < size_ v)); [apply never_shrinks_on_data|].
  apply (never_shrinks_bind _ (λ _, on_data _)); [|intros; apply never_shrinks_on_data].
  destruct (decide (Capacity v < n)); [apply never_shrinks_Reserve|].
  apply never_shrinks_ret.
Qed.

Lemma never_shrinks_PopBack : never_shrinks PopBack.
Proof.
  intros v h. unfold PopBack.
  destruct (decide (size_ v ≠ 0)); [|simpl; lia].
  apply (never_shrinks_bind _ (λ _, decrement_size)); [apply never_shrinks_on_data|].
  intros _ v' h'. apply never_shrinks_set_size.
Qed.

Lemma never_shrinks_Erase pos : never_shrinks (Erase pos).
Proof.
  intros v h. unfold Erase.
  destruct (decide (pos ≤ size_ v)); [|simpl; lia].
  apply never_shrinks_bind; [apply never_shrinks_pointer_add|]. intros first.
  apply (never_shrinks_bind _ (λ _, _ ;; _ ;; _)); [apply never_shrinks_on_data|].
  intros _.
  apply (never_shrinks_bind _ (λ _, _ ;; _)); [apply never_shrinks_on_data|].
  intros _. apply never_shrinks_bind; [|intros; apply never_shrinks_pointer_add].
  intros v' h'. apply never_shrinks_set_size.
Qed.

Lemma never_shrinks_copy_assign rhs : never_shrinks (copy_assign rhs).
Proof.
  intros v h. unfold copy_assign.
  destruct rhs as [|rhs]; [simpl; lia|].
  destruct (decide (size_ rhs ≤ Capacity v)) as [Hfit|Hgrow].
  - apply (never_shrinks_bind _ (λ _, _ ;; _)); [apply never_shrinks_from_other|].
    intros _.
    apply (never_shrinks_bind _ (λ _, set_size _)); [|intros; apply never_shrinks_set_size].
    destruct (decide (size_ rhs < size_ v));
      [|destruct (decide (size_ v < size_ rhs))].
    + apply never_shrinks_on_data.
    + apply never_shrinks_from_other.
    + apply never_shrinks_ret.
  - eapply settles_bind.
    { eapply settles_mono; [apply settles_Vector_copy| |].
      - intros ? ? HP. exact HP.
      - cbv beta. intros ? ->. lia. }
    cbv beta. intros rhs_copy v1 h1 (Hs & Hc & ->).
    unfold scope. cbn [fst snd]. rewrite Swap_swaps.
    pose proof (every_state_Vector_delete v rhs_copy h1) as Hd.
    unfold mbind, M_bind.
    destruct (Vector_delete v rhs_copy h1); simpl in *; subst; lia.
Qed.

(** X21. No member function other than [Swap] and the move assignment
    lowers the capacity: after [Reserve], [Resize], [PushBack],
    [EmplaceBack], [Emplace], [Insert], [PopBack], [Erase] and the copy
    assignment, whether they return or throw, the capacity is at least what
    it was. *)
Theorem capacity_never_shrinks :
  (∀ n, never_shrinks (Reserve n)) ∧
  (∀ n, never_shrinks (Resize n)) ∧
  (∀ i, never_shrinks (PushBack i)) ∧
  (∀ i, never_shrinks (EmplaceBack i)) ∧
  (∀ pos i, never_shrinks (Emplace pos i)) ∧
  (∀ pos x, never_shrinks (Insert pos x)) ∧
  (∀ pos x, never_shrinks (Insert_rvalue pos x)) ∧
  never_shrinks PopBack ∧
  (∀ pos, never_shrinks (Erase pos)) ∧
  (∀ rhs, never_shrinks (copy_assign rhs)).
Proof.
  repeat split.
  - apply never_shrinks_Reserve.
  - apply never_shrinks_Resize.
  - intros i. unfold PushBack.
    apply never_shrinks_bind; [apply never_shrinks_EmplaceBack|].
    intros; apply never_shrinks_ret.
  - apply never_shrinks_EmplaceBack.
  - apply never_shrinks_Emplace.
  - intros pos x. apply never_shrinks_Emplace.
  - intros pos x. apply never_shrinks_Emplace.
  - apply never_shrinks_PopBack.
  - apply never_shrinks_Erase.
  - apply never_shrinks_copy_assign.
Qed.

End AdvancedVector.

Arguments Returned {T S A} a s h.
Arguments Thrown {T S A} s h.
Arguments Undefined {T S A} s h.

(** * The scenarios *)

Section CopyableScenarios.

#[local] Existing Instance copyable_elements.


Example PushBack_fourth_copy_throws :
  PushBack fourth_copy_throws (from_copy 4) (vector_of [1; 2; 3] 3) three_copies
  = Thrown (vector_of [1; 2; 3] 3)
      (three_copies ++
       [Did (OperatorNew 6); Threw (CopyConstruct 4); Did OperatorDelete]).
Proof. reflexivity. Qed.

Example Reserve_fourth_copy_throws :
  Reserve fourth_copy_throws 6 (vector_of [1; 2; 3] 3) three_copies
  = Thrown (vector_of [1; 2; 3] 3)
      (three_copies ++
       [Did (OperatorNew 6); Threw (CopyConstruct 1); Did OperatorDelete]).
Proof. reflexivity. Qed.

(** C3 fails on the code.  [Insert] of [9] at the front of [[1; 2; 3]],
    capacity 4, when the second move-assignment of the backward shift
    throws: the [try] block ends with the element sequence [[1; 2; 2]] and a
    fourth live slot beyond the size, and the handler then releases
    [end()], a pointer into the middle of the block, which is undefined.
    When no more than the construction of the new value throws, the handler
    is undefined as well on a vector that is not empty, and releases the
    whole block of an empty one. *)
Theorem in_place_insert_failure :
  EmplaceWithoutRelocation_try second_move_assignment_throws 0 (from_args 9)
    (vector_of [1; 2; 3] 4) []
  = Thrown (vector_with [Live 1; Live 2; Live 2; Live 3] 4 3)
      [Did (Construct 9); Did (MoveConstruct 3); Did (MoveAssign 3 2);
       Threw (MoveAssign 2 1); Did (Destroy 9)] ∧
  elements (vector_with [Live 1; Live 2; Live 2; Live 3] 4 3) = [1; 2; 2] ∧
  Emplace second_move_assignment_throws 0 (from_args 9) (vector_of [1; 2; 3] 4) []
  = Undefined (vector_with [Live 1; Live 2; Live 2; Live 3] 4 3)
      [Did (Construct 9); Did (MoveConstruct 3); Did (MoveAssign 3 2);
       Threw (MoveAssign 2 1); Did (Destroy 9)] ∧
  Emplace construction_throws 1 (from_args 9) (vector_of [1] 2) []
  = Undefined (vector_of [1] 2) [Threw (Construct 9)] ∧
  Emplace construction_throws 0 (from_args 9) (vector_of [] 2) []
  = Thrown {| data_ := {| buffer_ := dangling; capacity_ := 2 |}; size_ := 0 |}
      [Threw (Construct 9); Did OperatorDelete].
Proof. repeat split. Qed.

(** A copy that throws half-way through the copy constructor. *)
Lemma Vector_copy_copies_or_rolls_back_witness :
  length [1; 2; 3] ≤ 4 ∧ allocatable (length [1; 2; 3]) ∧
  match Vector_copy second_copy_throws (vector_of [1; 2; 3] 4) tt [] with
  | Returned v' s' h' =>
      v' = vector_of [1; 2; 3] (length [1; 2; 3]) ∧ elements v' = [1; 2; 3] ∧
      Capacity v' = length [1; 2; 3] ∧ s' = tt ∧
      h' = [] ++ (if decide (length [1; 2; 3] = 0) then []
                  else [Did (OperatorNew (length [1; 2; 3]))])
              ++ (Did ∘ CopyConstruct <$> [1; 2; 3])
  | Thrown s' h' =>
      s' = tt ∧
      (h' = [] ++ [Threw (OperatorNew (length [1; 2; 3]))] ∨
       ∃ j y, [1; 2; 3] !! j = Some y ∧
         h' = [] ++ [Did (OperatorNew (length [1; 2; 3]))]
                 ++ rolled_back CopyConstruct [1; 2; 3] j y ++ [Did OperatorDelete])
  | Undefined _ _ => False
  end.
Proof.
  split; [simpl; lia|]. split; [reflexivity|].
  apply (Vector_copy_copies_or_rolls_back second_copy_throws [1; 2; 3] 4 tt []);
    [simpl; lia|reflexivity].
Defined.

Example Vector_copy_second_copy_throws :
  Vector_copy second_copy_throws (vector_of [1; 2; 3] 4) tt []
  = Thrown tt
      [Did (OperatorNew 3); Did (CopyConstruct 1); Threw (CopyConstruct 2);
       Did (Destroy 1); Did OperatorDelete].
Proof. reflexivity. Qed.

Lemma Reserve_failure_rolls_back_witness :
  length [1; 2; 3] ≤ 3 ∧ 3 < 6 ∧ allocatable 6 ∧
  let by_move := is_nothrow_move_constructible || negb is_copy_constructible in
  match Reserve second_copy_throws 6 (vector_of [1; 2; 3] 3) [] with
  | Returned _ _ _ => True
  | Thrown v' h' =>
      (is_nothrow_move_constructible = true ∨ is_copy_constructible = true →
       v' = vector_of [1; 2; 3] 3) ∧
      ((v' = vector_of [1; 2; 3] 3 ∧ h' = [] ++ [Threw (OperatorNew 6)]) ∨
       ∃ j x, [1; 2; 3] !! j = Some x ∧
         v' = vector_of (relocated_from by_move j [1; 2; 3]) 3 ∧
         h' = [] ++ [Did (OperatorNew 6)] ++
              rolled_back (relocation by_move) [1; 2; 3] j x ++ [Did OperatorDelete])
  | Undefined _ _ => False
  end.
Proof.
  split; [simpl; lia|]. split; [lia|]. split; [reflexivity|].
  apply (Reserve_failure_rolls_back second_copy_throws [1; 2; 3] 3 6 []);
    [simpl; lia|lia|reflexivity].
Defined.

Example Reserve_second_copy_throws :
  Reserve second_copy_throws 6 (vector_of [1; 2; 3] 3) []
  = Thrown (vector_of [1; 2; 3] 3)
      [Did (OperatorNew 6); Did (CopyConstruct 1); Threw (CopyConstruct 2);
       Did (Destroy 1); Did OperatorDelete].
Proof. reflexivity. Qed.

(** [Emplace] of [9] at position 1 of the full vector [[1; 2; 3]]: the copy
    of the second element throws.  The new element and the copy of the
    first element are released with the new block; no destructor runs. *)
Lemma Emplace_full_failure_witness :
  length [1; 2; 3] = 3 ∧ 1 ≤ length [1; 2; 3] ∧
  int_position 1 ∧ allocatable (grown 3) ∧
  let by_move := is_nothrow_move_constructible || negb is_copy_constructible in
  match Emplace second_copy_throws 1 (from_args 9) (vector_of [1; 2; 3] 3) [] with
  | Returned _ _ _ => True
  | Thrown v' h' =>
      (is_nothrow_move_constructible = true ∨ is_copy_constructible = true →
       v' = vector_of [1; 2; 3] 3) ∧
      ((v' = vector_of [1; 2; 3] 3 ∧ h' = [] ++ [Threw (OperatorNew (grown 3))]) ∨
       (v' = vector_of [1; 2; 3] 3 ∧
        h' = [] ++ [Did (OperatorNew (grown 3)); Threw (event_of (from_args 9));
                    Did OperatorDelete]) ∨
       ∃ j x, [1; 2; 3] !! j = Some x ∧
         v' = vector_of (relocated_from by_move j [1; 2; 3]) 3 ∧
         h' = [] ++ [Did (OperatorNew (grown 3)); Did (event_of (from_args 9))] ++
              (Did ∘ relocation by_move <$> take j [1; 2; 3]) ++
              [Threw (relocation by_move x)] ++
              (Did ∘ Destroy <$> drop (if decide (j < 1) then 0 else 1)
                                      (take j [1; 2; 3])) ++
              [Did OperatorDelete])
  | Undefined _ _ => False
  end.
Proof.
  split; [reflexivity|]. split; [simpl; lia|].
  split; [reflexivity|]. split; [reflexivity|].
  apply (Emplace_full_failure second_copy_throws [1; 2; 3] 3 1 (from_args 9) []);
    [reflexivity|simpl; lia|reflexivity|reflexivity].
Defined.

Example Emplace_second_copy_throws :
  Emplace second_copy_throws 1 (from_args 9) (vector_of [1; 2; 3] 3) []
  = Thrown (vector_of [1; 2; 3] 3)
      [Did (OperatorNew 6); Did (Construct 9); Did (CopyConstruct 1);
       Threw (CopyConstruct 2); Did OperatorDelete].
Proof. reflexivity. Qed.

(** [a = b] in place, with [a = [1; 2; 3]] and [b = [7; 8]]: the second
    copy assignment throws. *)
Lemma copy_assign_in_place_failure_witness :
  length [1; 2; 3] ≤ 4 ∧ length [7; 8] ≤ 2 ∧ length [7; 8] ≤ 4 ∧
  match copy_assign second_copy_assignment_throws (other_vector (vector_of [7; 8] 2))
          (vector_of [1; 2; 3] 4) [] with
  | Returned _ _ _ => True
  | Thrown v' h' =>
      ∃ j, j ≤ length [1; 2; 3] `min` length [7; 8] ∧
        v' = vector_of (take j [7; 8] ++ drop j [1; 2; 3]) 4 ∧
        Size v' = length [1; 2; 3] ∧
        ((∃ x y, [1; 2; 3] !! j = Some x ∧ [7; 8] !! j = Some y ∧
            h' = [] ++ assign_events (take j [1; 2; 3]) (take j [7; 8]) ++
                 [Threw (CopyAssign x y)]) ∨
         (j = length [1; 2; 3] ∧
          ∃ k y, drop j [7; 8] !! k = Some y ∧
            h' = [] ++ assign_events [1; 2; 3] (take j [7; 8]) ++
                 rolled_back CopyConstruct (drop j [7; 8]) k y))
  | Undefined _ _ => False
  end.
Proof.
  split; [simpl; lia|]. split; [simpl; lia|]. split; [simpl; lia|].
  apply (copy_assign_in_place_failure second_copy_assignment_throws
           [1; 2; 3] 4 [7; 8] 2 []); simpl; lia.
Defined.

Example copy_assign_second_assignment_throws :
  copy_assign second_copy_assignment_throws (other_vector (vector_of [7; 8] 2))
    (vector_of [1; 2; 3] 4) []
  = Thrown (vector_of [7; 2; 3] 4) [Did (CopyAssign 1 7); Threw (CopyAssign 2 8)].
Proof. reflexivity. Qed.

End CopyableScenarios.

Section MoveOnlyScenarios.

#[local] Existing Instance move_only_elements.

(** C4 as stated fails: the elements of a type whose move constructor may
    throw are moved all the same when the type cannot be copied, and a move
    that throws then leaves a moved-from element in the vector. *)
Lemma relocation_moves_without_nothrow_move :
  is_nothrow_move_constructible = false ∧
  Reserve never 4 (vector_of [1; 2] 2) []
  = Returned tt (vector_of [1; 2] 4)
      [Did (OperatorNew 4); Did (MoveConstruct 1); Did (MoveConstruct 2);
       Did (Destroy 0); Did (Destroy 0); Did OperatorDelete] ∧
  Reserve second_move_throws 4 (vector_of [1; 2] 2) []
  = Thrown (vector_of [0; 2] 2)
      [Did (OperatorNew 4); Did (MoveConstruct 1); Threw (MoveConstruct 2);
       Did (Destroy 1); Did OperatorDelete].
Proof. repeat split. Qed.

Lemma relocation_moves_iff_nothrow_or_not_copyable_witness :
  length [1; 2] ≤ 2 ∧ allocatable 4 ∧
  match Reserve never 4 (vector_of [1; 2] 2) [] with
  | Returned _ _ h' =>
      h' = [] ++ [Did (OperatorNew 4)] ++
           (Did ∘ MoveConstruct <$> [1; 2]) ++
           (Did ∘ Destroy <$> (moved_from <$> [1; 2])) ++ [Did OperatorDelete]
  | Thrown _ _ => raised never
  | Undefined _ _ => False
  end.
Proof.
  split; [simpl; lia|]. split; [reflexivity|].
  refine (proj1 (proj2 (relocation_moves_iff_nothrow_or_not_copyable never
                          [1; 2] 2 [] _)) 4 _ _).
  - simpl. lia.
  - lia.
  - reflexivity.
Defined.

End MoveOnlyScenarios.

Section IntScenarios.

#[local] Existing Instance int_elements.
#[local] Existing Instance M_bind.

Lemma Emplace_inserts_at_position_witness :
  length [1; 2; 3] ≤ 5 ∧ 1 ≤ length [1; 2; 3] ∧
  int_position 1 ∧
  (¬ length [1; 2; 3] < 5 → allocatable (grown (length [1; 2; 3]))) ∧
  inserted never [1; 2; 3] 5 1 (value_of (from_args 9))
    (Emplace never 1 (from_args 9) (vector_of [1; 2; 3] 5) []) ∧
  inserted never [1; 2; 3] 5 1 9 (Insert never 1 9 (vector_of [1; 2; 3] 5) []) ∧
  inserted never [1; 2; 3] 5 1 9 (Insert_rvalue never 1 9 (vector_of [1; 2; 3] 5) []) ∧
  (length [1; 2; 3] < 5 → 1 = length [1; 2; 3] →
     ∀ p v' h',
       (Insert never 1 9 (vector_of [1; 2; 3] 5) [] = Returned p v' h' →
        h' = [] ++ [Did (CopyConstruct 9)]) ∧
       (Insert_rvalue never 1 9 (vector_of [1; 2; 3] 5) [] = Returned p v' h' →
        h' = [] ++ [Did (MoveConstruct 9)])).
Proof.
  split; [simpl; lia|]. split; [simpl; lia|]. split; [reflexivity|].
  split; [simpl; lia|].
  apply (Emplace_inserts_at_position never [1; 2; 3] 5 1 (from_args 9) 9 []);
    [simpl; lia|simpl; lia|reflexivity|simpl; lia].
Defined.

Example Insert_at_the_end :
  Insert never 3 9 (vector_of [1; 2; 3] 5) []
  = Returned 3 (vector_of [1; 2; 3; 9] 5) [Did (CopyConstruct 9)] ∧
  Insert_rvalue never 3 9 (vector_of [1; 2; 3] 5) []
  = Returned 3 (vector_of [1; 2; 3; 9] 5) [Did (MoveConstruct 9)].
Proof. split; reflexivity. Qed.

Example Insert_in_place :
  Insert never 1 9 (vector_of [1; 2; 3] 5) []
  = Returned 1 (vector_of [1; 9; 2; 3] 5)
      [Did (CopyConstruct 9); Did (MoveConstruct 3); Did (MoveAssign 3 2);
       Did (MoveAssign 2 9); Did (Destroy 9)].
Proof. reflexivity. Qed.

Example Insert_with_relocation :
  Insert never 1 9 (vector_of [1; 2; 3] 3) []
  = Returned 1 (vector_of [1; 9; 2; 3] 6)
      [Did (OperatorNew 6); Did (CopyConstruct 9); Did (MoveConstruct 1);
       Did (MoveConstruct 2); Did (MoveConstruct 3); Did (Destroy 1);
       Did (Destroy 2); Did (Destroy 3); Did OperatorDelete].
Proof. reflexivity. Qed.

Lemma Reserve_keeps_elements_witness :
  length [1; 2; 3] ≤ 3 ∧
  (5 ≤ 3 → Reserve never 5 (vector_of [1; 2; 3] 3) []
           = Returned tt (vector_of [1; 2; 3] 3) []) ∧
  (3 < 5 → allocatable 5 →
     match Reserve never 5 (vector_of [1; 2; 3] 3) [] with
     | Returned _ v' _ =>
         v' = vector_of [1; 2; 3] 5 ∧
         elements v' = [1; 2; 3] ∧ Size v' = length [1; 2; 3] ∧ Capacity v' = 5
     | Thrown _ _ => raised never
     | Undefined _ _ => False
     end).
Proof.
  split; [simpl; lia|].
  apply (Reserve_keeps_elements never [1; 2; 3] 3 5 []). simpl. lia.
Defined.

Example Reserve_no_op :
  Reserve never 2 (vector_of [1; 2; 3] 3) [] = Returned tt (vector_of [1; 2; 3] 3) [].
Proof. reflexivity. Qed.

(** The [Resize] scenario: [[1; 2; 3]], then [Resize(5)], then [Resize(1)]. *)
Lemma Resize_shrinks_and_grows_witness :
  length [1; 2; 3] ≤ 3 ∧ length [1; 2; 3] ≤ 5 ∧
  (3 < 5 → allocatable ((3 * 2) `max` 5)) ∧
  match Resize never 5 (vector_of [1; 2; 3] 3) [] with
  | Returned _ v' h' =>
      v' = vector_of ([1; 2; 3] ++ replicate (5 - length [1; 2; 3]) value_initialized)
             (if decide (3 < 5) then (3 * 2) `max` 5 else 3) ∧
      Size v' = 5 ∧
      ∃ t, h' = [] ++ t ++ replicate (5 - length [1; 2; 3]) (Did ValueConstruct) ∧
           (¬ 3 < 5 → t = [])
  | Thrown _ _ => raised never
  | Undefined _ _ => False
  end.
Proof.
  split; [simpl; lia|]. split; [simpl; lia|]. split; [reflexivity|].
  apply (Resize_shrinks_and_grows never [1; 2; 3] 3 5 []);
    [simpl; lia|simpl; lia|reflexivity].
Defined.

Example Resize_scenario :
  Resize never 5 (vector_of [1; 2; 3] 3) []
  = Returned tt (vector_of [1; 2; 3; 0; 0] 6)
      [Did (OperatorNew 6); Did (MoveConstruct 1); Did (MoveConstruct 2);
       Did (MoveConstruct 3); Did (Destroy 1); Did (Destroy 2); Did (Destroy 3);
       Did OperatorDelete; Did ValueConstruct; Did ValueConstruct] ∧
  Resize never 1 (vector_of [1; 2; 3; 0; 0] 6) []
  = Returned tt (vector_of [1] 6)
      [Did (Destroy 2); Did (Destroy 3); Did (Destroy 0); Did (Destroy 0)].
Proof. split; reflexivity. Qed.

Lemma copy_assign_copies_witness :
  length [1; 2; 3] ≤ 5 ∧ length [7; 8] ≤ 2 ∧ length [7; 8] ≤ 5 ∧
  match copy_assign never (other_vector (vector_of [7; 8] 2)) (vector_of [1; 2; 3] 5) [] with
  | Returned _ v' h' =>
      v' = vector_of [7; 8] 5 ∧ elements v' = [7; 8] ∧
      h' = [] ++ assign_events (take (length [1; 2; 3] `min` length [7; 8]) [1; 2; 3])
                               (take (length [1; 2; 3] `min` length [7; 8]) [7; 8]) ++
           (if decide (length [7; 8] < length [1; 2; 3])
            then Did ∘ Destroy <$> drop (length [7; 8]) [1; 2; 3]
            else Did ∘ CopyConstruct <$> drop (length [1; 2; 3]) [7; 8])
  | Thrown _ _ => raised never
  | Undefined _ _ => False
  end.
Proof.
  split; [simpl; lia|]. split; [simpl; lia|]. split; [simpl; lia|].
  apply (copy_assign_copies never [1; 2; 3] 5 [7; 8] 2 []); simpl; lia.
Defined.

Example copy_assign_in_place :
  copy_assign never (other_vector (vector_of [7; 8; 9; 10] 4)) (vector_of [1; 2; 3] 5) []
  = Returned tt (vector_of [7; 8; 9; 10] 5)
      [Did (CopyAssign 1 7); Did (CopyAssign 2 8); Did (CopyAssign 3 9);
       Did (CopyConstruct 10)].
Proof. reflexivity. Qed.

Example copy_assign_copy_and_swap :
  copy_assign never (other_vector (vector_of [7; 8; 9; 10] 4)) (vector_of [1; 2; 3] 3) []
  = Returned tt (vector_of [7; 8; 9; 10] 4)
      [Did (OperatorNew 4); Did (CopyConstruct 7); Did (CopyConstruct 8);
       Did (CopyConstruct 9); Did (CopyConstruct 10); Did (Destroy 1);
       Did (Destroy 2); Did (Destroy 3); Did OperatorDelete].
Proof. reflexivity. Qed.

Lemma Erase_removes_at_position_witness :
  length [1; 2; 3] ≤ 5 ∧ 1 < length [1; 2; 3] ∧ int_position 1 ∧
  match Erase never 1 (vector_of [1; 2; 3] 5) [] with
  | Returned p v' h' =>
      p = 1 ∧
      v' = vector_of (take 1 [1; 2; 3] ++ drop 2 [1; 2; 3]) 5 ∧
      elements v' = take 1 [1; 2; 3] ++ drop 2 [1; 2; 3] ∧
      Size v' = length [1; 2; 3] - 1 ∧ Capacity v' = 5 ∧
      ∃ z, [1; 2; 3] !! 1 = Some z ∧
           h' = [] ++ shift_events z (drop 2 [1; 2; 3]) ++
                [Did (Destroy (left_behind z (drop 2 [1; 2; 3])))]
  | Thrown _ _ => raised never
  | Undefined _ _ => False
  end.
Proof.
  split; [simpl; lia|]. split; [simpl; lia|]. split; [reflexivity|].
  apply (Erase_removes_at_position never [1; 2; 3] 5 1 []);
    [simpl; lia|simpl; lia|reflexivity].
Defined.

Example Erase_in_the_middle :
  Erase never 1 (vector_of [1; 2; 3] 5) []
  = Returned 1 (vector_of [1; 3] 5) [Did (MoveAssign 2 3); Did (Destroy 3)].
Proof. reflexivity. Qed.

Lemma PopBack_removes_last_witness :
  length ([1; 2] ++ [3]) ≤ 5 ∧
  PopBack never (vector_of ([1; 2] ++ [3]) 5) []
  = Returned tt (vector_of [1; 2] 5) ([] ++ [Did (Destroy 3)]).
Proof.
  split; [simpl; lia|].
  apply (proj2 (PopBack_removes_last never [1; 2] 3 5 [])). simpl. lia.
Defined.

Lemma size_le_capacity_witness :
  invariant (vector_of [1; 2; 3] 3) ∧
  every_state (PushBack never (from_copy 4) (vector_of [1; 2; 3] 3) []) invariant.
Proof.
  assert (invariant (vector_of [1; 2; 3] 3)) as Hv
    by (unfold invariant, Capacity, RawMemory_Capacity; simpl; lia).
  split; [exact Hv|].
  destruct (size_le_capacity never)
    as (_ & _ & _ & _ & _ & _ & _ & _ & _ & _ & HPushBack & _).
  exact (HPushBack (from_copy 4) (vector_of [1; 2; 3] 3) [] Hv).
Defined.

Lemma move_assign_exchanges_witness :
  length [1; 2; 3] ≤ 4 ∧
  move_assign (vector_of [1; 2; 3] 4) (vector_of [7; 8] 2)
  = (vector_of [7; 8] 2, vector_of [1; 2; 3] 4) ∧
  Swap (vector_of [1; 2; 3] 4) (vector_of [7; 8] 2)
  = (vector_of [7; 8] 2, vector_of [1; 2; 3] 4) ∧
  Swap (Swap (vector_of [1; 2; 3] 4) (vector_of [7; 8] 2)).1
       (Swap (vector_of [1; 2; 3] 4) (vector_of [7; 8] 2)).2
  = (vector_of [1; 2; 3] 4, vector_of [7; 8] 2) ∧
  Vector_delete never (move_assign (vector_of [1; 2; 3] 4) (vector_of [7; 8] 2)).2 tt []
  = Returned tt tt ([] ++ (Did ∘ Destroy <$> [1; 2; 3]) ++ [Did OperatorDelete]).
Proof.
  split; [simpl; lia|].
  apply (move_assign_exchanges never [1; 2; 3] 4 (vector_of [7; 8] 2) tt []).
  simpl. lia.
Defined.

Lemma Vector_delete_destroys_each_element_witness :
  length [1; 2; 3] ≤ 4 ∧
  Vector_delete never (vector_of [1; 2; 3] 4) tt []
  = Returned tt tt ([] ++ (Did ∘ Destroy <$> [1; 2; 3]) ++ [Did OperatorDelete]).
Proof.
  split; [simpl; lia|].
  apply (Vector_delete_destroys_each_element never [1; 2; 3] 4 tt []). simpl. lia.
Defined.

Lemma subscript_reads_element_witness :
  length [1; 2; 3] ≤ 5 ∧
  subscript 1 (vector_of [1; 2; 3] 5) = [1; 2; 3] !! 1 ∧
  (length [1; 2; 3] ≤ 1 → subscript 1 (vector_of [1; 2; 3] 5) = None) ∧
  elements (vector_of [1; 2; 3] 5) = [1; 2; 3].
Proof.
  split; [simpl; lia|].
  apply (subscript_reads_element [1; 2; 3] 5 1). simpl. lia.
Defined.

Example subscript_within_the_capacity :
  subscript 1 (vector_of [1; 2; 3] 5) = Some 2 ∧
  subscript 3 (vector_of [1; 2; 3] 5) = None.
Proof. split; reflexivity. Qed.

Lemma Vector_sized_value_initializes_or_rolls_back_witness :
  allocatable 3 ∧
  match Vector_sized never 3 tt [] with
  | Returned v' s' h' =>
      v' = vector_of (replicate 3 value_initialized) 3 ∧
      elements v' = replicate 3 value_initialized ∧
      Size v' = 3 ∧ Capacity v' = 3 ∧ s' = tt ∧
      h' = [] ++ (if decide (3 = 0) then [] else [Did (OperatorNew 3)])
              ++ replicate 3 (Did ValueConstruct)
  | Thrown s' h' =>
      s' = tt ∧
      (h' = [] ++ [Threw (OperatorNew 3)] ∨
       ∃ j, j < 3 ∧
         h' = [] ++ [Did (OperatorNew 3)] ++ replicate j (Did ValueConstruct)
                 ++ [Threw ValueConstruct]
                 ++ replicate j (Did (Destroy value_initialized))
                 ++ [Did OperatorDelete])
  | Undefined _ _ => False
  end.
Proof.
  split; [reflexivity|].
  apply (Vector_sized_value_initializes_or_rolls_back never 3 tt []). reflexivity.
Defined.

Example Vector_sized_three :
  Vector_sized never 3 tt []
  = Returned (vector_of [0; 0; 0] 3) tt
      [Did (OperatorNew 3); Did ValueConstruct; Did ValueConstruct; Did ValueConstruct].
Proof. reflexivity. Qed.


Example Resize_value_construction_throws :
  Resize value_construction_throws 5 (vector_of [1; 2; 3] 3) []
  = Thrown (vector_of [1; 2; 3] 6)
      [Did (OperatorNew 6); Did (MoveConstruct 1); Did (MoveConstruct 2);
       Did (MoveConstruct 3); Did (Destroy 1); Did (Destroy 2); Did (Destroy 3);
       Did OperatorDelete; Threw ValueConstruct].
Proof. reflexivity. Qed.

Lemma PushBack_each_within_capacity_witness :
  length [1] + length [from_args 2; from_copy 3; from_move 4] ≤ 4 ∧
  (Z.of_nat (length [1] + length [from_args 2; from_copy 3; from_move 4]) ≤ 2 ^ 31)%Z ∧
  match PushBack_each never [from_args 2; from_copy 3; from_move 4] (vector_of [1] 4) []
  with
  | Returned _ v' h' =>
      v' = vector_of ([1] ++ (value_of <$> [from_args 2; from_copy 3; from_move 4])) 4 ∧
      h' = [] ++ (Did ∘ event_of <$> [from_args 2; from_copy 3; from_move 4])
  | Thrown _ _ | Undefined _ _ => raised never
  end.
Proof.
  split; [simpl; lia|]. split; [simpl; lia|].
  apply (PushBack_each_within_capacity never [1] 4
           [from_args 2; from_copy 3; from_move 4] []); simpl; lia.
Defined.

Lemma PushBack_each_doubles_witness :
  (Z.of_nat (length [from_args 1; from_args 2; from_args 3]) ≤ 2 ^ 31)%Z ∧
  allocatable (doubled (length [from_args 1; from_args 2; from_args 3])) ∧
  match PushBack_each never [from_args 1; from_args 2; from_args 3] Vector_default [] with
  | Returned _ v' _ =>
      v' = vector_of (value_of <$> [from_args 1; from_args 2; from_args 3])
             (doubled (length [from_args 1; from_args 2; from_args 3])) ∧
      elements v' = value_of <$> [from_args 1; from_args 2; from_args 3] ∧
      Size v' = length [from_args 1; from_args 2; from_args 3] ∧
      Capacity v' = doubled (length [from_args 1; from_args 2; from_args 3])
  | Thrown _ _ | Undefined _ _ => raised never
  end.
Proof.
  split; [simpl; lia|]. split; [reflexivity|].
  apply (PushBack_each_doubles never [from_args 1; from_args 2; from_args 3] []);
    [simpl; lia|reflexivity].
Defined.

Example PushBack_each_from_empty :
  PushBack_each never [from_args 1; from_args 2; from_args 3; from_args 4; from_args 5]
    Vector_default []
  = Returned tt (vector_of [1; 2; 3; 4; 5] 8)
      [Did (OperatorNew 1); Did (Construct 1); Did OperatorDelete;
       Did (OperatorNew 2); Did (Construct 2); Did (MoveConstruct 1);
       Did (Destroy 1); Did OperatorDelete;
       Did (OperatorNew 4); Did (Construct 3); Did (MoveConstruct 1);
       Did (MoveConstruct 2); Did (Destroy 1); Did (Destroy 2); Did OperatorDelete;
       Did (Construct 4);
       Did (OperatorNew 8); Did (Construct 5); Did (MoveConstruct 1);
       Did (MoveConstruct 2); Did (MoveConstruct 3); Did (MoveConstruct 4);
       Did (Destroy 1); Did (Destroy 2); Did (Destroy 3); Did (Destroy 4);
       Did OperatorDelete].
Proof. reflexivity. Qed.

Lemma PushBack_in_place_failure_witness :
  length (@nil nat) < 2 ∧
  noexcept (event_of (from_args 9)) = false ∧
  construction_throws [] (event_of (from_args 9)) = true ∧
  ((@nil nat) = [] →
     PushBack construction_throws (from_args 9) (vector_of [] 2) []
     = Thrown (released 2) ([] ++ [Threw (event_of (from_args 9)); Did OperatorDelete])) ∧
  ((@nil nat) ≠ [] →
     PushBack construction_throws (from_args 9) (vector_of [] 2) []
     = Undefined (vector_of [] 2) ([] ++ [Threw (event_of (from_args 9))])) ∧
  (∀ h', Vector_delete construction_throws (released 2) tt h' = Undefined tt h') ∧
  (∀ j h', PushBack construction_throws j (released 2) h' = Undefined (released 2) h').
Proof.
  split; [simpl; lia|]. split; [reflexivity|]. split; [reflexivity|].
  apply (PushBack_in_place_failure construction_throws [] 2 (from_args 9) tt []);
    [simpl; lia|reflexivity|reflexivity].
Defined.

Lemma EmplaceBack_returns_new_element_witness :
  length [1; 2; 3] ≤ 3 ∧ int_position (length [1; 2; 3]) ∧
  (¬ length [1; 2; 3] < 3 → allocatable (grown (length [1; 2; 3]))) ∧
  match EmplaceBack never (from_args 9) (vector_of [1; 2; 3] 3) [] with
  | Returned x v' _ =>
      x = value_of (from_args 9) ∧
      v' = vector_of ([1; 2; 3] ++ [value_of (from_args 9)])
             (if decide (length [1; 2; 3] < 3) then 3 else grown (length [1; 2; 3])) ∧
      Size v' = length [1; 2; 3] + 1 ∧
      subscript (Size v' - 1) v' = Some x
  | Thrown _ _ | Undefined _ _ => raised never
  end.
Proof.
  split; [simpl; lia|]. split; [reflexivity|]. split; [reflexivity|].
  apply (EmplaceBack_returns_new_element never [1; 2; 3] 3 (from_args 9) []);
    [simpl; lia|reflexivity|reflexivity].
Defined.

Lemma Emplace_in_place_calls_witness :
  length ([1] ++ [2; 3] ++ [4]) < 6 ∧ int_position (length [1]) ∧
  match Emplace never (length [1]) (from_args 9) (vector_of ([1] ++ [2; 3] ++ [4]) 6) []
  with
  | Returned p v' h' =>
      p = length [1] ∧
      v' = vector_of ([1] ++ value_of (from_args 9) :: [2; 3] ++ [4]) 6 ∧
      h' = [] ++ [Did (event_of (from_args 9)); Did (MoveConstruct 4)] ++
           shift_events (moved_from 4) (reverse [2; 3]) ++
           [Did (MoveAssign (vacated (moved_from 4) [2; 3]) (value_of (from_args 9)));
            Did (Destroy (moved_from (value_of (from_args 9))))]
  | Thrown _ _ | Undefined _ _ => raised never
  end.
Proof.
  split; [simpl; lia|]. split; [reflexivity|].
  apply (Emplace_in_place_calls never [1] [2; 3] 4 6 (from_args 9) []);
    [simpl; lia|reflexivity].
Defined.

Lemma Erase_last_is_PopBack_witness :
  length ([1; 2] ++ [3]) ≤ 4 ∧ int_position (length [1; 2]) ∧
  Erase never (length [1; 2]) (vector_of ([1; 2] ++ [3]) 4) []
  = Returned (length [1; 2]) (vector_of [1; 2] 4) ([] ++ [Did (Destroy 3)]) ∧
  PopBack never (vector_of ([1; 2] ++ [3]) 4) []
  = Returned tt (vector_of [1; 2] 4) ([] ++ [Did (Destroy 3)]).
Proof.
  split; [simpl; lia|]. split; [reflexivity|].
  apply (Erase_last_is_PopBack never [1; 2] 3 4 []); [simpl; lia|reflexivity].
Defined.

Lemma Erase_at_end_is_undefined_witness :
  length [1; 2; 3] ≤ 4 ∧ (Z.of_nat (length [1; 2; 3]) < 2 ^ 32)%Z ∧
  Erase never (length [1; 2; 3]) (vector_of [1; 2; 3] 4) []
  = Undefined (vector_of [1; 2; 3] 4) [].
Proof.
  split; [simpl; lia|]. split; [reflexivity|].
  apply (Erase_at_end_is_undefined never [1; 2; 3] 4 []); [simpl; lia|reflexivity].
Defined.


Example Erase_on_an_empty_vector :
  Erase never 0 Vector_default [] = Undefined Vector_default [].
Proof. reflexivity. Qed.

(** [Erase] of the first of [[1; 2; 3; 4]] when the second move assignment
    throws. *)
Lemma Erase_failure_leaves_partial_shift_witness :
  length ([] ++ 1 :: [2; 3; 4]) ≤ 4 ∧ int_position (length (@nil nat)) ∧
  match Erase second_move_assignment_throws (length (@nil nat))
          (vector_of ([] ++ 1 :: [2; 3; 4]) 4) [] with
  | Returned _ _ _ => True
  | Thrown v' h' =>
      ∃ j x, [2; 3; 4] !! j = Some x ∧
        v' = vector_of
               ([] ++ take j [2; 3; 4] ++
                left_behind 1 (take j [2; 3; 4]) :: drop j [2; 3; 4]) 4 ∧
        Size v' = length ([] ++ 1 :: [2; 3; 4]) ∧
        h' = [] ++ shift_events 1 (take j [2; 3; 4]) ++
             [Threw (MoveAssign (left_behind 1 (take j [2; 3; 4])) x)]
  | Undefined _ _ => False
  end.
Proof.
  split; [simpl; lia|]. split; [reflexivity|].
  apply (Erase_failure_leaves_partial_shift second_move_assignment_throws
           [] 1 [2; 3; 4] 4 []); [simpl; lia|reflexivity].
Defined.

Example Erase_second_move_assignment_throws :
  Erase second_move_assignment_throws 0 (vector_of [1; 2; 3; 4] 4) []
  = Thrown (vector_of [2; 2; 3; 4] 4) [Did (MoveAssign 1 2); Threw (MoveAssign 2 3)].
Proof. reflexivity. Qed.

Lemma PushBack_PopBack_restores_witness :
  length [1; 2; 3] ≤ 3 ∧ int_position (length [1; 2; 3]) ∧
  (¬ length [1; 2; 3] < 3 → allocatable (grown (length [1; 2; 3]))) ∧
  match (PushBack never (from_args 9) ;; PopBack never) (vector_of [1; 2; 3] 3) [] with
  | Returned _ v' _ =>
      v' = vector_of [1; 2; 3]
             (if decide (length [1; 2; 3] < 3) then 3 else grown (length [1; 2; 3])) ∧
      elements v' = [1; 2; 3]
  | Thrown _ _ | Undefined _ _ => raised never
  end.
Proof.
  split; [simpl; lia|]. split; [reflexivity|]. split; [reflexivity|].
  apply (PushBack_PopBack_restores never [1; 2; 3] 3 (from_args 9) []);
    [simpl; lia|reflexivity|reflexivity].
Defined.

Lemma Emplace_Erase_restores_witness :
  length [1; 2; 3] ≤ 4 ∧ 1 ≤ length [1; 2; 3] ∧ int_position 1 ∧
  (¬ length [1; 2; 3] < 4 → allocatable (grown (length [1; 2; 3]))) ∧
  match (p ← Emplace never 1 (from_args 9); Erase never p) (vector_of [1; 2; 3] 4) []
  with
  | Returned p v' _ =>
      p = 1 ∧
      v' = vector_of [1; 2; 3]
             (if decide (length [1; 2; 3] < 4) then 4 else grown (length [1; 2; 3])) ∧
      elements v' = [1; 2; 3]
  | Thrown _ _ | Undefined _ _ => raised never
  end.
Proof.
  split; [simpl; lia|]. split; [simpl; lia|]. split; [reflexivity|].
  split; [simpl; lia|].
  apply (Emplace_Erase_restores never [1; 2; 3] 4 1 (from_args 9) []);
    [simpl; lia|simpl; lia|reflexivity|simpl; lia].
Defined.

(** ** Beyond the machine integers *)

(** C2 fails on the code.  A vector of [2^31] elements with spare
    capacity: the position of [end()] is [2^31], which [Emplace] stores in
    an [int] as [-2^31].  [Insert] at [end()] constructs the new element at
    [end()] and increments the size, and then returns [begin() + position],
    a pointer [2^31] elements before the block, which is undefined and no
    position of the vector. *)
Theorem Insert_beyond_int :
  to_int (Z.of_nat two_to_31) = (- 2 ^ 31)%Z ∧
  Insert never two_to_31 7 (vector_of (replicate two_to_31 0) (two_to_31 + 1)) []
  = Undefined (vector_of (replicate two_to_31 0 ++ [7]) (two_to_31 + 1))
      [Did (CopyConstruct 7)] ∧
  Insert_rvalue never two_to_31 7 (vector_of (replicate two_to_31 0) (two_to_31 + 1)) []
  = Undefined (vector_of (replicate two_to_31 0 ++ [7]) (two_to_31 + 1))
      [Did (MoveConstruct 7)].
Proof.
  assert (to_int (Z.of_nat two_to_31) = (- 2 ^ 31)%Z) as Hint
    by (unfold two_to_31; by rewrite Z2Nat.id by lia).
  assert (two_to_31 = length (replicate two_to_31 0)) as Hlen
    by by rewrite length_replicate.
  assert (to_int (Z.of_nat two_to_31) < 0)%Z as Hneg by by rewrite Hint.
  split; [exact Hint|]. split.
  - exact (Emplace_at_end_beyond_int never (replicate two_to_31 0) (two_to_31 + 1)
             two_to_31 (from_copy 7) [] Hlen ltac:(lia) eq_refl Hneg).
  - exact (Emplace_at_end_beyond_int never (replicate two_to_31 0) (two_to_31 + 1)
             two_to_31 (from_move 7) [] Hlen ltac:(lia) eq_refl Hneg).
Qed.

(** C8 fails on the code.  [Erase] of the last of [2^31 + 1] elements,
    which is at position [2^31]: the [int] is [-2^31], and
    [begin() + position + 1], the start of the range [std::move] is given,
    lies before the block.  Nothing is shifted or destroyed, and the size
    is not decremented. *)
Theorem Erase_beyond_int_position :
  two_to_31 < length (replicate (two_to_31 + 1) 0) ∧
  Erase never two_to_31 (vector_of (replicate (two_to_31 + 1) 0) (two_to_31 + 1)) []
  = Undefined (vector_of (replicate (two_to_31 + 1) 0) (two_to_31 + 1)) [].
Proof.
  split; [rewrite length_replicate; lia|].
  apply Erase_beyond_int.
  - unfold vector_of. cbn [size_]. rewrite length_replicate. lia.
  - unfold two_to_31. by rewrite Z2Nat.id by lia.
Qed.

Lemma Erase_at_end_narrowed_to_front n :
  to_int (Z.of_nat (S n)) = 0%Z →
  match Erase never (S n) (vector_of (replicate (S n) 0) (S n)) [] with
  | Returned p v' _ => p = 0 ∧ v' = vector_of (replicate n 0) (S n)
  | Thrown _ _ | Undefined _ _ => False
  end.
Proof.
  intros Hint. rewrite (Erase_narrowed never (S n) 0).
  - pose proof (outcome_Erase never [] 0 (replicate n 0) (S n) []) as H.
    cbn [app length replicate] in *. rewrite length_replicate in H.
    specialize (H ltac:(lia) eq_refl).
    destruct (Erase never 0 _ []) as [p v' h'|v' h'|v' h']; simpl in H.
    + by destruct H as (-> & -> & _).
    + by destruct H as (h0 & e & _ & Hthrows).
    + done.
  - unfold vector_of. cbn [size_]. by rewrite length_replicate.
  - done.
Qed.

(** [Erase] at [end()] of a vector of [2^32] elements: the position
    narrows to [0], and the first element is erased. *)
Example Erase_at_end_of_two_to_32 :
  match Erase never two_to_32 (vector_of (replicate two_to_32 0) two_to_32) [] with
  | Returned p v' _ => p = 0 ∧ v' = vector_of (replicate (two_to_32 - 1) 0) two_to_32
  | Thrown _ _ | Undefined _ _ => False
  end.
Proof.
  assert (two_to_32 = S (two_to_32 - 1)) as Heq by (unfold two_to_32; lia).
  assert (to_int (Z.of_nat (S (two_to_32 - 1))) = 0%Z) as Hint.
  { rewrite <- Heq. unfold two_to_32. by rewrite Z2Nat.id by lia. }
  pose proof (Erase_at_end_narrowed_to_front (two_to_32 - 1) Hint) as H.
  rewrite <- Heq in H. exact H.
Qed.

(** A number [n] of elements whose bytes wrap to those of one element. *)
Lemma room_beyond_size_t : room beyond_size_t = 1 ∧ 2 < beyond_size_t.
Proof.
  split; [|unfold beyond_size_t; lia].
  unfold room, beyond_size_t. by rewrite Z2Nat.id by lia.
Qed.

Lemma Reserve_into_a_block_of_one n :
  room n = 1 → 2 < n →
  Reserve never n (vector_of [1; 2] 2) []
  = Undefined (vector_of [1; 2] 2) [Did (OperatorNew n); Did (MoveConstruct 1)].
Proof.
  intros Hroom Hn. unfold Reserve.
  replace (Capacity (vector_of [1; 2] 2)) with 2 by done.
  rewrite decide_False by lia.
  unfold RawMemory_new, Allocate. rewrite decide_True by lia. rewrite Hroom.
  reflexivity.
Qed.

(** C5 fails on the code.  [Reserve(2^62 + 1)] on the vector [[1; 2]] of
    elements of four bytes: [Allocate] asks [operator new] for
    [(2^62 + 1) * 4] bytes, which as a [size_t] is [4], and records the
    capacity [2^62 + 1].  The block has room for one element: the first is
    relocated into it, the second is constructed past its end. *)
Theorem Reserve_beyond_size_t :
  room beyond_size_t = 1 ∧
  Reserve never beyond_size_t (vector_of [1; 2] 2) []
  = Undefined (vector_of [1; 2] 2)
      [Did (OperatorNew beyond_size_t); Did (MoveConstruct 1)].
Proof.
  split; [apply room_beyond_size_t|].
  apply Reserve_into_a_block_of_one; apply room_beyond_size_t.
Qed.

Lemma Resize_into_a_block_of_one n :
  room n = 1 → 2 < n →
  Resize never n (vector_of [1] 1) []
  = Undefined {| data_ := {| buffer_ := block [Live 1]; capacity_ := n |}; size_ := 1 |}
      [Did (OperatorNew n); Did (MoveConstruct 1); Did (Destroy 1); Did OperatorDelete].
Proof.
  intros Hroom Hn. destruct n as [|[|n]]; [lia..|].
  unfold Resize, Reserve, RawMemory_new, Allocate.
  change (to_size_t (Z.of_nat (Capacity (vector_of [1] 1)) * 2) `max` S (S n))
    with (S (S n)).
  rewrite Hroom. reflexivity.
Qed.

(** C6 fails on the code.  [Resize(2^62 + 1)] on the vector [[1]] of
    elements of four bytes: the block that [Reserve] allocates has room for
    one element and the capacity [2^62 + 1] on record.  The element is
    relocated into it, and the first of the new trailing elements is
    constructed past its end. *)
Theorem Resize_beyond_size_t :
  Resize never beyond_size_t (vector_of [1] 1) []
  = Undefined
      {| data_ := {| buffer_ := block [Live 1]; capacity_ := beyond_size_t |};
         size_ := 1 |}
      [Did (OperatorNew beyond_size_t); Did (MoveConstruct 1); Did (Destroy 1);
       Did OperatorDelete].
Proof. apply Resize_into_a_block_of_one; apply room_beyond_size_t. Qed.

End IntScenarios.
